(** * Numerical cores of the GAN / diffusion / NeRF notebooks

    A shallow embedding of the formulas the notebooks compute:

    - [labs/diffusion-models/L2_training/L2_Training.ipynb]: the DDPM noise
      schedule, [perturb_input], [denoise_add_noise], [sample_ddpm], and the
      notebook cells that bind the schedule globals;
    - [labs/C2W2/C2W2_(Optional_Notebook)_NeRF.ipynb]: [batch_generator] and
      [render_rays];
    - [labs/C2W1/C2W1_Assignment copy.ipynb]: [get_gradient],
      [gradient_penalty], [frechet_distance];
    - the checkpoint-loading cells of L2_Training and C3W2B_Assignment.

    Conventions.  A float tensor is a [list R] of its elements in row-major
    order (a batch is a list of such lists); arithmetic is exact real
    arithmetic, so rounding, overflow and NaN are outside the model.  A
    Python exception is [None] in the option-returning functions and an
    explicit [exn] in the cell monad of [Checkpoint].  The random generator
    is an explicit stream position threaded through the sampler. *)

From Stdlib Require Import Reals Lra Lia.
From stdpp Require Import gmap strings list pretty.

Open Scope R_scope.

(* ================================================================== *)
(** * Part I: definitions *)
(* ================================================================== *)

(** ** Tensor primitives (the framework operations the notebooks call) *)

Module Tensor.

(** [torch.linspace(start, end, steps)]: [steps] points evenly spaced from
    [start] to [end] inclusive, the i-th being
    [start + i * (end - start) / (steps - 1)]. *)
Definition linspace (start stop : R) (steps : nat) : list R :=
  (λ i : nat, start + INR i * ((stop - start) / INR (steps - 1))) <$> seq 0 steps.

(** Inclusive running reduction along a vector: element [i] of the result
    is [f (... (f (f acc x0) x1) ...) xi]. *)
Fixpoint scan (f : R → R → R) (acc : R) (l : list R) : list R :=
  match l with
  | [] => []
  | x :: l' => f acc x :: scan f (f acc x) l'
  end.

(** [torch.cumsum(l, dim=0)] and [torch.cumprod(l, dim=-1)]. *)
Definition cumsum (l : list R) : list R := scan Rplus 0 l.
Definition cumprod (l : list R) : list R := scan Rmult 1 l.

(** [l.sum()] *)
Definition sum (l : list R) : R := foldr Rplus 0 l.

(** [torch.roll(l, 1, dims=-1)]: the last element moves to the front. *)
Definition roll1 (l : list R) : list R :=
  drop (length l - 1) l ++ take (length l - 1) l.

(** [l[0] = v]; an [IndexError] on an empty tensor is [None]. *)
Definition set0 (v : R) (l : list R) : option (list R) :=
  match l with
  | [] => None
  | _ :: l' => Some (v :: l')
  end.

(** Elementwise binary operation on two tensors of the same shape; a shape
    mismatch (a [RuntimeError] in the framework) is [None]. *)
Definition zip2 (f : R → R → R) (x y : list R) : option (list R) :=
  if decide (length x = length y) then Some (zip_with f x y) else None.

(** [tbl[t]] for an index tensor [t]: one looked-up entry per index, an
    [IndexError] if any index is out of range. *)
Definition gather (tbl : list R) (t : list nat) : option (list R) :=
  mapM (λ i, tbl !! i) t.

(** [c * x] for coefficients [c] of shape (B,1,1,1) and a batch [x] of [B]
    images: each image is scaled by its own coefficient. *)
Definition scale_rows (c : list R) (x : list (list R)) : option (list (list R)) :=
  if decide (length c = length x)
  then Some (zip_with (λ ci row, Rmult ci <$> row) c x)
  else None.

(** [x + y] for two batches of the same shape. *)
Definition add_rows (x y : list (list R)) : option (list (list R)) :=
  if decide (length x = length y)
  then mapM (λ p, zip2 Rplus p.1 p.2) (zip x y)
  else None.

End Tensor.

(** ** L2_Training.ipynb: the DDPM schedule, perturbation and sampler *)

Module DDPM.
Import Tensor.

(** The cumulative product of alphas "the way it's computed in the code":
    [ab_t = torch.cumsum(a_t.log(), dim=0).exp(); ab_t[0] = 1]. *)
Definition ab_t_code (a : list R) : option (list R) :=
  set0 1 (exp <$> cumsum (ln <$> a)).

(** [ab_t_alternative = torch.cumprod(a_t, dim=0)] *)
Definition ab_t_alternative (a : list R) : list R := cumprod a.

(** The three schedule statements shared by the schedule cell and the two
    analysis functions:
<<
    b_t = (beta2 - beta1) * torch.linspace(0, 1, timesteps + 1) + beta1
    a_t = 1 - b_t
    ab_t = torch.cumsum(a_t.log(), dim=0).exp()
    ab_t[0] = 1
>> *)
Definition beta_schedule (beta1 beta2 : R) (timesteps : nat) : list R :=
  (λ x, (beta2 - beta1) * x + beta1) <$> linspace 0 1 (timesteps + 1).

Definition alpha_schedule (b : list R) : list R := (λ x, 1 - x) <$> b.

Definition construct_schedule (beta1 beta2 : R) (timesteps : nat)
  : option (list R * list R * list R) :=
  let b := beta_schedule beta1 beta2 timesteps in
  let a := alpha_schedule b in
  ab ← ab_t_code a;
  Some (b, a, ab).

(** The notebook's global names that the schedule and the sampler use. *)
Record globals := Globals {
  timesteps : nat;
  beta1 : R;
  beta2 : R;
  height : nat;
  b_t : list R;
  a_t : list R;
  ab_t : list R
}.

(** Cell "hyperparameters": [timesteps = 500; beta1 = 1e-4; beta2 = 0.02;
    height = 16] (the names not used by the schedule are omitted). *)
Definition cell_hyperparameters (g : globals) : option globals :=
  Some (Globals 500 1e-4 0.02 16 (b_t g) (a_t g) (ab_t g)).

(** Cell "construct DDPM noise schedule". *)
Definition cell_construct_schedule (g : globals) : option globals :=
  '(b, a, ab) ← construct_schedule (beta1 g) (beta2 g) (timesteps g);
  Some (Globals (timesteps g) (beta1 g) (beta2 g) (height g) b a ab).

(** [compute_noise_schedule_and_distribution(beta1=1e-4, beta2=2e-2,
    timesteps=1000)]: recomputes the schedule from its own arguments, also
    computes [ab_t_alternative] (a local, only compared by eye), prints a
    table (not modelled) and returns [b_t, a_t, ab_t]. *)
Definition compute_noise_schedule_and_distribution
    (beta1 beta2 : R) (timesteps : nat) : option (list R * list R * list R) :=
  '(b, a, ab) ← construct_schedule beta1 beta2 timesteps;
  let _alt := ab_t_alternative a in
  Some (b, a, ab).

(** The analysis cell run as In[8]: the definition above followed by
    [b_t, a_t, ab_t = compute_noise_schedule_and_distribution()],
    a call with the default arguments. *)
Definition cell_noise_schedule_analysis (g : globals) : option globals :=
  '(b, a, ab) ← compute_noise_schedule_and_distribution 1e-4 2e-2 1000;
  Some (Globals (timesteps g) (beta1 g) (beta2 g) (height g) b a ab).

(** The cell run as In[13]: [analyze_xt_distribution()] only reads [ab_t]. *)
Definition cell_analyze_xt_distribution (g : globals) : option globals :=
  Some g.

(** [analyze_noise_prediction_theory()]: rebuilds the schedule with its
    local [beta1, beta2, timesteps = 1e-4, 2e-2, 1000], reads
    [ab_t[t]] for [key_timesteps = [1, 50, 100, 250, 500, 750, 999]] and
    returns the local [ab_t]. *)
Definition analyze_noise_prediction_theory : option (list R) :=
  '(_, _, ab) ← construct_schedule 1e-4 2e-2 1000;
  _ ← gather ab [1; 50; 100; 250; 500; 750; 999]%nat;
  Some ab.

(** The cell run as In[14]: [ab_t = analyze_noise_prediction_theory()]. *)
Definition cell_noise_prediction_theory (g : globals) : option globals :=
  ab ← analyze_noise_prediction_theory;
  Some (Globals (timesteps g) (beta1 g) (beta2 g) (height g) (b_t g) (a_t g) ab).

(** The state before any cell has run: no schedule bound yet. *)
Definition fresh : globals := Globals 0 0 0 0 [] [] [].

(** The cells up to and including the schedule construction. *)
Definition initialization : option globals :=
  cell_hyperparameters fresh ≫= cell_construct_schedule.

(** The cells that follow the initialization and touch the schedule names,
    in notebook order (the training cell between them is commented out in
    the source; the helper definitions bind no schedule name). *)
Definition analysis_cells : list (globals → option globals) :=
  [cell_noise_schedule_analysis; cell_analyze_xt_distribution;
   cell_noise_prediction_theory].

Definition run_cells (cells : list (globals → option globals)) (g : globals)
  : option globals :=
  foldl (λ acc cell, acc ≫= cell) (Some g) cells.

(** [perturb_input(x, t, noise)]:
<<
    return ab_t.sqrt()[t, None, None, None] * x
         + (1 - ab_t[t, None, None, None]).sqrt() * noise
>>
    [x] and [noise] are batches of images, [t] holds one timestep index per
    image; the indexed coefficients have shape (B,1,1,1) and broadcast over
    each image. *)
Definition perturb_input (g : globals) (x : list (list R)) (t : list nat)
    (noise : list (list R)) : option (list (list R)) :=
  c_sig ← gather (sqrt <$> ab_t g) t;
  sig ← scale_rows c_sig x;
  c_ab ← gather (ab_t g) t;
  nse ← scale_rows (sqrt <$> ((λ a, 1 - a) <$> c_ab)) noise;
  add_rows sig nse.

(** *** The sampler

    Sampling code runs in a small monad: it threads the position in the
    random generator's stream and fails ([None]) where Python raises. *)
Definition sampler (A : Type) : Type := nat → option (A * nat).

#[global] Instance sampler_ret : MRet sampler := λ A a k, Some (a, k).

#[global] Instance sampler_bind : MBind sampler :=
  λ A B f m k, match m k with
               | Some (a, k') => f a k'
               | None => None
               end.

Definition raise {A} : sampler A := λ _, None.

Definition lift {A} (o : option A) : sampler A :=
  λ k, match o with Some a => Some (a, k) | None => None end.

(** The second argument of [denoise_add_noise] as [sample_ddpm] passes it:
    a tensor drawn by [torch.randn_like], or the Python number [0]. *)
Inductive noise_arg :=
  | ZTensor (z : list R)
  | ZScalar (c : R).

Section Sampler.

(** [gauss k n]: the [n] standard-normal values that the [k]-th draw of the
    generator returns. *)
Variable gauss : nat → nat → list R.

(** [nn_model(samples, t)]: the noise-prediction network. *)
Variable nn_model : list R → R → list R.

Variable g : globals.

(** [torch.randn(n)] / [torch.randn_like(x)]: one draw, advancing the
    generator. *)
Definition randn (n : nat) : sampler (list R) := λ k, Some (gauss k n, S k).
Definition randn_like (x : list R) : sampler (list R) := randn (length x).

(** [denoise_add_noise(x, t, pred_noise, z=None)]:
<<
    if z is None:
        z = torch.randn_like(x)
    noise = b_t.sqrt()[t] * z
    mean = (x - pred_noise * ((1 - a_t[t]) / (1 - ab_t[t]).sqrt())) / a_t[t].sqrt()
    return mean + noise
>> *)
Definition denoise_add_noise (x : list R) (t : nat) (pred_noise : list R)
    (z : option noise_arg) : sampler (list R) :=
  z ← match z with
      | None => z' ← randn_like x; mret (ZTensor z')
      | Some z => mret z
      end;
  sb ← lift ((sqrt <$> b_t g) !! t);
  a ← lift (a_t g !! t);
  ab ← lift (ab_t g !! t);
  let scaled := (λ e, e * ((1 - a) / sqrt (1 - ab))) <$> pred_noise in
  diff ← lift (zip2 Rminus x scaled);
  let mean := (λ d, d / sqrt a) <$> diff in
  match z with
  | ZTensor z => lift (zip2 Rplus mean ((λ zi, sb * zi) <$> z))
  | ZScalar c => mret ((λ m, m + sb * c) <$> mean)
  end.

(** One iteration of the loop body of [sample_ddpm] at loop index [i]:
<<
    t = torch.tensor([i / timesteps])[:, None, None, None]
    z = torch.randn_like(samples) if i > 1 else 0
    eps = nn_model(samples, t)
    samples = denoise_add_noise(samples, i, eps, z)
    if i % save_rate == 0 or i == timesteps or i < 8:
        intermediate.append(samples.detach().cpu().numpy())
>> *)
Definition ddpm_step (save_rate : nat) (i : nat)
    (st : list R * list (list R)) : sampler (list R * list (list R)) :=
  let '(samples, intermediate) := st in
  let t := INR i / INR (timesteps g) in
  z ← (if decide (1 < i)%nat
       then z' ← randn_like samples; mret (ZTensor z')
       else mret (ZScalar 0));
  let eps := nn_model samples t in
  samples' ← denoise_add_noise samples i eps (Some z);
  save ← (match save_rate with
          | O => raise          (* i % 0: ZeroDivisionError *)
          | S _ => mret (bool_decide (i mod save_rate = 0)%nat
                        || bool_decide (i = timesteps g)
                        || bool_decide (i < 8)%nat)
          end);
  mret (samples', if save : bool then intermediate ++ [samples'] else intermediate).

(** [for i in range(timesteps, 0, -1)]: the body at [i], then the rest of
    the range. *)
Fixpoint ddpm_loop (save_rate : nat) (i : nat)
    (st : list R * list (list R)) : sampler (list R * list (list R)) :=
  match i with
  | O => mret st
  | S i' => st' ← ddpm_step save_rate (S i') st; ddpm_loop save_rate i' st'
  end.

(** [sample_ddpm(n_sample, save_rate=20)]: initial noise of shape
    [(n_sample, 3, height, height)], the loop, then
    [np.stack(intermediate)], which raises on an empty list. *)
Definition sample_ddpm (n_sample : nat) (save_rate : nat)
  : sampler (list R * list (list R)) :=
  samples ← randn (n_sample * 3 * height g * height g);
  st ← ddpm_loop save_rate (timesteps g) (samples, []);
  match st.2 with
  | [] => raise
  | _ => mret st
  end.

End Sampler.

(** *** The reverse update written from its formula

    One entry of a reverse step: the predicted noise [e], scaled by
    [(1 - a) / sqrt (1 - ab)], is subtracted from [x], the difference is
    divided by [sqrt a], and the noise [z] is added back scaled by
    [sqrt b]. *)
Definition reverse_step (a ab b : R) (x e z : R) : R :=
  (x - e * ((1 - a) / sqrt (1 - ab))) / sqrt a + sqrt b * z.

Definition reverse_step_all (a ab b : R) (x eps z : list R) : list R :=
  zip_with (λ xe zi, reverse_step a ab b xe.1 xe.2 zi) (zip x eps) z.

(** "Step [i] re-injects fresh noise": run from generator position [k] on
    [samples], the loop body at [i] returns the reverse update of [samples]
    with the schedule's coefficients at [i], the network's prediction, and
    a standard-normal draw taken at that step. *)
Definition step_adds_fresh_noise (gauss : nat → nat → list R)
    (nn_model : list R → R → list R) (g : globals) (save_rate i : nat)
    (samples : list R) (k : nat) : Prop :=
  ∃ a ab b st' k',
    a_t g !! i = Some a ∧ ab_t g !! i = Some ab ∧ b_t g !! i = Some b
    ∧ ddpm_step gauss nn_model g save_rate i (samples, []) k = Some (st', k')
    ∧ st'.1 = reverse_step_all a ab b samples
                (nn_model samples (INR i / INR (timesteps g)))
                (gauss k (length samples)).

End DDPM.

(** ** C2W2_(Optional_Notebook)_NeRF.ipynb: volume rendering *)

Module NeRF.
Import Tensor.

(** [range(0, stop, step)] for a positive [step]. *)
Definition range_step (stop step : nat) : list nat :=
  (λ k, k * step)%nat <$> seq 0 ((stop + step - 1) / step).

(** [batch_generator(inputs, batch_size)]:
<<
    l = inputs.shape[0]
    for i in range(0, l, batch_size):
        yield inputs[i:min(i + batch_size, l)]
>>
    all the batches it yields, in order; [range] raises for a zero step. *)
Definition batch_generator {A} (inputs : list A) (batch_size : nat)
  : option (list (list A)) :=
  match batch_size with
  | O => None
  | S _ =>
      let l := length inputs in
      Some ((λ i, take (i + batch_size `min` l - i) (drop i inputs))
              <$> range_step l batch_size)
  end.

(** Row-major [reshape] of [n * k] elements into [n] rows of [k]. *)
Definition chunks {A} (n k : nat) (l : list A) : list (list A) :=
  (λ i, take k (drop (i * k) l))%nat <$> seq 0 n.

(** [torch.reshape(flat, [n_rays, N_samples, 4])] of a 2-D tensor given by
    its rows; the element count must match. *)
Definition reshape_radiance (n_rays N_samples : nat) (rows : list (list R))
  : option (list (list (list R))) :=
  let flat := concat rows in
  if decide (length flat = n_rays * N_samples * 4)%nat
  then Some (chunks N_samples 4 <$> chunks n_rays (N_samples * 4) flat)
  else None.

Definition relu (x : R) : R := Rmax 0 x.
Definition sigmoid (x : R) : R := 1 / (1 + exp (- x)).

(** The sampled depths:
<<
    z_vals = torch.linspace(near, far, N_samples)
    if rand:
        z_vals = (torch.rand(list(rays_o.shape[:-1]) + [N_samples])
                  * (far - near) / N_samples) + z_vals
>>
    [u] is the tensor [torch.rand] returns (one row per ray), used only when
    [rand] holds.  Without [rand] the 1-D [z_vals] broadcasts against every
    ray in all later operations, which the replicated rows stand for. *)
Definition sample_z_vals (n_rays : nat) (near far : R) (N_samples : nat)
    (rand : bool) (u : list (list R)) : option (list (list R)) :=
  let z_vals := linspace near far N_samples in
  if rand then
    if decide (length u = n_rays)
    then mapM (λ u_r, zip2 Rplus
                        ((λ x, x * (far - near) / INR N_samples) <$> u_r)
                        z_vals) u
    else None
  else Some (replicate n_rays z_vals).

(** [pts = rays_o[..., None, :] + rays_d[..., None, :] * z_vals[..., :, None]]
    for one ray: a 3-vector per sample. *)
Definition ray_points (o d : list R) (z : list R) : list (list R) :=
  (λ zi, zip_with (λ oc dc, oc + dc * zi) o d) <$> z.

(** The network query:
<<
    pts_flat = pts.reshape((-1, 3))
    encoded_pts_flat = encoding_fn(pts_flat)
    batches = batch_generator(encoded_pts_flat, batch_size=BATCH_SIZE)
    preds = []
    for batch in batches:
        preds.append(model(batch))
    radiance_fields_flat = torch.cat(preds, dim=0)
    radiance_fields = torch.reshape(radiance_fields_flat,
                                    list(pts.shape[:-1]) + [4])
>> *)
Definition query_radiance (model encoding_fn : list (list R) → list (list R))
    (BATCH_SIZE : nat) (n_rays N_samples : nat) (pts : list (list (list R)))
  : option (list (list (list R))) :=
  let pts_flat := concat pts in
  let encoded_pts_flat := encoding_fn pts_flat in
  batches ← batch_generator encoded_pts_flat BATCH_SIZE;
  let preds := model <$> batches in
  let radiance_fields_flat := concat preds in
  reshape_radiance n_rays N_samples radiance_fields_flat.

(** [sigma_a = F.relu(radiance_fields[..., 3])] and
    [rgb = torch.sigmoid(radiance_fields[..., :3])] along one ray. *)
Definition sigma_a (rf : list (list R)) : list R :=
  (λ row, relu (nth 3 row 0)) <$> rf.
Definition rgb (rf : list (list R)) : list (list R) :=
  (λ row, sigmoid <$> take 3 row) <$> rf.

(** The distances between consecutive depths along one ray:
<<
    dists = torch.cat([z_vals[..., 1:] - z_vals[..., :-1],
                       oneE10.expand(z_vals[..., :1].shape)], dim=-1)
>> *)
Definition dists (z : list R) : list R :=
  zip_with Rminus (drop 1 z) (take (length z - 1) z)
  ++ ((λ _, 1e10) <$> take 1 z).

(** The compositing weights along one ray:
<<
    alpha = 1 - torch.exp(-sigma_a * dists)
    weights = torch.roll(torch.cumprod(1 - alpha + 1e-10, dim=-1), 1, dims=-1)
    weights[..., 0] = 1
    weights = alpha * weights
>> *)
Definition alpha (sigma d : list R) : option (list R) :=
  zip2 (λ s di, 1 - exp (- s * di)) sigma d.

Definition weights (al : list R) : option (list R) :=
  w ← set0 1 (roll1 (cumprod ((λ a, 1 - a + 1e-10) <$> al)));
  zip2 Rmult al w.

(** The three maps for one ray:
<<
    rgb_map = (weights[..., None] * rgb).sum(dim=-2)
    depth_map = (weights * z_vals).sum(dim=-1)
    acc_map = weights.sum(dim=-1)
>> *)
Definition volume_render (z : list R) (rf : list (list R))
  : option (list R * R * R) :=
  al ← alpha (sigma_a rf) (dists z);
  w ← weights al;
  wz ← zip2 Rmult w z;
  let rgb_map :=
    foldr (zip_with Rplus) [0; 0; 0]
          (zip_with (λ wi col, Rmult wi <$> col) w (rgb rf)) in
  Some (rgb_map, sum wz, sum w).

(** [render_rays(model, rays_o, rays_d, near, far, N_samples, encoding_fn,
    rand=True)]; the rays of the image are listed one after the other, and
    the result holds [(rgb_map, depth_map, acc_map)] per ray. *)
Definition render_rays (model : list (list R) → list (list R))
    (rays_o rays_d : list (list R)) (near far : R) (N_samples : nat)
    (encoding_fn : list (list R) → list (list R)) (rand : bool)
    (BATCH_SIZE : nat) (u : list (list R))
  : option (list (list R * R * R)) :=
  if decide (length rays_o = length rays_d) then
    z_vals ← sample_z_vals (length rays_o) near far N_samples rand u;
    let pts := zip_with (λ od z, ray_points od.1 od.2 z)
                        (zip rays_o rays_d) z_vals in
    radiance_fields ←
      query_radiance model encoding_fn BATCH_SIZE (length rays_o) N_samples pts;
    mapM (λ zr, volume_render zr.1 zr.2) (zip z_vals radiance_fields)
  else None.

(** *** The alpha-compositing recurrence, written from its formula

    [delta z i] is the distance to the next sample (a large constant for the
    last one), [T] the accumulated transmittance
    [T_0 = 1], [T_(i+1) = T_i * (1 - alpha_i + 1e-10)], and the pixel colour
    the sum over the samples of [T_i * (1 - exp (- sigma_i * delta_i)) * c_i]. *)
Definition delta (z : list R) (i : nat) : R :=
  if decide (S i < length z)%nat then nth (S i) z 0 - nth i z 0 else 1e10.

Definition alpha_at (sigma : nat → R) (z : list R) (i : nat) : R :=
  1 - exp (- sigma i * delta z i).

Fixpoint transmittance (al : nat → R) (i : nat) : R :=
  match i with
  | O => 1
  | S j => transmittance al j * (1 - al j + 1e-10)
  end.

Fixpoint big_sum (n : nat) (f : nat → R) : R :=
  match n with
  | O => 0
  | S m => big_sum m f + f m
  end.

(** Density and colour of sample [i] as the network's row gives them. *)
Definition density (rf : list (list R)) (i : nat) : R :=
  relu (nth 3 (nth i rf []) 0).
Definition colour (rf : list (list R)) (i ch : nat) : R :=
  sigmoid (nth ch (nth i rf []) 0).

Definition composite (z : list R) (rf : list (list R)) (ch : nat) : R :=
  big_sum (length z)
    (λ i, transmittance (alpha_at (density rf) z) i
          * (1 - exp (- density rf i * delta z i))
          * colour rf i ch).

End NeRF.

(** ** C2W1_Assignment copy.ipynb: the WGAN-GP gradient penalty *)

Module WGAN.
Import Tensor.

(** An image is channels x rows x columns; a batch is a list of images. *)
Abbreviation image := (list (list (list R))).

Definition shape (x : image) : list nat * list (list nat) :=
  (length <$> x, (λ plane : list (list R), length <$> plane) <$> x).

Definition same_shape (x y : list image) : Prop :=
  shape <$> x = shape <$> y.

#[global] Instance same_shape_dec x y : Decision (same_shape x y).
Proof. unfold same_shape. apply _. Defined.

Definition image_map2 (f : R → R → R) (x y : image) : image :=
  zip_with (zip_with (zip_with f)) x y.

Definition image_scale (x : image) (c : R) : image :=
  (λ plane : list (list R),
     (λ row : list R, (λ v, v * c) <$> row) <$> plane) <$> x.

(** [mixed_images = real * epsilon + fake * (1 - epsilon)], with [epsilon]
    of shape (B,1,1,1): one proportion per image. *)
Definition mix (real fake : list image) (epsilon : list R)
  : option (list image) :=
  if decide (same_shape real fake ∧ length epsilon = length real) then
    Some (zip_with (λ e rf, image_map2 Rplus (image_scale rf.1 e)
                                              (image_scale rf.2 (1 - e)))
                   epsilon (zip real fake))
  else None.

Definition ones_like (scores : list R) : list R := (λ _, 1) <$> scores.

Section Autograd.

(** [torch.autograd.grad(inputs=x, outputs=f(x), grad_outputs=v, ...)[0]]:
    the engine's gradient of the recorded computation [f] at [x], weighted
    by [v].  The automatic-differentiation engine belongs to the framework
    and is taken as given. *)
Variable autograd_grad : (list image → list R) → list image → list R → list image.

(** [get_gradient(crit, real, fake, epsilon)] *)
Definition get_gradient (crit : list image → list R)
    (real fake : list image) (epsilon : list R) : option (list image) :=
  mixed_images ← mix real fake epsilon;
  let mixed_scores := crit mixed_images in
  Some (autograd_grad crit mixed_images (ones_like mixed_scores)).

End Autograd.

(** [gradient.view(len(gradient), -1)]: each image flattened to a row;
    the framework refuses an empty batch here. *)
Definition view_rows (gradient : list image) : option (list (list R)) :=
  match gradient with
  | [] => None
  | _ => Some ((λ img, concat (concat img)) <$> gradient)
  end.

(** [row.norm(2)] *)
Definition norm2 (row : list R) : R := sqrt (sum ((λ x, x * x) <$> row)).

(** [t.mean()] of a non-empty vector. *)
Definition mean (l : list R) : R := sum l / INR (length l).

(** [gradient_penalty(gradient)]:
<<
    gradient = gradient.view(len(gradient), -1)
    gradient_norm = gradient.norm(2, dim=1)
    penalty = ((gradient_norm - 1) ** 2).mean()
>> *)
Definition gradient_penalty (gradient : list image) : option R :=
  rows ← view_rows gradient;
  let gradient_norm := norm2 <$> rows in
  Some (mean ((λ n, (n - 1) ^ 2) <$> gradient_norm)).

(** *** The penalty written from its formula: the per-image L2 norm is the
    square root of the sum of the squared entries over channels, rows and
    columns; the penalty is the batch average of [(norm - 1)^2]. *)
Definition image_sq_sum (img : image) : R :=
  sum ((λ plane : list (list R),
          sum ((λ row : list R, sum ((λ x, x ^ 2) <$> row)) <$> plane)) <$> img).

Definition penalty_formula (gradient : list image) : R :=
  sum ((λ img, (sqrt (image_sq_sum img) - 1) ^ 2) <$> gradient)
  / INR (length gradient).

End WGAN.

(** ** C2W1_Assignment copy.ipynb: the Frechet distance cell *)

Module FID.

(** [frechet_distance(mu_x, mu_y, sigma_x, sigma_y)] as the notebook has
    it: the graded body is the placeholder [return None].  Python's [None]
    is [None] here; a number would be [Some]. *)
Definition frechet_distance (mu_x mu_y : list R)
    (sigma_x sigma_y : list (list R)) : option R :=
  None.

(** The unit-test inputs: [mean1 = [0, 2]], [covariance1 = [[1,0],[0,1]]]. *)
Definition mean1 : list R := [0; 2].
Definition covariance1 : list (list R) := [[1; 0]; [0; 1]].

(** The second assertion of the unit test,
    [frechet_distance(mean1, mean1, cov1, cov1).item() == 0]: it holds when
    the call yields a number and that number is zero. *)
Definition unit_test_identical : Prop :=
  ∃ d, frechet_distance mean1 mean1 covariance1 covariance1 = Some d ∧ d = 0.

End FID.

(** ** Checkpoint loading cells (L2_Training and C3W2B_Assignment) *)

Module Checkpoint.

Inductive exn :=
  | FileNotFoundError (path : string)
  | KeyError (key : string)
  | RuntimeError
  | ValueError
  | AttributeError.

(** A tensor: its shape and its entries. *)
Record tensor := Tensor_ { tshape : list nat; tdata : list R }.

(** The [state_dict()] of a module: parameter name to tensor. *)
Abbreviation state_dict := (gmap string tensor).

(** The [state_dict()] of an optimizer: its parameter groups, of which the
    number of parameters in each is what a load checks, and everything
    else it holds (the groups' options, the per-parameter state) by name. *)
Record opt_state_dict := OptState_ {
  group_sizes : list nat;
  opt_entries : state_dict
}.

(** An entry of a checkpoint dictionary: a module's or an optimizer's
    state dict. *)
Inductive saved :=
  | SavedModule (sd : state_dict)
  | SavedOptimizer (os : opt_state_dict).

(** What [torch.load] unpickles: a module's state dict, or a dictionary of
    state dicts. *)
Inductive pyobj :=
  | ObjStateDict (sd : state_dict)
  | ObjDict (d : gmap string saved).

(** A module object: its parameters and the train/eval flag. *)
Record module := Module_ { params : state_dict; training : bool }.

(** What a notebook variable is bound to: a module or an optimizer. *)
Inductive object :=
  | ObjModule (m : module)
  | ObjOptimizer (o : opt_state_dict).

(** The world a cell runs in: the files on disk, the notebook's objects by
    variable name, and what has been printed. *)
Record world := World {
  files : gmap string pyobj;
  objects : gmap string object;
  stdout : list string
}.

(** A cell is a computation that returns a value or raises; changes made to
    the world before a raise stay made. *)
Definition cell (A : Type) : Type := world → (exn + A) * world.

#[global] Instance cell_ret : MRet cell := λ A a w, (inr a, w).

#[global] Instance cell_bind : MBind cell :=
  λ A B f m w, match m w with
               | (inr a, w') => f a w'
               | (inl e, w') => (inl e, w')
               end.

Definition throw {A} (e : exn) : cell A := λ w, (inl e, w).

(** [torch.load(path)] *)
Definition torch_load (path : string) : cell pyobj :=
  λ w, match files w !! path with
       | Some o => (inr o, w)
       | None => (inl (FileNotFoundError path), w)
       end.

(** [d[key]] on the loaded object. *)
Definition getitem (o : pyobj) (key : string) : cell saved :=
  match o with
  | ObjDict d => match d !! key with
                 | Some s => mret s
                 | None => throw (KeyError key)
                 end
  | ObjStateDict _ => throw (KeyError key)
  end.

Definition as_state_dict (o : pyobj) : cell state_dict :=
  match o with
  | ObjStateDict sd => mret sd
  | ObjDict _ => throw RuntimeError
  end.

(** What a strict load leaves in a module: every parameter for which [sd]
    offers a tensor of the parameter's shape is overwritten by it, the
    others stay. *)
Definition copy_matching (sd old : state_dict) : state_dict :=
  map_imap (λ k p, Some (match sd !! k with
                         | Some t => if decide (tshape t = tshape p)
                                     then t else p
                         | None => p
                         end)) old.

(** [name.load_state_dict(s)].

    On a module (strict): the matching parameters are overwritten; then,
    unless the names in [s] are exactly the module's parameter names and
    every shape agrees, the call raises [RuntimeError], with the matching
    parameters already overwritten.  The state dict of an optimizer has
    none of a module's names.

    On an optimizer: the saved parameter groups must be as many as the
    optimizer's and of the same sizes, else [ValueError] and nothing is
    changed; the optimizer then takes over the saved state.  A module's
    state dict has no ['param_groups']. *)
Definition load_state_dict (name : string) (s : saved) : cell unit :=
  λ w, match objects w !! name, s with
       | Some (ObjModule m), SavedModule sd =>
           let m' := Module_ (copy_matching sd (params m)) (training m) in
           let w' := World (files w) (<[name := ObjModule m']> (objects w))
                           (stdout w) in
           if decide (tshape <$> sd = tshape <$> params m)
           then (inr (), w') else (inl RuntimeError, w')
       | Some (ObjModule m), SavedOptimizer _ => (inl RuntimeError, w)
       | Some (ObjOptimizer o), SavedOptimizer os =>
           if decide (group_sizes os = group_sizes o)
           then (inr (), World (files w)
                               (<[name := ObjOptimizer os]> (objects w))
                               (stdout w))
           else (inl ValueError, w)
       | Some (ObjOptimizer o), SavedModule _ =>
           (inl (KeyError "param_groups"), w)
       | None, _ => (inl RuntimeError, w)
       end.

(** [name.eval()]: a module switches to eval mode; an optimizer has no
    such method. *)
Definition eval (name : string) : cell unit :=
  λ w, match objects w !! name with
       | Some (ObjModule m) =>
           (inr (), World (files w)
                          (<[name := ObjModule (Module_ (params m) false)]>
                             (objects w))
                          (stdout w))
       | Some (ObjOptimizer _) => (inl AttributeError, w)
       | None => (inl RuntimeError, w)
       end.

Definition print (s : string) : cell unit :=
  λ w, (inr (), World (files w) (objects w) (stdout w ++ [s])).

(** L2_Training, the "View Epoch n" cells ([save_dir = './weights/']):
<<
    nn_model.load_state_dict(torch.load(f"{save_dir}/model_0.pth",
                                        map_location=device))
    nn_model.eval()
    print("Loaded in Model")
>> *)
Definition save_dir : string := "./weights/".

Definition cell_view_epoch (epoch : string) : cell unit :=
  loaded ← torch_load (save_dir +:+ "/model_" +:+ epoch +:+ ".pth");
  sd ← as_state_dict loaded;
  _ ← load_state_dict "nn_model" (SavedModule sd);
  _ ← eval "nn_model";
  print "Loaded in Model".

(** C3W2B_Assignment, the branch taken with [pretrained = True]:
<<
    loaded_state = torch.load("pix2pix_15000.pth")
    gen.load_state_dict(loaded_state["gen"])
    gen_opt.load_state_dict(loaded_state["gen_opt"])
    disc.load_state_dict(loaded_state["disc"])
    disc_opt.load_state_dict(loaded_state["disc_opt"])
>> *)
Definition cell_load_pretrained : cell unit :=
  loaded_state ← torch_load "pix2pix_15000.pth";
  sd ← getitem loaded_state "gen";
  _ ← load_state_dict "gen" sd;
  sd ← getitem loaded_state "gen_opt";
  _ ← load_state_dict "gen_opt" sd;
  sd ← getitem loaded_state "disc";
  _ ← load_state_dict "disc" sd;
  sd ← getitem loaded_state "disc_opt";
  load_state_dict "disc_opt" sd.

End Checkpoint.

(** ** NeRF notebook: encoding, network input width, camera rays and poses *)

Module NeRFScene.
Import Tensor.

(** [positional_encoding(x, L_embed=6)], on a 2-D tensor given by its rows:
<<
    rets = [x]
    for i in range(L_embed):
        for fn in [torch.sin, torch.cos]:
            rets.append(fn(2 ** i * x))
    return torch.cat(rets, dim=-1)
>> *)
Definition positional_encoding (L_embed : nat) (x : list (list R))
  : list (list R) :=
  (λ row : list R,
     row ++ concat ((λ i : nat,
                       ((λ v, sin (2 ^ i * v)) <$> row)
                       ++ ((λ v, cos (2 ^ i * v)) <$> row))
                    <$> seq 0 L_embed))
  <$> x.

(** [TinyNeRF.__init__]: [in_dim = 3 + 3 * 2 * L_embed], the input width
    of [layer1]. *)
Definition TinyNeRF_in_dim (L_embed : nat) : nat := 3 + 3 * 2 * L_embed.

(** One entry of [torch.sum(dirs[..., None, :] * cam2world[:3, :3], dim=-1)]:
    the 3-vector [dirs] against one row of the 3-column slice.  A slice
    that is a single column wide broadcasts; any other width is refused by
    the framework. *)
Definition broadcast_dot (dirs row : list R) : option R :=
  match row with
  | [v] => Some (sum ((λ d, d * v) <$> dirs))
  | [_; _; _] => Some (sum (zip_with Rmult dirs row))
  | _ => None
  end.

(** [get_rays(height, width, focal_length, cam2world)]:
<<
    i, j = torch.meshgrid(torch.arange(width), torch.arange(height),
                          indexing="xy")
    dirs = torch.stack([(i - width / 2) / focal_length,
                        - (j - height / 2) / focal_length,
                        - torch.ones_like(i)], dim=-1)
    rays_d = torch.sum(dirs[..., None, :] * cam2world[:3, :3], dim=-1)
    rays_o = cam2world[:3, -1].expand(rays_d.shape)
    return rays_o, rays_d
>>
    Both results are indexed [row][column][component]; with ["xy"]
    indexing [i] is the column and [j] the row of a pixel.  [cam2world] is
    a matrix given by its rows, with at least one row. *)
Definition pixel_dir (height width : nat) (focal_length : R) (r c : nat)
  : list R :=
  [(INR c - INR width / 2) / focal_length;
   - (INR r - INR height / 2) / focal_length;
   - 1].

Definition get_rays (height width : nat) (focal_length : R)
    (cam2world : list (list R))
  : option (list (list (list R)) * list (list (list R))) :=
  let rot := take 3 <$> take 3 cam2world in
  rays_d ← mapM (λ r : nat,
              mapM (λ c : nat,
                 mapM (broadcast_dot (pixel_dir height width focal_length r c))
                      rot)
                   (seq 0 width))
            (seq 0 height);
  origin ← mapM (λ row : list R, last row) (take 3 cam2world);
  Some ((λ row_d : list (list R), (λ _ : list R, origin) <$> row_d) <$> rays_d,
        rays_d).

(** Matrix product [a @ b] of matrices given by their rows; the inner
    sizes must agree. *)
Definition column (j : nat) (b : list (list R)) : list R :=
  (λ row : list R, nth j row 0) <$> b.

Definition matmul (a b : list (list R)) : option (list (list R)) :=
  if decide (Forall (λ row, length row = length b) a) then
    let n := from_option length 0%nat (head b) in
    Some ((λ row : list R,
             (λ j : nat, sum (zip_with Rmult row (column j b))) <$> seq 0 n)
          <$> a)
  else None.

(** The three transformation matrices and [pose_spherical]:
<<
    c2w = trans_t(radius)
    c2w = rot_phi(phi/180.*np.pi) @ c2w
    c2w = rot_theta(theta/180.*np.pi) @ c2w
    c2w = np.array([[-1,0,0,0],[0,0,1,0],[0,1,0,0],[0,0,0,1]]) @ c2w.numpy()
    return c2w
>> *)
Definition trans_t (t : R) : list (list R) :=
  [[1; 0; 0; 0]; [0; 1; 0; 0]; [0; 0; 1; t]; [0; 0; 0; 1]].

Definition rot_phi (phi : R) : list (list R) :=
  [[1; 0; 0; 0];
   [0; cos phi; - sin phi; 0];
   [0; sin phi; cos phi; 0];
   [0; 0; 0; 1]].

Definition rot_theta (th : R) : list (list R) :=
  [[cos th; 0; - sin th; 0];
   [0; 1; 0; 0];
   [sin th; 0; cos th; 0];
   [0; 0; 0; 1]].

Definition pose_spherical (theta phi radius : R) : option (list (list R)) :=
  let c2w := trans_t radius in
  c2w ← matmul (rot_phi (phi / 180 * PI)) c2w;
  c2w ← matmul (rot_theta (theta / 180 * PI)) c2w;
  matmul [[-1; 0; 0; 0]; [0; 0; 1; 0]; [0; 1; 0; 0]; [0; 0; 0; 1]] c2w.

End NeRFScene.

(** ** C2W1_Assignment copy.ipynb: the two WGAN losses *)

Module WGANLoss.
Import Tensor WGAN.

(** [get_gen_loss(crit_fake_pred)]: [gen_loss = -crit_fake_pred.mean()] *)
Definition get_gen_loss (crit_fake_pred : list R) : R :=
  - mean crit_fake_pred.

(** [get_crit_loss(crit_fake_pred, crit_real_pred, gp, c_lambda)]:
    [crit_loss = crit_fake_pred.mean() - crit_real_pred.mean() + gp * c_lambda] *)
Definition get_crit_loss (crit_fake_pred crit_real_pred : list R)
    (gp c_lambda : R) : R :=
  mean crit_fake_pred - mean crit_real_pred + gp * c_lambda.

End WGANLoss.

(** ** C3W2B_Assignment.ipynb: cropping and saving *)

Module Pix2Pix.
Import Checkpoint.

(** Python's [round(n / 2)] for a non-negative integer [n]: halves round
    to the even neighbour. *)
Definition round_half (n : nat) : nat :=
  let k := (n / 2)%nat in
  if Nat.even n then k else if Nat.even k then k else S k.

(** The index a slice bound stands for in a sequence of length [len]: a
    negative bound counts from the end, and the result is clamped to
    [0..len]. *)
Definition slice_bound (len : nat) (i : Z) : nat :=
  if decide (i < 0)%Z then Z.to_nat (i + Z.of_nat len)
  else Z.to_nat i `min` len.

(** [l[start:stop]] *)
Definition py_slice {A} (start stop : Z) (l : list A) : list A :=
  let a := slice_bound (length l) start in
  let b := slice_bound (length l) stop in
  take (b - a) (drop a l).

(** [image.shape[2]] and [image.shape[3]] of a batch of channel planes,
    read off its first plane. *)
Definition shape2 (image : list (list (list (list R)))) : nat :=
  match image with
  | (plane :: _) :: _ => length plane
  | _ => 0%nat
  end.

Definition shape3 (image : list (list (list (list R)))) : nat :=
  match image with
  | ((row :: _) :: _) :: _ => length row
  | _ => 0%nat
  end.

(** [crop(image, new_shape)], with [new_h = new_shape[2]] and
    [new_w = new_shape[3]]:
<<
    middle_height = image.shape[2] // 2
    middle_width = image.shape[3] // 2
    starting_height = middle_height - round(new_shape[2] / 2)
    final_height = starting_height + new_shape[2]
    starting_width = middle_width - round(new_shape[3] / 2)
    final_width = starting_width + new_shape[3]
    cropped_image = image[:, :, starting_height:final_height,
                          starting_width:final_width]
>> *)
Definition crop (image : list (list (list (list R)))) (new_h new_w : nat)
  : list (list (list (list R))) :=
  let middle_height := (shape2 image / 2)%nat in
  let middle_width := (shape3 image / 2)%nat in
  let starting_height := (Z.of_nat middle_height - Z.of_nat (round_half new_h))%Z in
  let final_height := (starting_height + Z.of_nat new_h)%Z in
  let starting_width := (Z.of_nat middle_width - Z.of_nat (round_half new_w))%Z in
  let final_width := (starting_width + Z.of_nat new_w)%Z in
  (λ img : list (list (list R)),
     (λ plane : list (list R),
        (λ row : list R, py_slice starting_width final_width row)
        <$> py_slice starting_height final_height plane)
     <$> img)
  <$> image.

(** The [state_dict()] of a notebook object; an unbound name raises. *)
Definition state_dict_of (name : string) : cell saved :=
  λ w, match objects w !! name with
       | Some (ObjModule m) => (inr (SavedModule (params m)), w)
       | Some (ObjOptimizer o) => (inr (SavedOptimizer o), w)
       | None => (inl RuntimeError, w)
       end.

(** [torch.save(obj, path)] *)
Definition torch_save (o : pyobj) (path : string) : cell unit :=
  λ w, (inr (), World (<[path := o]> (files w)) (objects w) (stdout w)).

(** The save statement of [train]:
<<
    torch.save({'gen': gen.state_dict(),
                'gen_opt': gen_opt.state_dict(),
                'disc': disc.state_dict(),
                'disc_opt': disc_opt.state_dict()
               }, f"pix2pix_{cur_step}.pth")
>> *)
Definition save_checkpoint (cur_step : N) : cell unit :=
  gen ← state_dict_of "gen";
  gen_opt ← state_dict_of "gen_opt";
  disc ← state_dict_of "disc";
  disc_opt ← state_dict_of "disc_opt";
  torch_save (ObjDict (<["gen" := gen]> (<["gen_opt" := gen_opt]>
                        (<["disc" := disc]> {["disc_opt" := disc_opt]}))))
             ("pix2pix_" +:+ pretty cur_step +:+ ".pth").

(** [name = value] for a freshly built object. *)
Definition assign (name : string) (o : object) : cell unit :=
  λ w, (inr (), World (files w) (<[name := o]> (objects w)) (stdout w)).

Section PretrainedCell.

(** The parameters the constructors [UNet(input_dim, real_dim)] and
    [Discriminator(input_dim + real_dim)] initialize their networks with
    (drawn at random by the framework), and the state of the two new
    [Adam] optimizers. *)
Variables UNet_init Discriminator_init : state_dict.
Variables gen_opt_init disc_opt_init : opt_state_dict.

(** The whole initialization cell, which the notebook runs with
    [pretrained = True]:
<<
    gen = UNet(input_dim, real_dim).to(device)
    gen_opt = torch.optim.Adam(gen.parameters(), lr=lr)
    disc = Discriminator(input_dim + real_dim).to(device)
    disc_opt = torch.optim.Adam(disc.parameters(), lr=lr)
    ...
    pretrained = True
    if pretrained:
        loaded_state = torch.load("pix2pix_15000.pth")
        ...
>>
    A new module is in training mode. *)
Definition cell_initialize_pretrained : cell unit :=
  _ ← assign "gen" (ObjModule (Module_ UNet_init true));
  _ ← assign "gen_opt" (ObjOptimizer gen_opt_init);
  _ ← assign "disc" (ObjModule (Module_ Discriminator_init true));
  _ ← assign "disc_opt" (ObjOptimizer disc_opt_init);
  cell_load_pretrained.

End PretrainedCell.

End Pix2Pix.

(* ================================================================== *)
(** * Part II: properties *)
(* ================================================================== *)

(** ** Facts about the tensor primitives *)

Module TensorFacts.
Import Tensor.

Lemma length_linspace start stop steps :
  length (linspace start stop steps) = steps.
Proof. unfold linspace. by rewrite length_fmap, length_seq. Qed.

Lemma linspace_lookup start stop steps (i : nat) :
  (i < steps)%nat →
  linspace start stop steps !! i
  = Some (start + INR i * ((stop - start) / INR (steps - 1))).
Proof.
  intros Hi. unfold linspace.
  by rewrite list_lookup_fmap, lookup_seq_lt.
Qed.

Lemma length_scan f acc l : length (scan f acc l) = length l.
Proof. revert acc. induction l as [|x l IH]; intros acc; simpl; [done|]. by rewrite IH. Qed.

(** The logarithmic running sum is the running product, on positive data. *)
Lemma scan_exp_ln (l : list R) (s : R) :
  Forall (λ x, 0 < x) l →
  exp <$> scan Rplus s (ln <$> l) = scan Rmult (exp s) l.
Proof.
  intros Hpos. revert s.
  induction Hpos as [|x l Hx _ IH]; intros s; simpl; [done|].
  rewrite IH, exp_plus, (exp_ln x Hx). done.
Qed.

Lemma cumsum_ln_cumprod (l : list R) :
  Forall (λ x, 0 < x) l → exp <$> cumsum (ln <$> l) = cumprod l.
Proof.
  intros Hpos. unfold cumsum, cumprod.
  rewrite <- exp_0. by apply scan_exp_ln.
Qed.

Lemma set0_Some v l :
  l ≠ [] → ∃ l', set0 v l = Some l' ∧ l' !! 0%nat = Some v
                ∧ length l' = length l
                ∧ ∀ i, (1 ≤ i)%nat → l' !! i = l !! i.
Proof.
  destruct l as [|x l]; [done|]. intros _. exists (v :: l).
  repeat split; try done. intros [|i] Hi; [lia|done].
Qed.

Lemma sum_app l1 l2 : sum (l1 ++ l2) = sum l1 + sum l2.
Proof. unfold sum. induction l1 as [|x l1 IH]; simpl; [lra|]. rewrite IH. lra. Qed.

Lemma sum_concat (ls : list (list R)) : sum (concat ls) = sum (sum <$> ls).
Proof.
  induction ls as [|l ls IH]; simpl; [done|].
  rewrite sum_app, IH. done.
Qed.

Lemma zip2_Some (f : R → R → R) (x y : list R) :
  length x = length y → zip2 f x y = Some (zip_with f x y).
Proof. intros Hlen. unfold zip2. by rewrite decide_True. Qed.

Lemma zip2_Some_inv (f : R → R → R) (x y r : list R) :
  zip2 f x y = Some r → length x = length y ∧ r = zip_with f x y.
Proof. unfold zip2. case_decide; [|done]. by intros [= <-]. Qed.

Lemma mapM_pointwise {A B} (f : A → option B) (h : A → B) (l : list A) :
  Forall (λ x, f x = Some (h x)) l → mapM f l = Some (h <$> l).
Proof.
  induction 1 as [|x l Hx _ IH]; [done|].
  cbn [mapM]. rewrite Hx, IH. done.
Qed.

Lemma gather_in_range (tbl : list R) (t : list nat) :
  Forall (λ i, (i < length tbl)%nat) t → is_Some (gather tbl t).
Proof.
  intros Hall. unfold gather. apply mapM_is_Some.
  eapply Forall_impl; [exact Hall|]. intros i Hi. by apply lookup_lt_is_Some.
Qed.

End TensorFacts.

(** ** The DDPM schedule *)

Module DDPMFacts.
Import Tensor TensorFacts DDPM.

Lemma length_beta_schedule beta1 beta2 timesteps :
  length (beta_schedule beta1 beta2 timesteps) = S timesteps.
Proof. unfold beta_schedule. rewrite length_fmap, length_linspace. lia. Qed.

Lemma beta_schedule_lookup beta1 beta2 timesteps (i : nat) :
  (i ≤ timesteps)%nat →
  beta_schedule beta1 beta2 timesteps !! i
  = Some (beta1 + (beta2 - beta1) * INR i / INR timesteps).
Proof.
  intros Hi. unfold beta_schedule.
  rewrite list_lookup_fmap, linspace_lookup by lia. simpl. f_equal.
  replace (timesteps + 1 - 1)%nat with timesteps by lia.
  unfold Rdiv. lra.
Qed.

Lemma alpha_schedule_lookup b (i : nat) x :
  b !! i = Some x → alpha_schedule b !! i = Some (1 - x).
Proof. intros Hb. unfold alpha_schedule. by rewrite list_lookup_fmap, Hb. Qed.

(** Every beta lies between the two end points, when these are ordered. *)
Lemma beta_schedule_bounds beta1 beta2 timesteps (i : nat) x :
  beta1 <= beta2 →
  beta_schedule beta1 beta2 timesteps !! i = Some x →
  beta1 <= x <= beta2.
Proof.
  intros Hle Hx.
  assert (Hi : (i ≤ timesteps)%nat).
  { apply lookup_lt_Some in Hx. rewrite length_beta_schedule in Hx. lia. }
  rewrite beta_schedule_lookup in Hx by done. injection Hx as <-.
  destruct (decide (timesteps = 0%nat)) as [->|Hn].
  { replace i with 0%nat by lia. simpl. unfold Rdiv. rewrite Rinv_0. lra. }
  assert (0 < INR timesteps) by (apply lt_0_INR; lia).
  assert (0 <= INR i) by apply pos_INR.
  assert (INR i <= INR timesteps) by (apply le_INR; lia).
  assert (Hq : 0 <= INR i / INR timesteps <= 1).
  { assert (0 < / INR timesteps) by (by apply Rinv_0_lt_compat).
    unfold Rdiv. split; [nra|].
    apply (Rmult_le_reg_r (INR timesteps)); [done|].
    rewrite Rmult_assoc, Rinv_l by lra. lra. }
  unfold Rdiv in *. rewrite Rmult_assoc. nra.
Qed.

End DDPMFacts.

Module Schedule.
Import Tensor TensorFacts DDPM DDPMFacts.

(** C7: the beta schedule is linear in the timestep index.  For a positive
    number of timesteps and [beta1 < beta2], entry [i] of
    [b_t = (beta2 - beta1) * linspace(0, 1, timesteps + 1) + beta1] is
    [beta1 + (beta2 - beta1) * i / timesteps] for every [i] from 0 to
    [timesteps]; the entries increase strictly with the index; the first is
    [beta1] and the last is [beta2]. *)
Theorem C7_beta_schedule_linear (beta1 beta2 : R) (timesteps : nat) :
  (0 < timesteps)%nat → beta1 < beta2 →
  let b := beta_schedule beta1 beta2 timesteps in
  (∀ i : nat, (i ≤ timesteps)%nat →
     b !! i = Some (beta1 + (beta2 - beta1) * INR i / INR timesteps))
  ∧ (∀ (i j : nat) (x y : R), (i < j)%nat →
       b !! i = Some x → b !! j = Some y → x < y)
  ∧ b !! 0%nat = Some beta1
  ∧ b !! timesteps = Some beta2.
Proof.
  intros HT Hlt b. subst b.
  assert (HTpos : 0 < INR timesteps) by (apply lt_0_INR; lia).
  split; [|split; [|split]].
  - intros i Hi. by apply beta_schedule_lookup.
  - intros i j x y Hij Hx Hy.
    assert (Hj : (j ≤ timesteps)%nat).
    { apply lookup_lt_Some in Hy. rewrite length_beta_schedule in Hy. lia. }
    rewrite beta_schedule_lookup in Hx, Hy by lia.
    injection Hx as <-. injection Hy as <-.
    assert (INR i < INR j) by (apply lt_INR; lia).
    assert (0 < / INR timesteps) by (by apply Rinv_0_lt_compat).
    unfold Rdiv. rewrite !Rmult_assoc.
    apply Rplus_lt_compat_l, Rmult_lt_compat_l; [lra|].
    apply Rmult_lt_compat_r; done.
  - rewrite beta_schedule_lookup by lia. f_equal. simpl. unfold Rdiv. lra.
  - rewrite beta_schedule_lookup by lia. f_equal. field. lra.
Qed.

(** The schedule cell's hyperparameters satisfy the hypotheses of C7. *)
Lemma C7_notebook_schedule :
  (0 < 500)%nat ∧ 1e-4 < 0.02 ∧
  let b := beta_schedule 1e-4 0.02 500 in
  (∀ i : nat, (i ≤ 500)%nat →
     b !! i = Some (1e-4 + (0.02 - 1e-4) * INR i / INR 500))
  ∧ (∀ (i j : nat) (x y : R), (i < j)%nat →
       b !! i = Some x → b !! j = Some y → x < y)
  ∧ b !! 0%nat = Some 1e-4
  ∧ b !! 500%nat = Some 0.02.
Proof.
  split; [lia|]. split; [lra|].
  apply (C7_beta_schedule_linear 1e-4 0.02 500); [lia|lra].
Defined.

Lemma alpha_schedule_positive beta1 beta2 timesteps :
  beta1 <= beta2 → beta2 < 1 →
  Forall (λ x, 0 < x) (alpha_schedule (beta_schedule beta1 beta2 timesteps)).
Proof.
  intros Hle Hlt. unfold alpha_schedule.
  apply Forall_fmap, Forall_lookup. intros i x Hx. simpl.
  apply (beta_schedule_bounds _ _ _ _ _ Hle) in Hx. lra.
Qed.

Lemma alpha_schedule_head beta1 beta2 timesteps :
  alpha_schedule (beta_schedule beta1 beta2 timesteps) !! 0%nat
  = Some (1 - beta1).
Proof.
  erewrite alpha_schedule_lookup; [|apply beta_schedule_lookup; lia].
  f_equal. simpl. unfold Rdiv. lra.
Qed.

Lemma cumprod_head (a : list R) x :
  a !! 0%nat = Some x → cumprod a !! 0%nat = Some x.
Proof.
  destruct a as [|y a]; [done|]. intros [= ->]. unfold cumprod. simpl.
  f_equal. lra.
Qed.

Lemma tables_differ (beta1 beta2 : R) (timesteps : nat) :
  beta1 ≠ 0 →
  ab_t_code (alpha_schedule (beta_schedule beta1 beta2 timesteps))
  ≠ Some (ab_t_alternative (alpha_schedule (beta_schedule beta1 beta2 timesteps))).
Proof.
  intros Hb Heq.
  pose proof (alpha_schedule_head beta1 beta2 timesteps) as Hhead.
  apply cumprod_head in Hhead.
  unfold ab_t_code in Heq.
  destruct (set0_Some 1 (exp <$> cumsum
              (ln <$> alpha_schedule (beta_schedule beta1 beta2 timesteps))))
    as (ab & Hab & H0 & _).
  { intros Hnil. apply (f_equal length) in Hnil.
    rewrite length_fmap in Hnil. unfold cumsum in Hnil.
    rewrite length_scan, length_fmap in Hnil. unfold alpha_schedule in Hnil.
    rewrite length_fmap, length_beta_schedule in Hnil. done. }
  rewrite Hab in Heq. apply (inj Some) in Heq. rewrite Heq in H0.
  unfold ab_t_alternative in H0. rewrite Hhead in H0.
  apply (inj Some) in H0. lra.
Qed.

(** C9, as stated, fails: with the defaults of
    [compute_noise_schedule_and_distribution] (which satisfy
    [0 < beta1 <= beta2 < 1]) the overridden table and [cumprod(a_t)] are
    different arrays; they differ at index 0. *)
Lemma C9_tables_differ_at_index_0 :
  (0 < 1e-4 ∧ 1e-4 <= 2e-2 ∧ 2e-2 < 1) ∧
  ab_t_code (alpha_schedule (beta_schedule 1e-4 2e-2 1000))
  ≠ Some (ab_t_alternative (alpha_schedule (beta_schedule 1e-4 2e-2 1000))).
Proof.
  split; [lra|]. apply tables_differ. lra.
Qed.

(** C9, amended: for [0 < beta1 <= beta2 < 1] the table
    [exp(cumsum(log(a_t)))] with index 0 overridden to 1 agrees with
    [cumprod(a_t)] at every index from 1 on (and has the same length); at
    index 0 the first holds 1 and the second holds [a_t[0] = 1 - beta1]. *)
Theorem C9_cumulative_alpha_agree_from_1 (beta1 beta2 : R) (timesteps : nat) :
  0 < beta1 → beta1 <= beta2 → beta2 < 1 →
  let a := alpha_schedule (beta_schedule beta1 beta2 timesteps) in
  ∃ ab, ab_t_code a = Some ab
    ∧ length ab = length (ab_t_alternative a)
    ∧ (∀ i : nat, (1 ≤ i)%nat → ab !! i = ab_t_alternative a !! i)
    ∧ ab !! 0%nat = Some 1
    ∧ ab_t_alternative a !! 0%nat = Some (1 - beta1).
Proof.
  intros H0 Hle Hlt a. unfold ab_t_code, ab_t_alternative.
  rewrite cumsum_ln_cumprod by (by apply alpha_schedule_positive).
  destruct (set0_Some 1 (cumprod a)) as (ab & Hab & Hhd & Hlen & Htl).
  { intros Hnil. apply (f_equal length) in Hnil. subst a.
    unfold cumprod, alpha_schedule in Hnil.
    rewrite length_scan, length_fmap, length_beta_schedule in Hnil. done. }
  exists ab. repeat split; try done.
  apply cumprod_head, alpha_schedule_head.
Qed.

(** The default arguments of [compute_noise_schedule_and_distribution]
    satisfy the hypotheses of the amended C9. *)
Lemma C9_agree_from_1_default_arguments :
  (0 < 1e-4 ∧ 1e-4 <= 2e-2 ∧ 2e-2 < 1) ∧
  let a := alpha_schedule (beta_schedule 1e-4 2e-2 1000) in
  ∃ ab, ab_t_code a = Some ab
    ∧ length ab = length (ab_t_alternative a)
    ∧ (∀ i : nat, (1 ≤ i)%nat → ab !! i = ab_t_alternative a !! i)
    ∧ ab !! 0%nat = Some 1
    ∧ ab_t_alternative a !! 0%nat = Some (1 - 1e-4).
Proof.
  split; [lra|].
  apply (C9_cumulative_alpha_agree_from_1 1e-4 2e-2 1000); lra.
Defined.

End Schedule.

(** ** The notebook cells that bind the schedule names *)

Module NotebookFacts.
Import Tensor TensorFacts DDPM DDPMFacts.

Lemma length_alpha_schedule b : length (alpha_schedule b) = length b.
Proof. unfold alpha_schedule. by rewrite length_fmap. Qed.

Lemma construct_schedule_Some beta1 beta2 timesteps :
  ∃ ab,
    construct_schedule beta1 beta2 timesteps
    = Some (beta_schedule beta1 beta2 timesteps,
            alpha_schedule (beta_schedule beta1 beta2 timesteps), ab)
    ∧ length ab = S timesteps.
Proof.
  unfold construct_schedule, ab_t_code.
  destruct (set0_Some 1 (exp <$> cumsum
              (ln <$> alpha_schedule (beta_schedule beta1 beta2 timesteps))))
    as (ab & -> & _ & Hlen & _).
  { intros Hnil. apply (f_equal length) in Hnil. unfold cumsum in Hnil.
    rewrite length_fmap, length_scan, length_fmap, length_alpha_schedule,
      length_beta_schedule in Hnil. done. }
  exists ab. split; [done|].
  rewrite Hlen. unfold cumsum.
  by rewrite length_fmap, length_scan, length_fmap, length_alpha_schedule,
    length_beta_schedule.
Qed.

#[local] Opaque beta_schedule alpha_schedule.

Lemma initialization_Some :
  ∃ ab,
    initialization
    = Some (Globals 500 1e-4 0.02 16 (beta_schedule 1e-4 0.02 500)
              (alpha_schedule (beta_schedule 1e-4 0.02 500)) ab)
    ∧ length ab = 501%nat.
Proof.
  destruct (construct_schedule_Some 1e-4 0.02 500) as (ab & Hc & Hlen).
  exists ab. split; [|done].
  unfold initialization, cell_hyperparameters. cbn [mbind option_bind].
  unfold cell_construct_schedule. cbn [beta1 beta2 timesteps height].
  rewrite Hc. done.
Qed.

Lemma cell_noise_schedule_analysis_Some (g : globals) :
  ∃ ab,
    cell_noise_schedule_analysis g
    = Some (Globals (timesteps g) (beta1 g) (beta2 g) (height g)
              (beta_schedule 1e-4 2e-2 1000)
              (alpha_schedule (beta_schedule 1e-4 2e-2 1000)) ab)
    ∧ construct_schedule 1e-4 2e-2 1000
      = Some (beta_schedule 1e-4 2e-2 1000,
              alpha_schedule (beta_schedule 1e-4 2e-2 1000), ab)
    ∧ length ab = 1001%nat.
Proof.
  destruct (construct_schedule_Some 1e-4 2e-2 1000) as (ab & Hc & Hlen).
  exists ab. split; [|done].
  unfold cell_noise_schedule_analysis, compute_noise_schedule_and_distribution.
  rewrite Hc. done.
Qed.

Lemma cell_noise_prediction_theory_Some (g : globals) :
  ∃ ab,
    cell_noise_prediction_theory g
    = Some (Globals (timesteps g) (beta1 g) (beta2 g) (height g)
              (b_t g) (a_t g) ab)
    ∧ length ab = 1001%nat.
Proof.
  destruct (construct_schedule_Some 1e-4 2e-2 1000) as (ab & Hc & Hlen).
  exists ab. split; [|done].
  unfold cell_noise_prediction_theory, analyze_noise_prediction_theory.
  rewrite Hc. cbn [mbind option_bind].
  destruct (gather_in_range ab [1; 50; 100; 250; 500; 750; 999]%nat) as [x ->].
  { rewrite Hlen. repeat constructor; lia. }
  done.
Qed.

Lemma different_lengths (l1 l2 : list R) :
  length l1 ≠ length l2 → l1 ≠ l2.
Proof. intros Hl ->. done. Qed.

(** C5 fails on the notebook: running the notebook's cells in
    order, the initialization binds the schedule for [timesteps = 500]
    (501 entries per array), and the analysis cells that follow rebind
    [b_t], [a_t] and [ab_t] to the schedule of
    [compute_noise_schedule_and_distribution()]'s default
    [timesteps = 1000] (1001 entries), while [timesteps] stays 500; the
    three arrays no longer equal the values computed at initialization, and
    [b_t[500]] is no longer [beta2]. *)
Theorem C5_analysis_cells_rebind_schedule :
  ∃ g0 g1,
    initialization = Some g0
    ∧ run_cells analysis_cells g0 = Some g1
    ∧ timesteps g0 = 500%nat ∧ timesteps g1 = 500%nat
    ∧ length (b_t g0) = 501%nat ∧ length (b_t g1) = 1001%nat
    ∧ b_t g1 ≠ b_t g0 ∧ a_t g1 ≠ a_t g0 ∧ ab_t g1 ≠ ab_t g0
    ∧ b_t g0 !! 500%nat = Some 0.02
    ∧ b_t g1 !! 500%nat = Some 0.01005.
Proof.
  destruct initialization_Some as (ab0 & Hinit & Hlen0).
  eexists. 
  destruct (cell_noise_schedule_analysis_Some
              (Globals 500 1e-4 0.02 16 (beta_schedule 1e-4 0.02 500)
                 (alpha_schedule (beta_schedule 1e-4 0.02 500)) ab0))
    as (ab1 & Hc1 & _ & Hlen1).
  cbn [timesteps beta1 beta2 height] in Hc1.
  destruct (cell_noise_prediction_theory_Some
              (Globals 500 1e-4 0.02 16 (beta_schedule 1e-4 2e-2 1000)
                 (alpha_schedule (beta_schedule 1e-4 2e-2 1000)) ab1))
    as (ab2 & Hc2 & Hlen2).
  cbn [timesteps beta1 beta2 height b_t a_t] in Hc2.
  eexists. split; [exact Hinit|]. split.
  { unfold run_cells, analysis_cells. cbn [foldl mbind option_bind].
    rewrite Hc1. unfold cell_analyze_xt_distribution. exact Hc2. }
  cbn [timesteps b_t a_t ab_t].
  pose proof different_lengths as Hne.
  split; [done|]. split; [done|].
  split; [apply length_beta_schedule|]. split; [apply length_beta_schedule|].
  split; [apply Hne; rewrite !length_beta_schedule; lia|].
  split.
  { apply Hne. rewrite !length_alpha_schedule, !length_beta_schedule. lia. }
  split; [apply Hne; lia|].
  split.
  - rewrite beta_schedule_lookup by lia. f_equal.
    rewrite INR_IZR_INZ. change (Z.of_nat 500) with 500%Z. lra.
  - rewrite beta_schedule_lookup by lia. f_equal.
    rewrite !INR_IZR_INZ.
    change (Z.of_nat 500) with 500%Z. change (Z.of_nat 1000) with 1000%Z. lra.
Qed.

End NotebookFacts.

(** ** Perturbation and the reverse sampler *)

Module DiffusionFacts.
Import Tensor TensorFacts DDPM DDPMFacts.

Lemma gather_fmap (f : R → R) (tbl : list R) (t : list nat) :
  gather (f <$> tbl) t = (λ c : list R, f <$> c) <$> gather tbl t.
Proof.
  unfold gather. induction t as [|i t IH]; [done|].
  cbn [mapM]. rewrite list_lookup_fmap, IH.
  destruct (tbl !! i); [|done]. cbn.
  by destruct (mapM (λ i, tbl !! i) t).
Qed.

Lemma gather_lookup (tbl : list R) (t : list nat) (c : list R) :
  gather tbl t = Some c →
  length c = length t
  ∧ ∀ (k ti : nat), t !! k = Some ti → c !! k = tbl !! ti.
Proof.
  unfold gather. intros Hc. apply mapM_Some in Hc. split.
  - symmetry. by eapply Forall2_length.
  - intros k ti Hk.
    destruct (Forall2_lookup_l _ _ _ _ _ Hc Hk) as (y & -> & Hy). done.
Qed.

Lemma scale_rows_Some (c : list R) (x : list (list R)) :
  length c = length x →
  scale_rows c x = Some (zip_with (λ ci row, Rmult ci <$> row) c x).
Proof. intros Hlen. unfold scale_rows. by rewrite decide_True. Qed.

Lemma add_rows_Some (x y : list (list R)) :
  Forall2 (λ p q, length p = length q) x y →
  add_rows x y = Some (zip_with (zip_with Rplus) x y).
Proof.
  intros Hxy. unfold add_rows.
  rewrite decide_True by (by eapply Forall2_length).
  induction Hxy as [|p q x y Hpq _ IH]; [done|].
  cbn [zip zip_with mapM]. cbn [fst snd].
  rewrite zip2_Some, IH by done. done.
Qed.

(** C2: [perturb_input(x, t, noise)] mixes each image with its noise,
    weighted by the square roots of the cumulative alpha at the image's
    timestep and of one minus it.  For a batch [x], one in-range schedule
    index per image in [t], and [noise] shaped like [x], the call returns a
    batch whose [k]-th image is, entry by entry,
    [sqrt(ab_t[t_k]) * x_k + sqrt(1 - ab_t[t_k]) * noise_k]. *)
Theorem C2_perturb_input_formula (g : globals) (x noise : list (list R))
    (t : list nat) :
  length t = length x →
  Forall2 (λ xk nk, length xk = length nk) x noise →
  Forall (λ ti, (ti < length (ab_t g))%nat) t →
  ∃ out,
    perturb_input g x t noise = Some out
    ∧ length out = length x
    ∧ ∀ (k ti : nat) (xk nk : list R),
        t !! k = Some ti → x !! k = Some xk → noise !! k = Some nk →
        ∃ ab, ab_t g !! ti = Some ab
          ∧ out !! k
            = Some (zip_with (λ xi ni, sqrt ab * xi + sqrt (1 - ab) * ni) xk nk).
Proof.
  intros Ht Hshape Hrange.
  pose proof (Forall2_length _ _ _ Hshape) as Hlen.
  destruct (gather_in_range _ _ Hrange) as [c Hc].
  destruct (gather_lookup _ _ _ Hc) as [Hclen Hck].
  unfold perturb_input. rewrite gather_fmap, Hc. cbn [fmap option_fmap option_map mbind option_bind].
  assert (Hl1 : length (sqrt <$> c) = length x) by (rewrite length_fmap; congruence).
  assert (Hl2 : length (sqrt <$> ((λ a : R, 1 - a) <$> c)) = length noise)
    by (rewrite !length_fmap; congruence).
  rewrite (scale_rows_Some _ _ Hl1). cbn [mbind option_bind].
  rewrite (scale_rows_Some _ _ Hl2). cbn [mbind option_bind].
  rewrite add_rows_Some.
  2:{ apply Forall2_same_length_lookup. split.
      - rewrite !length_zip_with, !length_fmap. lia.
      - intros k p q Hp Hq.
        apply lookup_zip_with_Some in Hp as (a & xk & -> & _ & Hxk).
        apply lookup_zip_with_Some in Hq as (b & nk & -> & _ & Hnk).
        rewrite !length_fmap.
        exact (Forall2_lookup_lr _ _ _ _ _ _ Hshape Hxk Hnk). }
  eexists. split; [done|]. split.
  { rewrite !length_zip_with, !length_fmap. lia. }
  intros k ti xk nk Hk Hxk Hnk.
  assert (Hti : (ti < length (ab_t g))%nat).
  { by eapply Forall_lookup_1 in Hrange. }
  destruct (lookup_lt_is_Some_2 _ _ Hti) as [ab Hab].
  exists ab. split; [done|].
  pose proof (Hck _ _ Hk) as Hcab. rewrite Hab in Hcab.
  rewrite !lookup_zip_with, !list_lookup_fmap, Hcab, Hxk, Hnk. cbn.
  f_equal. rewrite zip_with_fmap_l, zip_with_fmap_r. done.
Qed.


(** C2 on a batch of one two-entry image at timestep 1. *)
Lemma C2_perturb_input_example :
  let g := Globals 1 0 0.75 1 [0; 0.75] [1; 0.25] [1; 0.25] in
  length [1%nat] = length [[1; 2]]
  ∧ Forall2 (λ xk nk : list R, length xk = length nk) [[1; 2]] [[0; 1]]
  ∧ Forall (λ ti, (ti < length (ab_t g))%nat) [1%nat]
  ∧ ∃ out,
      perturb_input g [[1; 2]] [1%nat] [[0; 1]] = Some out
      ∧ length out = length [[1; 2]]
      ∧ ∀ (k ti : nat) (xk nk : list R),
          [1%nat] !! k = Some ti → [[1; 2]] !! k = Some xk →
          [[0; 1]] !! k = Some nk →
          ∃ ab, ab_t g !! ti = Some ab
            ∧ out !! k
              = Some (zip_with (λ xi ni, sqrt ab * xi + sqrt (1 - ab) * ni)
                        xk nk).
Proof.
  intros g.
  assert (H1 : length [1%nat] = length [[1; 2]]) by reflexivity.
  assert (H2 : Forall2 (λ xk nk : list R, length xk = length nk)
                 [[1; 2]] [[0; 1]]) by (repeat constructor).
  assert (H3 : Forall (λ ti, (ti < length (ab_t g))%nat) [1%nat])
    by (repeat constructor).
  split; [exact H1|]. split; [exact H2|]. split; [exact H3|].
  exact (C2_perturb_input_formula g [[1; 2]] [[0; 1]] [1%nat] H1 H2 H3).
Defined.

(** *** The reverse step *)

Lemma reverse_step_all_zip (a ab b : R) (x eps z : list R) :
  zip_with Rplus
    ((λ d, d / sqrt a) <$> zip_with Rminus x
       ((λ e, e * ((1 - a) / sqrt (1 - ab))) <$> eps))
    ((λ zi, sqrt b * zi) <$> z)
  = reverse_step_all a ab b x eps z.
Proof.
  unfold reverse_step_all, reverse_step. revert eps z.
  induction x as [|xi x IH]; intros [|e eps] [|zi z]; simpl; try done.
  by rewrite IH.
Qed.

Lemma reverse_step_all_scalar (a ab b c : R) (x eps : list R) :
  length eps = length x →
  (λ m, m + sqrt b * c)
    <$> ((λ d, d / sqrt a) <$> zip_with Rminus x
           ((λ e, e * ((1 - a) / sqrt (1 - ab))) <$> eps))
  = reverse_step_all a ab b x eps ((λ _, c) <$> x).
Proof.
  unfold reverse_step_all, reverse_step. revert eps.
  induction x as [|xi x IH]; intros [|e eps] Hlen; simpl in *; try done.
  rewrite IH by lia. done.
Qed.

Section ReverseStep.

Variable gauss : nat → nat → list R.
Variable nn_model : list R → R → list R.
Variable g : globals.

Hypothesis gauss_shape : ∀ k n, length (gauss k n) = n.
Hypothesis nn_model_shape : ∀ x t, length (nn_model x t) = length x.

Lemma denoise_add_noise_tensor (x eps z : list R) (t : nat) (a ab b : R) (k : nat) :
  a_t g !! t = Some a → ab_t g !! t = Some ab → b_t g !! t = Some b →
  length eps = length x → length z = length x →
  denoise_add_noise gauss g x t eps (Some (ZTensor z)) k
  = Some (reverse_step_all a ab b x eps z, k).
Proof.
  intros Ha Hab Hb Heps Hz.
  unfold denoise_add_noise, mbind, sampler_bind, mret, sampler_ret, lift.
  rewrite list_lookup_fmap, Hb, Ha, Hab. cbn [fmap option_fmap option_map].
  rewrite zip2_Some by (rewrite length_fmap; lia).
  rewrite zip2_Some
    by (rewrite !length_fmap, length_zip_with, length_fmap; lia).
  by rewrite reverse_step_all_zip.
Qed.

Lemma denoise_add_noise_scalar (x eps : list R) (c : R) (t : nat) (a ab b : R) (k : nat) :
  a_t g !! t = Some a → ab_t g !! t = Some ab → b_t g !! t = Some b →
  length eps = length x →
  denoise_add_noise gauss g x t eps (Some (ZScalar c)) k
  = Some (reverse_step_all a ab b x eps ((λ _, c) <$> x), k).
Proof.
  intros Ha Hab Hb Heps.
  unfold denoise_add_noise, mbind, sampler_bind, mret, sampler_ret, lift.
  rewrite list_lookup_fmap, Hb, Ha, Hab. cbn [fmap option_fmap option_map].
  rewrite zip2_Some by (rewrite length_fmap; lia).
  by rewrite reverse_step_all_scalar.
Qed.

Lemma ddpm_step_noisy (save_rate i : nat) (samples : list R)
    (intermediate : list (list R)) (k : nat) (a ab b : R) :
  (1 < i)%nat → (0 < save_rate)%nat →
  a_t g !! i = Some a → ab_t g !! i = Some ab → b_t g !! i = Some b →
  let new := reverse_step_all a ab b samples
               (nn_model samples (INR i / INR (timesteps g)))
               (gauss k (length samples)) in
  ddpm_step gauss nn_model g save_rate i (samples, intermediate) k
  = Some ((new,
           if bool_decide (i mod save_rate = 0)%nat
              || bool_decide (i = timesteps g) || bool_decide (i < 8)%nat
           then intermediate ++ [new] else intermediate), S k).
Proof.
  intros Hi Hsr Ha Hab Hb new.
  unfold ddpm_step. rewrite decide_True by done.
  unfold mbind at 1 2. unfold sampler_bind at 1 2. unfold randn_like, randn.
  unfold mret at 1. unfold sampler_ret at 1.
  unfold mbind at 1. unfold sampler_bind at 1.
  erewrite denoise_add_noise_tensor; [|done..|by rewrite gauss_shape].
  destruct save_rate as [|sr]; [lia|]. done.
Qed.

Lemma ddpm_step_last (save_rate : nat) (samples : list R)
    (intermediate : list (list R)) (k : nat) (a ab b : R) :
  (0 < save_rate)%nat →
  a_t g !! 1%nat = Some a → ab_t g !! 1%nat = Some ab →
  b_t g !! 1%nat = Some b →
  let new := reverse_step_all a ab b samples
               (nn_model samples (INR 1 / INR (timesteps g)))
               ((λ _, 0) <$> samples) in
  ddpm_step gauss nn_model g save_rate 1 (samples, intermediate) k
  = Some ((new,
           if bool_decide (1 mod save_rate = 0)%nat
              || bool_decide (1%nat = timesteps g) || bool_decide (1 < 8)%nat
           then intermediate ++ [new] else intermediate), k).
Proof.
  intros Hsr Ha Hab Hb new.
  unfold ddpm_step. rewrite decide_False by lia.
  unfold mbind at 1. unfold sampler_bind at 1.
  unfold mret at 1. unfold sampler_ret at 1.
  unfold mbind at 1. unfold sampler_bind at 1.
  erewrite denoise_add_noise_scalar; [|done..].
  destruct save_rate as [|sr]; [lia|]. done.
Qed.

(** C3, amended: at every reverse step [i >= 1] the loop body of
    [sample_ddpm] subtracts the predicted noise scaled by
    [(1 - a_t[i]) / sqrt(1 - ab_t[i])] and divides by [sqrt(a_t[i])]; at
    every step [i > 1] it adds [sqrt(b_t[i]) * z] for a fresh draw [z] of
    the generator, and at the last step [i = 1] it takes no draw and adds
    no noise ([z = 0]).  The loop at [i] performs exactly this step and
    continues at [i - 1]. *)
Theorem C3_reverse_step_noise_except_last (save_rate i : nat)
    (samples : list R) (intermediate : list (list R)) (k : nat) (a ab b : R) :
  (1 ≤ i)%nat → (0 < save_rate)%nat →
  a_t g !! i = Some a → ab_t g !! i = Some ab → b_t g !! i = Some b →
  let eps := nn_model samples (INR i / INR (timesteps g)) in
  let z := if decide (1 < i)%nat then gauss k (length samples)
           else (λ _, 0) <$> samples in
  let k' := if decide (1 < i)%nat then S k else k in
  let new := reverse_step_all a ab b samples eps z in
  let intermediate' :=
    if bool_decide (i mod save_rate = 0)%nat
       || bool_decide (i = timesteps g) || bool_decide (i < 8)%nat
    then intermediate ++ [new] else intermediate in
  ddpm_step gauss nn_model g save_rate i (samples, intermediate) k
  = Some ((new, intermediate'), k')
  ∧ ddpm_loop gauss nn_model g save_rate i (samples, intermediate) k
    = ddpm_loop gauss nn_model g save_rate (i - 1) (new, intermediate') k'.
Proof.
  intros Hi Hsr Ha Hab Hb eps z k' new intermediate'.
  assert (Hstep : ddpm_step gauss nn_model g save_rate i
                    (samples, intermediate) k
                  = Some ((new, intermediate'), k')).
  { subst eps z k' new intermediate'.
    destruct (decide (1 < i)%nat) as [Hlt|Hnlt].
    - by apply ddpm_step_noisy.
    - assert (i = 1%nat) as -> by lia. by apply ddpm_step_last. }
  split; [exact Hstep|].
  destruct i as [|i']; [lia|].
  replace (S i' - 1)%nat with i' by lia.
  cbn [ddpm_loop]. unfold mbind at 1. unfold sampler_bind at 1.
  by rewrite Hstep.
Qed.

Lemma length_reverse_step_all (a ab b : R) (x eps z : list R) :
  length eps = length x → length z = length x →
  length (reverse_step_all a ab b x eps z) = length x.
Proof.
  intros He Hz. unfold reverse_step_all.
  rewrite length_zip_with, length_zip. lia.
Qed.

(** The loop runs to completion whenever the schedule arrays cover its
    indices; from index [i] it takes [i - 1] draws. *)
Lemma ddpm_loop_returns (save_rate : nat) :
  (0 < save_rate)%nat →
  ∀ (i : nat) (samples : list R) (intermediate : list (list R)) (k : nat),
    (i < length (a_t g))%nat → (i < length (ab_t g))%nat →
    (i < length (b_t g))%nat →
    ∃ samples' intermediate',
      ddpm_loop gauss nn_model g save_rate i (samples, intermediate) k
      = Some ((samples', intermediate'), (k + (i - 1))%nat)
      ∧ length samples' = length samples
      ∧ (intermediate ≠ [] → intermediate' ≠ [])
      ∧ ((1 ≤ i)%nat → i = timesteps g → intermediate' ≠ []).
Proof.
  intros Hsr. induction i as [|i IH]; intros samples intermediate k Ha Hab Hb.
  { exists samples, intermediate. cbn [ddpm_loop].
    replace (k + (0 - 1))%nat with k by lia.
    repeat split; try done. lia. }
  destruct (lookup_lt_is_Some_2 _ _ Ha) as [a Hai].
  destruct (lookup_lt_is_Some_2 _ _ Hab) as [ab Habi].
  destruct (lookup_lt_is_Some_2 _ _ Hb) as [b Hbi].
  cbn [ddpm_loop]. unfold mbind at 1. unfold sampler_bind at 1.
  destruct (decide (1 < S i)%nat) as [Hlt|Hnlt].
  - rewrite (ddpm_step_noisy _ _ _ _ _ a ab b) by done.
    match goal with
    | |- context [ddpm_loop _ _ _ _ i (?new, ?int') ?k'] =>
        destruct (IH new int' k') as (s' & i' & Hloop & Hlen & Hne & _);
          [lia..|]
    end.
    rewrite Hloop. eexists _, _. split; [f_equal; f_equal; lia|].
    split.
    { rewrite Hlen, length_reverse_step_all; by rewrite ?gauss_shape. }
    split.
    + intros Hint. apply Hne. case_match; [|done].
      by destruct intermediate.
    + intros _ Heq. apply Hne. rewrite (bool_decide_eq_true_2 _ Heq).
      rewrite orb_true_r. cbn [orb]. by destruct intermediate.
  - assert (i = 0%nat) as -> by lia.
    rewrite (ddpm_step_last _ _ _ _ a ab b) by done.
    cbn [ddpm_loop]. unfold mret, sampler_ret.
    eexists _, _. split; [f_equal; f_equal; lia|].
    split.
    { rewrite length_reverse_step_all; by rewrite ?length_fmap. }
    split.
    + intros Hint. case_match; [|done]. by destruct intermediate.
    + intros _ _. cbn [bool_decide]. rewrite orb_true_r.
      by destruct intermediate.
Qed.

(** [sample_ddpm] returns: it takes one draw for the initial noise and one
    per step except the last, [timesteps] draws in all. *)
Lemma sample_ddpm_returns (n_sample save_rate k : nat) :
  (0 < save_rate)%nat → (0 < timesteps g)%nat →
  (timesteps g < length (a_t g))%nat → (timesteps g < length (ab_t g))%nat →
  (timesteps g < length (b_t g))%nat →
  ∃ samples intermediate,
    sample_ddpm gauss nn_model g n_sample save_rate k
    = Some ((samples, intermediate), (k + timesteps g)%nat)
    ∧ length samples = (n_sample * 3 * height g * height g)%nat
    ∧ intermediate ≠ [].
Proof.
  intros Hsr HT Ha Hab Hb. unfold sample_ddpm.
  unfold mbind at 1. unfold sampler_bind at 1. unfold randn at 1.
  unfold mbind at 1. unfold sampler_bind at 1.
  destruct (ddpm_loop_returns save_rate Hsr (timesteps g)
              (gauss k (n_sample * 3 * height g * height g)) [] (S k)
              Ha Hab Hb) as (s' & i' & -> & Hlen & _ & Hne).
  cbn [snd]. specialize (Hne HT eq_refl).
  destruct i' as [|x i']; [done|].
  unfold mret, sampler_ret. eexists _, _.
  split; [f_equal; f_equal; lia|]. split; [|done].
  by rewrite Hlen, gauss_shape.
Qed.

End ReverseStep.

(** C3, as stated, fails at the last step.  With the schedule the notebook
    initializes, a generator whose draws are all ones and a network that
    predicts zero noise, step [i = 1] on the one-entry sample [0] does not
    return the update with the drawn noise added. *)
Lemma C3_last_step_adds_no_noise :
  ∃ g, initialization = Some g
    ∧ (1 ≤ 1 ≤ timesteps g)%nat
    ∧ ¬ step_adds_fresh_noise (λ _ n, replicate n 1)
          (λ x _, (λ _, 0) <$> x) g 20 1 [0] 0.
Proof.
  destruct NotebookFacts.initialization_Some as (ab0 & Hinit & Hlen).
  eexists. split; [exact Hinit|]. cbn [timesteps]. split; [lia|].
  intros (a & ab & b & st' & k' & Ha & Hab & Hb & Hstep & Heq).
  cbn [a_t ab_t b_t timesteps] in *.
  rewrite (ddpm_step_last (λ _ n, replicate n 1) (λ x _, (λ _, 0) <$> x) _
             (λ x _, length_fmap _ x) 20 [0] [] 0%nat a ab b) in Hstep
    by (done || lia).
  apply (inj Some) in Hstep. apply (f_equal fst) in Hstep.
  cbn [fst] in Hstep. rewrite <- Hstep in Heq. cbn [fst] in Heq.
  rewrite beta_schedule_lookup in Hb by lia. apply (inj Some) in Hb.
  unfold reverse_step_all, reverse_step in Heq.
  cbn [length replicate fmap list_fmap zip zip_with fst snd] in Heq.
  apply (inj (λ x, [x])) in Heq.
  assert (Hsb : 0 < sqrt b).
  { apply sqrt_lt_R0. subst b.
    rewrite !INR_IZR_INZ. change (Z.of_nat 1) with 1%Z.
    change (Z.of_nat 500) with 500%Z. lra. }
  lra.
Qed.

(** The amended C3 at step [i = 2] of a two-step schedule: one draw is
    taken and added. *)
Lemma C3_step_example :
  let gauss : nat → nat → list R := λ _ n, replicate n 1 in
  let nn_model : list R → R → list R := λ x _, (λ _, 0) <$> x in
  let g := Globals 2 0.1 0.3 1 [0.1; 0.2; 0.3] [0.9; 0.8; 0.7] [1; 0.8; 0.56] in
  (1 ≤ 2)%nat ∧ (0 < 20)%nat
  ∧ a_t g !! 2%nat = Some 0.7 ∧ ab_t g !! 2%nat = Some 0.56
  ∧ b_t g !! 2%nat = Some 0.3
  ∧ ddpm_step gauss nn_model g 20 2 ([0], []) 0%nat
    = Some (([reverse_step 0.7 0.56 0.3 0 0 1],
             [[reverse_step 0.7 0.56 0.3 0 0 1]]), 1%nat)
  ∧ ddpm_loop gauss nn_model g 20 2 ([0], []) 0%nat
    = ddpm_loop gauss nn_model g 20 1
        ([reverse_step 0.7 0.56 0.3 0 0 1],
         [[reverse_step 0.7 0.56 0.3 0 0 1]]) 1%nat.
Proof.
  intros gauss nn_model g.
  assert (H1 : (1 ≤ 2)%nat) by lia.
  assert (H2 : (0 < 20)%nat) by lia.
  assert (Ha : a_t g !! 2%nat = Some 0.7) by reflexivity.
  assert (Hab : ab_t g !! 2%nat = Some 0.56) by reflexivity.
  assert (Hb : b_t g !! 2%nat = Some 0.3) by reflexivity.
  repeat (split; [assumption|]).
  exact (C3_reverse_step_noise_except_last gauss nn_model g
           (λ _ n, length_replicate n 1) (λ x _, length_fmap _ x)
           20 2 [0] [] 0%nat 0.7 0.56 0.3 H1 H2 Ha Hab Hb).
Defined.

End DiffusionFacts.

(** ** The Frechet distance cell *)

Module FIDFacts.
Import FID.

(** C6 fails on the notebook: the notebook's
    [frechet_distance] is the unfilled placeholder and returns [None] for
    every pair of identical distributions, never the number 0; the unit
    test's assertion on identical distributions does not hold of it. *)
Theorem C6_frechet_distance_is_placeholder :
  (∀ (mu : list R) (sigma : list (list R)),
     frechet_distance mu mu sigma sigma = None)
  ∧ frechet_distance mean1 mean1 covariance1 covariance1 ≠ Some 0
  ∧ ¬ unit_test_identical.
Proof.
  split; [done|]. split; [done|].
  intros (d & Hd & _). discriminate Hd.
Qed.

End FIDFacts.

(** ** Loading a checkpoint that is not there *)

Module CheckpointFacts.
Import Checkpoint.

Lemma view_epoch_0_path :
  save_dir +:+ "/model_" +:+ "0" +:+ ".pth" = "./weights//model_0.pth".
Proof. reflexivity. Qed.

Lemma torch_load_missing (path : string) (w : world) :
  files w !! path = None →
  torch_load path w = (inl (FileNotFoundError path), w).
Proof. intros Hmiss. unfold torch_load. by rewrite Hmiss. Qed.

Lemma torch_load_present (path : string) (w : world) (o : pyobj) :
  files w !! path = Some o → torch_load path w = (inr o, w).
Proof. intros Hfile. unfold torch_load. by rewrite Hfile. Qed.

(** When the offered state dict has the module's names and shapes, every
    parameter is overwritten. *)
Lemma copy_matching_all (sd old : state_dict) :
  tshape <$> sd = tshape <$> old → copy_matching sd old = sd.
Proof.
  intros Hshape. apply map_eq. intros k.
  unfold copy_matching. rewrite map_lookup_imap.
  apply (f_equal (.!! k)) in Hshape. rewrite !lookup_fmap in Hshape.
  destruct (old !! k) as [p|], (sd !! k) as [t|];
    cbn in Hshape |- *; try done.
  apply (inj Some) in Hshape. by rewrite decide_True.
Qed.

Lemma load_state_dict_module (name : string) (sd : state_dict) (w : world)
    (m : module) :
  objects w !! name = Some (ObjModule m) →
  tshape <$> sd = tshape <$> params m →
  load_state_dict name (SavedModule sd) w
  = (inr (), World (files w)
                   (<[name := ObjModule (Module_ sd (training m))]> (objects w))
                   (stdout w)).
Proof.
  intros Hm Hshape. unfold load_state_dict.
  by rewrite Hm, decide_True, copy_matching_all.
Qed.

(** With the file in place and matching names and shapes the same cell
    does replace the parameters, switches to eval mode and prints. *)
Lemma cell_view_epoch_loads (epoch : string) (w : world) (sd : state_dict)
    (m : module) :
  files w !! (save_dir +:+ "/model_" +:+ epoch +:+ ".pth")
  = Some (ObjStateDict sd) →
  objects w !! "nn_model" = Some (ObjModule m) →
  tshape <$> sd = tshape <$> params m →
  cell_view_epoch epoch w
  = (inr (),
     World (files w)
           (<["nn_model" := ObjModule (Module_ sd false)]>
              (<["nn_model" := ObjModule (Module_ sd (training m))]>
                 (objects w)))
           (stdout w ++ ["Loaded in Model"])).
Proof.
  intros Hfile Hobj Hshape. unfold cell_view_epoch.
  unfold mbind at 1. unfold cell_bind at 1.
  rewrite (torch_load_present _ _ _ Hfile).
  unfold mbind at 1. unfold cell_bind at 1. cbn [as_state_dict].
  unfold mret at 1. unfold cell_ret at 1.
  unfold mbind at 1. unfold cell_bind at 1.
  rewrite (load_state_dict_module _ _ _ _ Hobj Hshape).
  unfold mbind at 1. unfold cell_bind at 1.
  unfold eval. cbn [objects files stdout].
  rewrite lookup_insert_eq. cbn [params]. done.
Qed.

(** C8: when the checkpoint file named in a weights-loading cell does not
    exist, the cell ends in [FileNotFoundError] for that path -- nothing in
    the cell catches it -- and the world is as before: every object's
    parameters are unchanged, the model has not been switched to eval mode
    and nothing has been printed.  Both loading cells behave so: the
    "View Epoch" cells of the diffusion notebook and the pretrained branch
    of the Pix2Pix notebook. *)
Theorem C8_missing_checkpoint_raises (w : world) (epoch : string) :
  (files w !! (save_dir +:+ "/model_" +:+ epoch +:+ ".pth") = None →
   cell_view_epoch epoch w
   = (inl (FileNotFoundError (save_dir +:+ "/model_" +:+ epoch +:+ ".pth")), w))
  ∧ (files w !! "pix2pix_15000.pth" = None →
     cell_load_pretrained w
     = (inl (FileNotFoundError "pix2pix_15000.pth"), w)).
Proof.
  split; intros Hmiss.
  - unfold cell_view_epoch. unfold mbind at 1. unfold cell_bind at 1.
    by rewrite (torch_load_missing _ _ Hmiss).
  - unfold cell_load_pretrained. unfold mbind at 1. unfold cell_bind at 1.
    by rewrite (torch_load_missing _ _ Hmiss).
Qed.

(** The notebook's own run: no weights directory, and the cell for epoch 0
    ends in the error its recorded output shows. *)
Lemma C8_no_checkpoints_on_disk :
  let w := World ∅ {["nn_model" :=
                       ObjModule (Module_ {["w" := Tensor_ [2%nat] [1; 2]]} true)]}
                 [] in
  files w !! (save_dir +:+ "/model_" +:+ "0" +:+ ".pth") = None
  ∧ files w !! "pix2pix_15000.pth" = None
  ∧ cell_view_epoch "0" w
    = (inl (FileNotFoundError "./weights//model_0.pth"), w)
  ∧ cell_load_pretrained w
    = (inl (FileNotFoundError "pix2pix_15000.pth"), w).
Proof.
  intros w.
  assert (H1 : files w !! (save_dir +:+ "/model_" +:+ "0" +:+ ".pth") = None)
    by reflexivity.
  assert (H2 : files w !! "pix2pix_15000.pth" = None) by reflexivity.
  split; [exact H1|]. split; [exact H2|].
  split.
  - exact (proj1 (C8_missing_checkpoint_raises w "0") H1).
  - exact (proj2 (C8_missing_checkpoint_raises w "0") H2).
Defined.

End CheckpointFacts.

(** ** Volume rendering *)

Module NeRFFacts.
Import Tensor TensorFacts NeRF.

(** *** Shapes *)

Lemma length_chunks {A} (n k : nat) (l : list A) : length (chunks n k l) = n.
Proof. unfold chunks. by rewrite length_fmap, length_seq. Qed.

Lemma chunks_lookup {A} (n k : nat) (l : list A) (i : nat) (c : list A) :
  (n * k ≤ length l)%nat → chunks n k l !! i = Some c → length c = k.
Proof.
  intros Hlen Hc. unfold chunks in Hc.
  rewrite list_lookup_fmap in Hc.
  destruct (seq 0 n !! i) as [j|] eqn:Hj; [|done].
  apply lookup_seq in Hj as [-> Hi]. cbn in Hc. injection Hc as <-.
  rewrite length_take, length_drop. nia.
Qed.

Lemma reshape_radiance_shape (n_rays N_samples : nat) (rows : list (list R))
    (rf : list (list (list R))) :
  reshape_radiance n_rays N_samples rows = Some rf →
  length rf = n_rays
  ∧ ∀ (r : nat) (rf_r : list (list R)), rf !! r = Some rf_r →
      length rf_r = N_samples
      ∧ ∀ (i : nat) (row : list R), rf_r !! i = Some row → length row = 4%nat.
Proof.
  unfold reshape_radiance. case_decide as Hlen; [|done]. intros [= <-].
  split; [by rewrite length_fmap, length_chunks|].
  intros r rf_r Hr. rewrite list_lookup_fmap in Hr.
  destruct (chunks n_rays (N_samples * 4) (concat rows) !! r) as [c|] eqn:Hc;
    [|done].
  cbn in Hr. injection Hr as <-.
  apply chunks_lookup in Hc; [|lia].
  split; [apply length_chunks|].
  intros i row Hrow. eapply chunks_lookup; [|exact Hrow]. lia.
Qed.

Lemma sample_z_vals_shape (n_rays : nat) (near far : R) (N_samples : nat)
    (rand : bool) (u z_vals : list (list R)) :
  sample_z_vals n_rays near far N_samples rand u = Some z_vals →
  length z_vals = n_rays
  ∧ ∀ (r : nat) (z : list R), z_vals !! r = Some z → length z = N_samples.
Proof.
  unfold sample_z_vals. destruct rand.
  - case_decide as Hu; [|done]. intros Hm. apply mapM_Some in Hm. split.
    + apply Forall2_length in Hm. lia.
    + intros r z Hz.
      destruct (Forall2_lookup_r _ _ _ _ _ Hm Hz) as (u_r & _ & Hzr).
      apply zip2_Some_inv in Hzr as [Hl ->].
      rewrite length_zip_with, length_linspace in *. lia.
  - intros [= <-]. split; [by rewrite length_replicate|].
    intros r z [-> _]%lookup_replicate. apply length_linspace.
Qed.

(** *** The weights along one ray *)

Lemma scan_transmittance (al : nat → R) (l : list R) (n i : nat) :
  (∀ (j : nat) (a : R), l !! j = Some a → a = al (n + j)%nat) →
  (i < length l)%nat →
  scan Rmult (transmittance al n) ((λ a, 1 - a + 1e-10) <$> l) !! i
  = Some (transmittance al (n + S i)).
Proof.
  revert n i. induction l as [|a l IH]; intros n i Hl Hi; [simpl in Hi; lia|].
  cbn [fmap list_fmap scan].
  assert (Ha : a = al n).
  { rewrite (Hl 0%nat a eq_refl). f_equal. lia. }
  assert (Hstep : transmittance al n * (1 - a + 1e-10)
                  = transmittance al (S n)) by (by rewrite Ha).
  rewrite Hstep. destruct i as [|i].
  - replace (n + 1)%nat with (S n) by lia. done.
  - rewrite lookup_cons. rewrite (IH (S n) i).
    + replace (S n + S i)%nat with (n + S (S i))%nat by lia. done.
    + intros j b Hj. rewrite (Hl (S j) b Hj). f_equal. lia.
    + simpl in Hi. lia.
Qed.

Lemma cumprod_transmittance (al : nat → R) (l : list R) (i : nat) :
  (∀ (j : nat) (a : R), l !! j = Some a → a = al j) →
  (i < length l)%nat →
  cumprod ((λ a, 1 - a + 1e-10) <$> l) !! i = Some (transmittance al (S i)).
Proof.
  intros Hl Hi. exact (scan_transmittance al l 0 i Hl Hi).
Qed.

Lemma set0_roll1 (l : list R) :
  (1 ≤ length l)%nat →
  set0 1 (roll1 l) = Some (1 :: take (length l - 1) l).
Proof.
  intros Hlen. unfold roll1.
  destruct (drop (length l - 1) l) as [|x tl] eqn:Hd.
  { apply (f_equal length) in Hd. rewrite length_drop in Hd. simpl in Hd. lia. }
  assert (tl = []) as ->.
  { apply (f_equal length) in Hd. rewrite length_drop in Hd. simpl in Hd.
    destruct tl; [done|]. simpl in Hd. lia. }
  done.
Qed.

(** The weight the code computes for sample [i] is [alpha_i * T_i]. *)
Lemma weights_lookup (al : nat → R) (l : list R) :
  (1 ≤ length l)%nat →
  (∀ (j : nat) (a : R), l !! j = Some a → a = al j) →
  ∃ w, weights l = Some w
    ∧ length w = length l
    ∧ ∀ i : nat, (i < length l)%nat →
        w !! i = Some (al i * transmittance al i).
Proof.
  intros Hlen Hl. unfold weights.
  set (cp := cumprod ((λ a, 1 - a + 1e-10) <$> l)).
  assert (Hcp : length cp = length l).
  { unfold cp, cumprod. by rewrite length_scan, length_fmap. }
  rewrite set0_roll1 by lia. cbn [mbind option_bind].
  assert (Hw : length l = length (1 :: take (length cp - 1) cp)).
  { cbn [length]. rewrite length_take. lia. }
  rewrite zip2_Some by done.
  eexists. split; [done|]. split.
  { rewrite length_zip_with. lia. }
  intros i Hi.
  destruct (lookup_lt_is_Some_2 l i Hi) as [a Ha].
  rewrite lookup_zip_with, Ha. cbn [mbind option_bind].
  rewrite (Hl _ _ Ha).
  destruct i as [|i]; [done|].
  rewrite lookup_cons, lookup_take_lt by lia.
  unfold cp. rewrite (cumprod_transmittance al) by (done || lia). done.
Qed.

Lemma dists_lookup (z : list R) (i : nat) :
  (i < length z)%nat → dists z !! i = Some (delta z i).
Proof.
  intros Hi. unfold dists, delta.
  assert (Hzl : length (zip_with Rminus (drop 1 z) (take (length z - 1) z))
                = (length z - 1)%nat).
  { rewrite length_zip_with, length_drop, length_take. lia. }
  case_decide as Hlast.
  - rewrite lookup_app_l by lia.
    rewrite lookup_zip_with, lookup_drop, lookup_take_lt by lia.
    destruct (lookup_lt_is_Some_2 z (1 + i)) as [y Hy]; [lia|].
    destruct (lookup_lt_is_Some_2 z i) as [x Hx]; [lia|].
    rewrite Hy, Hx. cbn.
    by rewrite (nth_lookup_Some _ _ _ _ Hy), (nth_lookup_Some _ _ _ _ Hx).
  - rewrite lookup_app_r by lia. rewrite Hzl.
    replace (i - (length z - 1))%nat with 0%nat by lia.
    destruct z as [|x z]; [simpl in Hi; lia|]. done.
Qed.

Lemma length_dists (z : list R) : length (dists z) = length z.
Proof.
  unfold dists.
  rewrite length_app, length_zip_with, length_drop, length_take, length_fmap,
    length_take. lia.
Qed.

Lemma alpha_lookup (z : list R) (rf : list (list R)) :
  length rf = length z →
  ∃ al, alpha (sigma_a rf) (dists z) = Some al
    ∧ length al = length z
    ∧ ∀ (j : nat) (a : R), al !! j = Some a →
        a = alpha_at (density rf) z j.
Proof.
  intros Hlen. unfold alpha.
  rewrite zip2_Some by (unfold sigma_a; by rewrite length_fmap, length_dists).
  eexists. split; [done|]. split.
  { rewrite length_zip_with, length_dists. unfold sigma_a.
    rewrite length_fmap. lia. }
  intros j a Hj.
  apply lookup_zip_with_Some in Hj as (s & d & -> & Hs & Hd).
  assert (Hjz : (j < length z)%nat).
  { apply lookup_lt_Some in Hd. by rewrite length_dists in Hd. }
  rewrite dists_lookup in Hd by done. injection Hd as <-.
  unfold sigma_a in Hs. rewrite list_lookup_fmap in Hs.
  destruct (rf !! j) as [row|] eqn:Hrow; [|done].
  cbn in Hs. injection Hs as <-.
  unfold alpha_at, density. by rewrite (nth_lookup_Some _ _ _ _ Hrow).
Qed.

(** *** Sums *)

Lemma big_sum_ext (n : nat) (f h : nat → R) :
  (∀ i : nat, (i < n)%nat → f i = h i) → big_sum n f = big_sum n h.
Proof.
  induction n as [|n IH]; intros Hfh; [done|].
  cbn [big_sum]. rewrite IH, Hfh by (intros; try apply Hfh; lia). done.
Qed.

Lemma sum_big_sum (l : list R) (f : nat → R) :
  (∀ (i : nat) (x : R), l !! i = Some x → x = f i) →
  sum l = big_sum (length l) f.
Proof.
  induction l as [|x l IH] using rev_ind; intros Hl; [done|].
  rewrite sum_app, length_app. cbn [length].
  replace (length l + 1)%nat with (S (length l)) by lia. cbn [big_sum].
  rewrite IH.
  - rewrite <- (Hl (length l) x); [unfold sum; simpl; lra|].
    by rewrite lookup_app_r, Nat.sub_diag.
  - intros i y Hy. apply Hl. by apply lookup_app_l_Some.
Qed.

Lemma foldr_zip_plus_lookup (rows : list (list R)) (ch : nat) :
  Forall (λ row, length row = 3%nat) rows → (ch < 3)%nat →
  length (foldr (zip_with Rplus) [0; 0; 0] rows) = 3%nat
  ∧ foldr (zip_with Rplus) [0; 0; 0] rows !! ch
    = Some (sum ((λ row, nth ch row 0) <$> rows)).
Proof.
  intros Hrows Hch. induction Hrows as [|row rows Hrow _ [IHl IH]].
  - split; [done|]. by destruct ch as [|[|[|?]]]; [..|lia].
  - cbn [foldr fmap list_fmap]. split.
    { rewrite length_zip_with. lia. }
    rewrite lookup_zip_with, IH.
    destruct (lookup_lt_is_Some_2 row ch) as [v Hv]; [lia|].
    rewrite Hv. cbn. by rewrite (nth_lookup_Some _ _ _ _ Hv).
Qed.

(** *** One ray *)

Lemma volume_render_composite (z : list R) (rf : list (list R)) :
  (1 ≤ length z)%nat → length rf = length z →
  (∀ (i : nat) (row : list R), rf !! i = Some row → length row = 4%nat) →
  ∃ rgb_map depth_map acc_map,
    volume_render z rf = Some (rgb_map, depth_map, acc_map)
    ∧ length rgb_map = 3%nat
    ∧ ∀ ch : nat, (ch < 3)%nat → rgb_map !! ch = Some (composite z rf ch).
Proof.
  intros Hz Hrf Hrows. unfold volume_render.
  destruct (alpha_lookup z rf Hrf) as (al & -> & Hal & Hali).
  cbn [mbind option_bind].
  destruct (weights_lookup (alpha_at (density rf) z) al) as (w & -> & Hw & Hwi);
    [lia|done|].
  cbn [mbind option_bind].
  rewrite zip2_Some by lia. cbn [mbind option_bind].
  eexists _, _, _. split; [done|].
  set (rows := zip_with (λ wi col, Rmult wi <$> col) w (rgb rf)).
  assert (Hlen_rows : length rows = length z).
  { unfold rows, rgb. rewrite length_zip_with, length_fmap. lia. }
  assert (Hrow : ∀ (i : nat) (row : list R), rows !! i = Some row →
            ∃ r4, rf !! i = Some r4
              ∧ row = Rmult (alpha_at (density rf) z i
                             * transmittance (alpha_at (density rf) z) i)
                        <$> (sigmoid <$> take 3 r4)).
  { intros i row Hi.
    apply lookup_zip_with_Some in Hi as (wi & col & -> & Hwi' & Hcol).
    unfold rgb in Hcol. rewrite list_lookup_fmap in Hcol.
    destruct (rf !! i) as [r4|] eqn:Hr4; [|done].
    cbn in Hcol. injection Hcol as <-.
    exists r4. split; [done|].
    rewrite Hwi in Hwi' by (apply lookup_lt_Some in Hr4; lia).
    by injection Hwi' as <-. }
  assert (Hshape : Forall (λ row, length row = 3%nat) rows).
  { apply Forall_lookup. intros i row Hi.
    destruct (Hrow i row Hi) as (r4 & Hr4 & ->).
    rewrite !length_fmap, length_take. rewrite (Hrows _ _ Hr4). lia. }
  split; [apply (foldr_zip_plus_lookup rows 0 Hshape); lia|].
  intros ch Hch.
  destruct (foldr_zip_plus_lookup rows ch Hshape Hch) as [_ ->].
  f_equal. unfold composite. rewrite <- Hlen_rows.
  rewrite <- (length_fmap (λ row, nth ch row 0) rows).
  apply sum_big_sum. intros i x Hx.
  rewrite list_lookup_fmap in Hx.
  destruct (rows !! i) as [row|] eqn:Hi; [|done].
  cbn in Hx. injection Hx as <-.
  destruct (Hrow i row Hi) as (r4 & Hr4 & ->).
  assert (Hv : (ch < length r4)%nat) by (rewrite (Hrows _ _ Hr4); lia).
  destruct (lookup_lt_is_Some_2 r4 ch Hv) as [v Hv'].
  erewrite nth_lookup_Some;
    [|by rewrite !list_lookup_fmap, lookup_take_lt, Hv' by lia].
  unfold colour, alpha_at.
  rewrite (nth_lookup_Some _ _ _ _ Hr4), (nth_lookup_Some _ _ _ _ Hv').
  lra.
Qed.

(** The roll-of-cumprod weights are the recurrence's, sample by sample. *)
Lemma weights_recurrence (z : list R) (rf : list (list R)) :
  (1 ≤ length z)%nat → length rf = length z →
  ∃ al w,
    alpha (sigma_a rf) (dists z) = Some al
    ∧ weights al = Some w
    ∧ length w = length z
    ∧ ∀ i : nat, (i < length z)%nat →
        w !! i = Some (transmittance (alpha_at (density rf) z) i
                       * (1 - exp (- density rf i * delta z i))).
Proof.
  intros Hz Hrf.
  destruct (alpha_lookup z rf Hrf) as (al & Hal & Hlen & Hali).
  destruct (weights_lookup (alpha_at (density rf) z) al) as (w & Hw & Hwl & Hwi);
    [lia|done|].
  exists al, w. split; [done|]. split; [done|]. split; [lia|].
  intros i Hi. rewrite Hwi by lia. f_equal. unfold alpha_at. lra.
Qed.



(** *** Jittered depths *)

Lemma jitter_step (near far u0 u1 : R) (N_samples i : nat) :
  near < far → (2 ≤ N_samples)%nat → u0 < 1 → 0 <= u1 →
  u0 * (far - near) / INR N_samples
  + (near + INR i * ((far - near) / INR (N_samples - 1)))
  < u1 * (far - near) / INR N_samples
    + (near + INR (S i) * ((far - near) / INR (N_samples - 1))).
Proof.
  intros Hnf HN Hu0 Hu1.
  rewrite S_INR, minus_INR by lia. cbn [INR].
  assert (HNr : 2 <= INR N_samples).
  { change 2 with (INR 2). apply le_INR. lia. }
  set (n := INR N_samples) in *. set (D := far - near).
  assert (HD : 0 < D) by (unfold D; lra).
  assert (Hp : 0 < / n) by (apply Rinv_0_lt_compat; lra).
  assert (Hq : / n < / (n - 1)) by (apply Rinv_lt_contravar; nra).
  unfold Rdiv.
  assert (Hlt : u0 * D * / n < u1 * D * / n + D * / (n - 1)).
  { assert (0 < D * / n) by nra.
    assert (D * / n < D * / (n - 1)) by nra.
    assert (0 <= u1 * (D * / n)) by nra.
    assert (u0 * (D * / n) < 1 * (D * / n)) by nra.
    lra. }
  lra.
Qed.

(** C10: with [rand=True], [near < far], [N_samples >= 2] and every uniform
    draw in [[0, 1)], the jittered depths of every ray are strictly
    increasing along the ray, and every inter-sample distance the renderer
    computes from them (the final 1e10 included) is positive. *)
Theorem C10_jittered_depths_increase (n_rays : nat) (near far : R)
    (N_samples : nat) (u : list (list R)) :
  near < far → (2 ≤ N_samples)%nat →
  length u = n_rays →
  Forall (λ u_r, length u_r = N_samples
                 ∧ Forall (λ x, 0 <= x < 1) u_r) u →
  ∃ z_vals,
    sample_z_vals n_rays near far N_samples true u = Some z_vals
    ∧ length z_vals = n_rays
    ∧ ∀ (r : nat) (z : list R), z_vals !! r = Some z →
        length z = N_samples
        ∧ (∀ (i : nat) (x y : R),
             z !! i = Some x → z !! S i = Some y → x < y)
        ∧ Forall (λ d, 0 < d) (dists z).
Proof.
  intros Hnf HN Hu Hall.
  set (jit := λ u_r : list R,
         zip_with Rplus ((λ x, x * (far - near) / INR N_samples) <$> u_r)
           (linspace near far N_samples)).
  assert (Hz : sample_z_vals n_rays near far N_samples true u
               = Some (jit <$> u)).
  { unfold sample_z_vals. rewrite decide_True by done.
    apply mapM_pointwise. eapply Forall_impl; [exact Hall|].
    intros u_r [Hlen _]. cbn beta. apply zip2_Some.
    by rewrite length_fmap, length_linspace. }
  exists (jit <$> u). split; [done|]. split; [by rewrite length_fmap|].
  intros r z Hr. rewrite list_lookup_fmap in Hr.
  destruct (u !! r) as [u_r|] eqn:Hur; [|done].
  cbn in Hr. injection Hr as <-.
  destruct (Forall_lookup_1 _ _ _ _ Hall Hur) as [Hlen Hrange].
  assert (Hjl : length (jit u_r) = N_samples).
  { unfold jit. rewrite length_zip_with, length_fmap, length_linspace. lia. }
  assert (Hinc : ∀ (i : nat) (x y : R),
            jit u_r !! i = Some x → jit u_r !! S i = Some y → x < y).
  { intros i x y Hx Hy. unfold jit in Hx, Hy.
    apply lookup_zip_with_Some in Hx as (jx & lx & -> & Hjx & Hlx).
    apply lookup_zip_with_Some in Hy as (jy & ly & -> & Hjy & Hly).
    rewrite list_lookup_fmap in Hjx, Hjy.
    destruct (u_r !! i) as [u0|] eqn:Hu0; [|done].
    destruct (u_r !! S i) as [u1|] eqn:Hu1; [|done].
    cbn in Hjx, Hjy. injection Hjx as <-. injection Hjy as <-.
    assert (Hi : (S i < N_samples)%nat).
    { apply lookup_lt_Some in Hu1. lia. }
    rewrite linspace_lookup in Hlx, Hly by lia.
    injection Hlx as <-. injection Hly as <-.
    pose proof (Forall_lookup_1 _ _ _ _ Hrange Hu0) as [_ H0].
    pose proof (Forall_lookup_1 _ _ _ _ Hrange Hu1) as [H1 _].
    by apply jitter_step. }
  split; [done|]. split; [done|].
  apply Forall_lookup. intros i d Hd.
  assert (Hi : (i < length (jit u_r))%nat).
  { apply lookup_lt_Some in Hd. by rewrite length_dists in Hd. }
  rewrite dists_lookup in Hd by done. injection Hd as <-.
  unfold delta. case_decide as Hlast; [|lra].
  destruct (lookup_lt_is_Some_2 (jit u_r) i) as [x Hx]; [lia|].
  destruct (lookup_lt_is_Some_2 (jit u_r) (S i)) as [y Hy]; [lia|].
  rewrite (nth_lookup_Some _ _ _ _ Hx), (nth_lookup_Some _ _ _ _ Hy).
  specialize (Hinc i x y Hx Hy). lra.
Qed.

(** C10 on one ray with two samples and the draws 0.5 and 0. *)
Lemma C10_two_jittered_samples :
  2 < 6 ∧ (2 ≤ 2)%nat ∧ length [[0.5; 0]] = 1%nat
  ∧ Forall (λ u_r, length u_r = 2%nat ∧ Forall (λ x, 0 <= x < 1) u_r)
      [[0.5; 0]]
  ∧ ∃ z_vals,
      sample_z_vals 1 2 6 2 true [[0.5; 0]] = Some z_vals
      ∧ length z_vals = 1%nat
      ∧ ∀ (r : nat) (z : list R), z_vals !! r = Some z →
          length z = 2%nat
          ∧ (∀ (i : nat) (x y : R),
               z !! i = Some x → z !! S i = Some y → x < y)
          ∧ Forall (λ d, 0 < d) (dists z).
Proof.
  assert (H1 : 2 < 6) by lra.
  assert (H2 : (2 ≤ 2)%nat) by lia.
  assert (H3 : length [[0.5; 0]] = 1%nat) by reflexivity.
  assert (H4 : Forall (λ u_r, length u_r = 2%nat
                              ∧ Forall (λ x, 0 <= x < 1) u_r) [[0.5; 0]]).
  { repeat constructor; lra. }
  repeat (split; [assumption|]).
  exact (C10_jittered_depths_increase 1 2 6 2 [[0.5; 0]] H1 H2 H3 H4).
Defined.

End NeRFFacts.

(** ** The WGAN-GP gradient penalty *)

Module WGANFacts.
Import Tensor TensorFacts WGAN.

Lemma mix_rows (e : R) (r f : list R) :
  zip_with Rplus ((λ v, v * e) <$> r) ((λ v, v * (1 - e)) <$> f)
  = zip_with (λ x y, x * e + y * (1 - e)) r f.
Proof. by rewrite zip_with_fmap_l, zip_with_fmap_r. Qed.

Lemma mix_planes (e : R) (r f : list (list R)) :
  zip_with (zip_with Rplus)
    ((λ row : list R, (λ v, v * e) <$> row) <$> r)
    ((λ row : list R, (λ v, v * (1 - e)) <$> row) <$> f)
  = zip_with (zip_with (λ x y, x * e + y * (1 - e))) r f.
Proof.
  revert f. induction r as [|row r IH]; intros [|row' f]; try done.
  cbn [fmap list_fmap zip_with]. by rewrite mix_rows, <- IH.
Qed.

Lemma mix_images (e : R) (r f : image) :
  image_map2 Rplus (image_scale r e) (image_scale f (1 - e))
  = image_map2 (λ x y, x * e + y * (1 - e)) r f.
Proof.
  unfold image_map2, image_scale. revert f.
  induction r as [|plane r IH]; intros [|plane' f]; try done.
  cbn [fmap list_fmap zip_with]. by rewrite mix_planes, <- IH.
Qed.

Lemma mix_Some (real fake : list image) (epsilon : list R) :
  same_shape real fake → length epsilon = length real →
  ∃ mixed,
    mix real fake epsilon = Some mixed
    ∧ length mixed = length real
    ∧ ∀ (b : nat) (e : R) (r f : image),
        epsilon !! b = Some e → real !! b = Some r → fake !! b = Some f →
        mixed !! b = Some (image_map2 (λ x y, x * e + y * (1 - e)) r f).
Proof.
  intros Hshape Hlen. unfold mix. rewrite decide_True by done.
  eexists. split; [done|].
  assert (Hfake : length fake = length real).
  { apply (f_equal length) in Hshape. by rewrite !length_fmap in Hshape. }
  split; [rewrite length_zip_with, length_zip; lia|].
  intros b e r f He Hr Hf.
  rewrite lookup_zip_with, He. cbn [mbind option_bind].
  rewrite (proj2 (lookup_zip_Some _ _ _ _ _) (conj Hr Hf)).
  cbn [mbind option_bind fst snd]. by rewrite mix_images.
Qed.

(** *** The penalty *)

Lemma sum_cons (x : R) (l : list R) : sum (x :: l) = x + sum l.
Proof. reflexivity. Qed.

Lemma sum_fmap_concat (f : R → R) (ls : list (list R)) :
  sum (f <$> concat ls) = sum ((λ l : list R, sum (f <$> l)) <$> ls).
Proof.
  induction ls as [|l ls IH]; [done|].
  cbn [concat fmap list_fmap]. rewrite fmap_app, sum_app, IH. done.
Qed.

Lemma sum_ext (f h : R → R) (l : list R) :
  (∀ x, f x = h x) → sum (f <$> l) = sum (h <$> l).
Proof.
  intros Hfh. induction l as [|x l IH]; [done|].
  cbn [fmap list_fmap]. unfold sum in *. cbn [foldr]. by rewrite Hfh, IH.
Qed.

(** The squared norm of the flattened image is the sum of the squared
    entries over channels, rows and columns. *)
Lemma flattened_sq_sum (img : image) :
  sum ((λ x, x * x) <$> concat (concat img)) = image_sq_sum img.
Proof.
  unfold image_sq_sum. rewrite sum_fmap_concat.
  induction img as [|plane img IH]; [done|].
  cbn [concat fmap list_fmap]. rewrite fmap_app, sum_app, IH.
  rewrite sum_cons. f_equal. f_equal.
  apply list_fmap_ext. intros _ row _. apply sum_ext. intros x. lra.
Qed.

Lemma gradient_penalty_formula (gradient : list image) :
  gradient ≠ [] →
  gradient_penalty gradient = Some (penalty_formula gradient).
Proof.
  intros Hne. unfold gradient_penalty, view_rows.
  destruct gradient as [|img gradient]; [done|]. clear Hne.
  cbn [mbind option_bind]. f_equal. unfold mean, penalty_formula.
  rewrite !length_fmap. f_equal. f_equal.
  rewrite <- !list_fmap_compose.
  apply list_fmap_ext. intros _ im _. cbn [compose].
  unfold norm2. by rewrite flattened_sq_sum.
Qed.

(** The first unit test of the notebook: a zero gradient has penalty 1. *)
Lemma gradient_penalty_zero_example :
  gradient_penalty [[[[0; 0]; [0; 0]]]; [[[0; 0]; [0; 0]]]] = Some 1.
Proof.
  rewrite gradient_penalty_formula by done. f_equal.
  unfold penalty_formula, image_sq_sum, sum. cbn.
  replace (0 * (0 * 1) + (0 * (0 * 1) + 0)
           + (0 * (0 * 1) + (0 * (0 * 1) + 0) + 0) + 0) with 0 by lra.
  rewrite sqrt_0. lra.
Qed.

(** *** The mixed batch, entry by entry *)

Lemma same_shape_rows (r f : image) :
  shape r = shape f →
  Forall2 (Forall2 (λ row row' : list R, length row = length row')) r f.
Proof.
  unfold shape. intros [= Hplanes Hrows].
  apply Forall2_same_length_lookup_2.
  { by rewrite <- (length_fmap length r), Hplanes, length_fmap. }
  intros i p p' Hp Hp'.
  assert (Hi : length <$> p = length <$> p').
  { apply (f_equal (.!! i)) in Hrows.
    rewrite !list_lookup_fmap, Hp, Hp' in Hrows. by injection Hrows. }
  apply Forall2_same_length_lookup_2.
  { apply (f_equal (.!! i)) in Hplanes.
    rewrite !list_lookup_fmap, Hp, Hp' in Hplanes. by injection Hplanes. }
  intros j row row' Hrow Hrow'.
  apply (f_equal (.!! j)) in Hi.
  rewrite !list_lookup_fmap, Hrow, Hrow' in Hi. by injection Hi.
Qed.

Lemma image_map2_shape (g : R → R → R) (r f : image) :
  shape r = shape f → shape (image_map2 g r f) = shape r.
Proof.
  intros Hs. pose proof (same_shape_rows r f Hs) as Hrows. clear Hs.
  unfold shape, image_map2.
  induction Hrows as [|p p' r f Hp _ IH]; [done|].
  cbn [zip_with fmap list_fmap]. injection IH as IH1 IH2.
  f_equal.
  - f_equal; [|exact IH1].
    rewrite length_zip_with. apply Forall2_length in Hp. lia.
  - f_equal; [|exact IH2].
    clear IH1 IH2. induction Hp as [|row row' p p' Hrow _ IHp]; [done|].
    cbn [zip_with fmap list_fmap]. f_equal; [|exact IHp].
    rewrite length_zip_with. lia.
Qed.

Lemma image_map2_entry (g : R → R → R) (r f : image) (ch i j : nat)
    (x y : R) :
  (plane ← r !! ch; row ← plane !! i; row !! j) = Some x →
  (plane ← f !! ch; row ← plane !! i; row !! j) = Some y →
  (plane ← image_map2 g r f !! ch; row ← plane !! i; row !! j)
  = Some (g x y).
Proof.
  unfold image_map2. intros Hx Hy.
  destruct (r !! ch) as [pr|] eqn:Hpr; [|done].
  destruct (f !! ch) as [pf|] eqn:Hpf; [|done].
  cbn [mbind option_bind] in Hx, Hy.
  destruct (pr !! i) as [rr|] eqn:Hrr; [|done].
  destruct (pf !! i) as [rf|] eqn:Hrf; [|done].
  cbn [mbind option_bind] in Hx, Hy.
  rewrite lookup_zip_with, Hpr. cbn [mbind option_bind].
  rewrite Hpf. cbn [mbind option_bind].
  rewrite lookup_zip_with, Hrr. cbn [mbind option_bind].
  rewrite Hrf. cbn [mbind option_bind].
  rewrite lookup_zip_with, Hx. cbn [mbind option_bind].
  by rewrite Hy.
Qed.

Lemma mix_shape (real fake mixed : list image) (epsilon : list R) :
  same_shape real fake → length epsilon = length real →
  mix real fake epsilon = Some mixed →
  shape <$> mixed = shape <$> real.
Proof.
  intros Hshape Hlen Hmix.
  destruct (mix_Some real fake epsilon Hshape Hlen) as (m' & Hm' & Hml & Hmb).
  rewrite Hmix in Hm'. injection Hm' as <-.
  apply list_eq_same_length with (length real);
    [by rewrite length_fmap|by rewrite length_fmap|].
  intros b s s' Hb Hs Hs'. rewrite list_lookup_fmap in Hs, Hs'.
  destruct (real !! b) as [r|] eqn:Hr; [|done].
  destruct (lookup_lt_is_Some_2 fake b) as [f Hf].
  { apply (f_equal length) in Hshape. rewrite !length_fmap in Hshape. lia. }
  destruct (lookup_lt_is_Some_2 epsilon b) as [e He]; [lia|].
  rewrite (Hmb b e r f He Hr Hf) in Hs. cbn in Hs, Hs'.
  injection Hs as <-. injection Hs' as <-.
  apply image_map2_shape. unfold same_shape in Hshape.
  apply (f_equal (.!! b)) in Hshape.
  rewrite !list_lookup_fmap, Hr, Hf in Hshape. cbn in Hshape.
  by apply (inj Some) in Hshape.
Qed.

(** *** The engine's gradient *)

Lemma derivable_pt_lim_ext (f h : R → R) (x l : R) :
  (∀ t, f t = h t) → derivable_pt_lim f x l → derivable_pt_lim h x l.
Proof.
  intros Heq Hf eps Heps. destruct (Hf eps Heps) as [delta Hd].
  exists delta. intros t Ht Htd. rewrite <- !Heq. by apply Hd.
Qed.

Lemma dot_ones (s : list R) (n : nat) :
  length s = n → sum (zip_with Rmult (replicate n 1) s) = sum s.
Proof.
  revert n. induction s as [|x s IH]; intros [|n] Hn; try done.
  cbn [replicate zip_with]. rewrite !sum_cons, IH by (cbn in Hn; lia). lra.
Qed.

Lemma ones_like_replicate (scores : list R) :
  ones_like scores = replicate (length scores) 1.
Proof.
  unfold ones_like. induction scores as [|x s IH]; [done|].
  cbn [fmap list_fmap length replicate]. by rewrite <- IH.
Qed.

Section GradientPenalty.

Variable autograd_grad :
  (list image → list R) → list image → list R → list image.

Variable crit : list image → list R.

(** The engine's gradient has the shape of the inputs it is taken with
    respect to (the notebook's test asserts this of [get_gradient]). *)
Hypothesis autograd_shape :
  ∀ f x v, shape <$> autograd_grad f x v = shape <$> x.

(** The critic gives one score per image. *)
Hypothesis crit_scores : ∀ x, length (crit x) = length x.

(** What [torch.autograd.grad(inputs=x, outputs=crit(x), grad_outputs=v)]
    computes: at every entry of [x] where the scores, weighted by [v] and
    summed, have a derivative with respect to that entry, the gradient
    holds that derivative. *)
Hypothesis autograd_vjp :
  ∀ (x : list image) (v : list R) (b ch i j : nat) (x0 d : R),
    (img ← x !! b; plane ← img !! ch; row ← plane !! i; row !! j) = Some x0 →
    derivable_pt_lim
      (λ t, sum (zip_with Rmult v
                   (crit (alter (alter (alter (<[j := x0 + t]>) i) ch) b x))))
      0 d →
    (img ← autograd_grad crit x v !! b; plane ← img !! ch;
     row ← plane !! i; row !! j) = Some d.

(** C1: for equally shaped non-empty batches [real] and [fake] and one
    weight per image in [epsilon], the batch [get_gradient] mixes has the
    shape of [real] and holds
    [real * epsilon_b + fake * (1 - epsilon_b)] at every entry of every
    image [b]; [get_gradient] returns the engine's gradient of the
    critic's scores at that mixed batch with a weight of one on every
    score, which has the shape of [real] and holds, at every entry, the
    derivative of the sum of the critic's scores with respect to that
    entry of the mixed batch (wherever that derivative exists); and
    [gradient_penalty] of that gradient is the batch mean of
    [(norm_b - 1)^2], [norm_b] being the L2 norm of image [b]'s gradient
    over all its entries. *)
Theorem C1_gradient_penalty (real fake : list image) (epsilon : list R) :
  same_shape real fake → length epsilon = length real → real ≠ [] →
  ∃ mixed gradient,
    mix real fake epsilon = Some mixed
    ∧ shape <$> mixed = shape <$> real
    ∧ (∀ (b ch i j : nat) (e r f : R),
         epsilon !! b = Some e →
         (img ← real !! b; plane ← img !! ch; row ← plane !! i; row !! j)
         = Some r →
         (img ← fake !! b; plane ← img !! ch; row ← plane !! i; row !! j)
         = Some f →
         (img ← mixed !! b; plane ← img !! ch; row ← plane !! i; row !! j)
         = Some (r * e + f * (1 - e)))
    ∧ get_gradient autograd_grad crit real fake epsilon = Some gradient
    ∧ gradient = autograd_grad crit mixed (replicate (length mixed) 1)
    ∧ shape <$> gradient = shape <$> real
    ∧ (∀ (b ch i j : nat) (x0 d : R),
         (img ← mixed !! b; plane ← img !! ch; row ← plane !! i; row !! j)
         = Some x0 →
         derivable_pt_lim
           (λ t, sum (crit (alter (alter (alter (<[j := x0 + t]>) i) ch) b
                              mixed)))
           0 d →
         (img ← gradient !! b; plane ← img !! ch; row ← plane !! i; row !! j)
         = Some d)
    ∧ gradient_penalty gradient = Some (penalty_formula gradient).
Proof.
  intros Hshape Hlen Hne.
  destruct (mix_Some real fake epsilon Hshape Hlen) as (mixed & Hmix & Hml & Hmb).
  pose proof (mix_shape real fake mixed epsilon Hshape Hlen Hmix) as Hms.
  assert (Hones : ones_like (crit mixed) = replicate (length mixed) 1).
  { by rewrite ones_like_replicate, crit_scores. }
  exists mixed, (autograd_grad crit mixed (replicate (length mixed) 1)).
  split; [done|]. split; [done|]. split.
  { intros b ch i j e r f He Hr Hf.
    destruct (real !! b) as [imr|] eqn:Hir; [|done].
    destruct (fake !! b) as [imf|] eqn:Hif; [|done].
    cbn [mbind option_bind] in Hr, Hf.
    rewrite (Hmb b e imr imf He Hir Hif). cbn [mbind option_bind].
    exact (image_map2_entry (λ x y, x * e + y * (1 - e)) imr imf ch i j r f
             Hr Hf). }
  split.
  { unfold get_gradient. rewrite Hmix. cbn [mbind option_bind]. cbn zeta.
    by rewrite Hones. }
  split; [done|].
  split; [by rewrite autograd_shape|]. split.
  { intros b ch i j x0 d Hx0 Hd. apply (autograd_vjp _ _ _ _ _ _ x0); [done|].
    eapply derivable_pt_lim_ext; [|exact Hd].
    intros t. cbn beta. symmetry. apply dot_ones.
    by rewrite crit_scores, length_alter. }
  apply gradient_penalty_formula. intros Hnil.
  pose proof (autograd_shape crit mixed (replicate (length mixed) 1)) as Hs.
  rewrite Hnil in Hs. apply (f_equal length) in Hs.
  rewrite !length_fmap in Hs. cbn [length] in Hs.
  destruct real; [done|]. cbn [length] in Hml. lia.
Qed.

End GradientPenalty.

(** *** An engine for the critic that scores every image 0 *)

Lemma zeros_like_shape (x : list image) :
  shape <$> ((λ img : image,
                (λ plane : list (list R),
                   (λ row : list R, (λ _ : R, 0) <$> row) <$> plane) <$> img)
             <$> x)
  = shape <$> x.
Proof.
  rewrite <- list_fmap_compose. apply list_fmap_ext. intros _ img _.
  cbn [compose]. unfold shape. f_equal.
  - rewrite <- list_fmap_compose. apply list_fmap_ext. intros _ plane _.
    cbn [compose]. by rewrite length_fmap.
  - rewrite <- list_fmap_compose. apply list_fmap_ext. intros _ plane _.
    cbn [compose]. rewrite <- list_fmap_compose.
    apply list_fmap_ext. intros _ row _. cbn [compose].
    by rewrite length_fmap.
Qed.

Lemma zero_scores_derivative (x : list image) (v : list R)
    (b ch i j : nat) (x0 d : R) :
  (img ← x !! b; plane ← img !! ch; row ← plane !! i; row !! j) = Some x0 →
  derivable_pt_lim
    (λ t, sum (zip_with Rmult v
                 ((λ _ : image, 0)
                  <$> alter (alter (alter (<[j := x0 + t]>) i) ch) b x)))
    0 d →
  (img ← ((λ img : image,
             (λ plane : list (list R),
                (λ row : list R, (λ _ : R, 0) <$> row) <$> plane) <$> img)
          <$> x) !! b;
   plane ← img !! ch; row ← plane !! i; row !! j) = Some d.
Proof.
  intros Hx0 Hd.
  assert (Hzero : ∀ (l : list image) (u : list R),
            sum (zip_with Rmult u ((λ _ : image, 0) <$> l)) = 0).
  { intros l. induction l as [|im l IH]; intros [|y u]; try done.
    cbn [fmap list_fmap zip_with]. rewrite sum_cons, IH. lra. }
  assert (Hd0 : derivable_pt_lim (fct_cte 0) 0 d).
  { eapply derivable_pt_lim_ext; [|exact Hd].
    intros t. cbn beta. apply Hzero. }
  rewrite (uniqueness_limite _ _ _ _ Hd0 (derivable_pt_lim_const 0 0)).
  rewrite list_lookup_fmap.
  destruct (x !! b) as [img|]; [|done].
  cbn [fmap option_fmap option_map mbind option_bind] in Hx0 |- *.
  rewrite list_lookup_fmap.
  destruct (img !! ch) as [plane|]; [|done].
  cbn [fmap option_fmap option_map mbind option_bind] in Hx0 |- *.
  rewrite list_lookup_fmap.
  destruct (plane !! i) as [row|]; [|done].
  cbn [fmap option_fmap option_map mbind option_bind] in Hx0 |- *.
  rewrite list_lookup_fmap, Hx0. done.
Qed.

(** C1 on a batch of one single-entry image, with the critic that scores
    every image 0 and the engine's gradient for it, which is zero. *)
Lemma C1_one_image_example :
  let autograd_grad : (list image → list R) → list image → list R → list image :=
    λ _ x _, (λ img : image,
                (λ plane : list (list R),
                   (λ row : list R, (λ _ : R, 0) <$> row) <$> plane) <$> img)
             <$> x in
  let crit : list image → list R := λ x, (λ _, 0) <$> x in
  same_shape [[[[1]]]] [[[[0]]]] ∧ length [0.5] = length [[[[1]]]]
  ∧ [[[[1]]]] ≠ ([] : list image)
  ∧ ∃ mixed gradient,
      mix [[[[1]]]] [[[[0]]]] [0.5] = Some mixed
      ∧ shape <$> mixed = shape <$> [[[[1]]]]
      ∧ (∀ (b ch i j : nat) (e r f : R),
           [0.5] !! b = Some e →
           (img ← [[[[1]]]] !! b; plane ← img !! ch; row ← plane !! i;
            row !! j) = Some r →
           (img ← [[[[0]]]] !! b; plane ← img !! ch; row ← plane !! i;
            row !! j) = Some f →
           (img ← mixed !! b; plane ← img !! ch; row ← plane !! i; row !! j)
           = Some (r * e + f * (1 - e)))
      ∧ get_gradient autograd_grad crit [[[[1]]]] [[[[0]]]] [0.5]
        = Some gradient
      ∧ gradient = autograd_grad crit mixed (replicate (length mixed) 1)
      ∧ shape <$> gradient = shape <$> [[[[1]]]]
      ∧ (∀ (b ch i j : nat) (x0 d : R),
           (img ← mixed !! b; plane ← img !! ch; row ← plane !! i; row !! j)
           = Some x0 →
           derivable_pt_lim
             (λ t, sum (crit (alter (alter (alter (<[j := x0 + t]>) i) ch) b
                                mixed)))
             0 d →
           (img ← gradient !! b; plane ← img !! ch; row ← plane !! i;
            row !! j) = Some d)
      ∧ gradient_penalty gradient = Some (penalty_formula gradient).
Proof.
  intros autograd_grad crit.
  assert (H1 : same_shape [[[[1]]]] [[[[0]]]]) by reflexivity.
  assert (H2 : length [0.5] = length [[[[1]]]]) by reflexivity.
  assert (H3 : [[[[1]]]] ≠ ([] : list image)) by discriminate.
  repeat (split; [assumption|]).
  exact (C1_gradient_penalty autograd_grad crit
           (λ _ x _, zeros_like_shape x) (λ x, length_fmap _ x)
           zero_scores_derivative
           [[[[1]]]] [[[[0]]]] [0.5] H1 H2 H3).
Defined.

End WGANFacts.

(* ================================================================== *)
(** * Part III: further properties of the notebooks' code *)
(* ================================================================== *)

(** ** The DDPM schedule, perturbation and sampler *)

Module DDPMMore.
Import Tensor TensorFacts DDPM DDPMFacts.

Lemma scan_lookup_0 (f : R → R → R) (acc : R) (l : list R) :
  scan f acc l !! 0%nat = f acc <$> l !! 0%nat.
Proof. by destruct l. Qed.

Lemma scan_lookup_S (f : R → R → R) (l : list R) (acc : R) (i : nat) (p x : R) :
  scan f acc l !! i = Some p → l !! S i = Some x →
  scan f acc l !! S i = Some (f p x).
Proof.
  revert acc i. induction l as [|y l IH]; intros acc i Hp Hx; [done|].
  destruct i as [|i].
  - cbn in Hp. injection Hp as <-. cbn [scan]. rewrite lookup_cons.
    rewrite lookup_cons in Hx. rewrite scan_lookup_0, Hx. done.
  - cbn [scan] in *. rewrite lookup_cons in Hp, Hx. rewrite lookup_cons.
    by apply IH.
Qed.

Lemma cumprod_unit_interval (l : list R) (acc : R) :
  0 < acc <= 1 → Forall (λ x, 0 < x < 1) l →
  Forall (λ p, 0 < p < 1) (scan Rmult acc l).
Proof.
  intros Hacc Hl. revert acc Hacc.
  induction Hl as [|x l Hx _ IH]; intros acc Hacc; [constructor|].
  cbn [scan]. assert (0 < acc * x < 1) by nra.
  constructor; [done|]. apply IH. lra.
Qed.

Lemma alpha_schedule_unit_interval (beta1 beta2 : R) (timesteps : nat) :
  0 < beta1 → beta1 <= beta2 → beta2 < 1 →
  Forall (λ x, 1 - beta2 <= x <= 1 - beta1)
    (alpha_schedule (beta_schedule beta1 beta2 timesteps)).
Proof.
  intros H0 Hle Hlt. unfold alpha_schedule.
  apply Forall_fmap, Forall_lookup. intros i x Hx. cbn.
  apply (beta_schedule_bounds _ _ _ _ _ Hle) in Hx. lra.
Qed.

Lemma schedule_core (beta1 beta2 : R) (timesteps : nat) :
  0 < beta1 → beta1 <= beta2 → beta2 < 1 →
  ∃ b a ab,
    construct_schedule beta1 beta2 timesteps = Some (b, a, ab)
    ∧ length b = S timesteps ∧ length a = S timesteps
    ∧ length ab = S timesteps
    ∧ (∀ (i : nat) (x : R), a !! i = Some x →
         1 - beta2 <= x <= 1 - beta1)
    ∧ ab !! 0%nat = Some 1
    ∧ (∀ (i : nat) (x : R), ab !! i = Some x → 0 < x <= 1)
    ∧ (∀ (i : nat) (x y : R),
         ab !! i = Some x → ab !! S i = Some y → y < x).
Proof.
  intros H0 Hle Hlt.
  set (b := beta_schedule beta1 beta2 timesteps).
  set (a := alpha_schedule b).
  pose proof (alpha_schedule_unit_interval beta1 beta2 timesteps H0 Hle Hlt)
    as Ha. fold b a in Ha.
  assert (Ha01 : Forall (λ x, 0 < x < 1) a).
  { eapply Forall_impl; [exact Ha|]. intros x Hx. cbn in Hx. lra. }
  assert (Hlena : length a = S timesteps).
  { unfold a, alpha_schedule. rewrite length_fmap.
    apply length_beta_schedule. }
  assert (Hcp : Forall (λ p, 0 < p < 1) (cumprod a)).
  { apply cumprod_unit_interval; [lra|done]. }
  assert (Hlencp : length (cumprod a) = S timesteps).
  { unfold cumprod. by rewrite length_scan. }
  unfold construct_schedule, ab_t_code. fold b a.
  rewrite cumsum_ln_cumprod.
  2:{ eapply Forall_impl; [exact Ha01|]. intros x Hx. cbn in Hx. lra. }
  destruct (set0_Some 1 (cumprod a)) as (ab & -> & Hhd & Hlen & Htl).
  { intros Hnil. rewrite Hnil in Hlencp. done. }
  exists b, a, ab. cbn [mbind option_bind].
  split; [done|]. split; [apply length_beta_schedule|].
  split; [done|]. split; [lia|].
  split. { intros i x Hx. exact (Forall_lookup_1 _ _ _ _ Ha Hx). }
  split; [done|].
  assert (Hrange : ∀ (i : nat) (x : R), ab !! i = Some x → 0 < x <= 1).
  { intros [|i] x Hx.
    - rewrite Hhd in Hx. injection Hx as <-. lra.
    - rewrite Htl in Hx by lia.
      pose proof (Forall_lookup_1 _ _ _ _ Hcp Hx) as Hp. cbn in Hp. lra. }
  split; [done|].
  intros i x y Hx Hy.
  rewrite (Htl (S i)) in Hy by lia.
  assert (Hi : (S i < length a)%nat).
  { apply lookup_lt_Some in Hy. lia. }
  destruct (lookup_lt_is_Some_2 a (S i) Hi) as [ai Hai].
  pose proof (Forall_lookup_1 _ _ _ _ Ha01 Hai) as Hai01. cbn in Hai01.
  destruct (lookup_lt_is_Some_2 (cumprod a) i) as [p Hp]; [lia|].
  pose proof (Forall_lookup_1 _ _ _ _ Hcp Hp) as Hp01. cbn in Hp01.
  unfold cumprod in Hp, Hy.
  rewrite (scan_lookup_S Rmult a 1 i p ai Hp Hai) in Hy. injection Hy as <-.
  destruct i as [|i].
  - rewrite Hhd in Hx. injection Hx as <-. nra.
  - rewrite Htl in Hx by lia. unfold cumprod in Hx. rewrite Hp in Hx.
    injection Hx as <-. nra.
Qed.

(** X1: for [0 < beta1 <= beta2 < 1] the schedule statements succeed and
    give three arrays of [timesteps + 1] entries; every alpha lies in
    [[1 - beta2, 1 - beta1]], the cumulative table starts at 1, stays in
    (0, 1] and decreases strictly with the index. *)
Theorem X1_schedule_invariants (beta1 beta2 : R) (timesteps : nat) :
  0 < beta1 → beta1 <= beta2 → beta2 < 1 →
  ∃ b a ab,
    construct_schedule beta1 beta2 timesteps = Some (b, a, ab)
    ∧ length b = S timesteps ∧ length a = S timesteps
    ∧ length ab = S timesteps
    ∧ (∀ (i : nat) (x : R), a !! i = Some x →
         1 - beta2 <= x <= 1 - beta1)
    ∧ ab !! 0%nat = Some 1
    ∧ (∀ (i : nat) (x : R), ab !! i = Some x → 0 < x <= 1)
    ∧ (∀ (i : nat) (x y : R),
         ab !! i = Some x → ab !! S i = Some y → y < x).
Proof.
  intros H0 Hle Hlt.
  destruct (schedule_core beta1 beta2 timesteps H0 Hle Hlt)
    as (b & a & ab & Hc & Hrest).
  exists b, a, ab. split; [exact Hc|exact Hrest].
Qed.

(** The default arguments of the analysis function satisfy X1's
    hypotheses. *)
Lemma X1_default_schedule :
  (0 < 1e-4 ∧ 1e-4 <= 2e-2 ∧ 2e-2 < 1)
  ∧ ∃ b a ab,
      construct_schedule 1e-4 2e-2 1000 = Some (b, a, ab)
      ∧ length b = 1001%nat ∧ length a = 1001%nat ∧ length ab = 1001%nat
      ∧ (∀ (i : nat) (x : R), a !! i = Some x →
           1 - 2e-2 <= x <= 1 - 1e-4)
      ∧ ab !! 0%nat = Some 1
      ∧ (∀ (i : nat) (x : R), ab !! i = Some x → 0 < x <= 1)
      ∧ (∀ (i : nat) (x y : R),
           ab !! i = Some x → ab !! S i = Some y → y < x).
Proof.
  split; [lra|].
  apply (X1_schedule_invariants 1e-4 2e-2 1000); lra.
Defined.

(** *** Perturbation *)

Import DiffusionFacts.

Lemma perturb_input_rows (g : globals) (x noise : list (list R))
    (t : list nat) (c : list R) :
  gather (ab_t g) t = Some c → length t = length x →
  Forall2 (λ xk nk, length xk = length nk) x noise →
  perturb_input g x t noise
  = Some (zip_with (zip_with Rplus)
            (zip_with (λ ci row, Rmult ci <$> row) (sqrt <$> c) x)
            (zip_with (λ ci row, Rmult ci <$> row)
               (sqrt <$> ((λ a, 1 - a) <$> c)) noise)).
Proof.
  intros Hc Ht Hshape.
  pose proof (Forall2_length _ _ _ Hshape) as Hlen.
  destruct (gather_lookup _ _ _ Hc) as [Hclen _].
  unfold perturb_input. rewrite gather_fmap, Hc.
  cbn [fmap option_fmap option_map mbind option_bind].
  assert (Hl1 : length (sqrt <$> c) = length x)
    by (rewrite length_fmap; congruence).
  assert (Hl2 : length (sqrt <$> ((λ a : R, 1 - a) <$> c)) = length noise)
    by (rewrite !length_fmap; congruence).
  rewrite (scale_rows_Some _ _ Hl1). cbn [mbind option_bind].
  rewrite (scale_rows_Some _ _ Hl2). cbn [mbind option_bind].
  apply add_rows_Some.
  apply Forall2_same_length_lookup. split.
  - rewrite !length_zip_with, !length_fmap. lia.
  - intros k p q Hp Hq.
    apply lookup_zip_with_Some in Hp as (a & xk & -> & _ & Hxk).
    apply lookup_zip_with_Some in Hq as (b & nk & -> & _ & Hnk).
    rewrite !length_fmap.
    exact (Forall2_lookup_lr _ _ _ _ _ _ Hshape Hxk Hnk).
Qed.

Lemma gather_replicate (tbl : list R) (n i : nat) (v : R) :
  tbl !! i = Some v → gather tbl (replicate n i) = Some (replicate n v).
Proof.
  intros Hv. unfold gather. induction n as [|n IH]; [done|].
  cbn [replicate mapM]. rewrite Hv, IH. done.
Qed.

(** X2: at timestep 0 the perturbation is the identity.  Whenever the
    cumulative table holds 1 at index 0 (as the schedule code's override
    makes it), [perturb_input(x, t, noise)] with every index of [t] equal
    to 0 returns [x] itself, whatever the noise. *)
Theorem X2_perturb_input_at_0 (g : globals) (x noise : list (list R)) :
  ab_t g !! 0%nat = Some 1 →
  Forall2 (λ xk nk, length xk = length nk) x noise →
  perturb_input g x (replicate (length x) 0%nat) noise = Some x.
Proof.
  intros H0 Hshape.
  rewrite (perturb_input_rows g x noise _ (replicate (length x) 1));
    [|by apply gather_replicate|by rewrite length_replicate|done].
  f_equal. rewrite !fmap_replicate.
  replace (1 - 1) with 0 by lra. rewrite sqrt_1, sqrt_0.
  clear H0. induction Hshape as [|xk nk x noise Hk _ IH]; [done|].
  cbn [length replicate zip_with]. rewrite IH. f_equal.
  clear IH. revert nk Hk. induction xk as [|v xk IHx]; intros [|w nk] Hk;
    try done.
  cbn [fmap list_fmap zip_with]. cbn in Hk.
  rewrite IHx by lia. f_equal. lra.
Qed.

Lemma X2_perturb_input_at_0_example :
  let g := Globals 1 0 0.75 1 [0; 0.75] [1; 0.25] [1; 0.25] in
  ab_t g !! 0%nat = Some 1
  ∧ Forall2 (λ xk nk : list R, length xk = length nk) [[1; 2]] [[5; 7]]
  ∧ perturb_input g [[1; 2]] (replicate (length [[1; 2]]) 0%nat) [[5; 7]]
    = Some [[1; 2]].
Proof.
  intros g.
  assert (H1 : ab_t g !! 0%nat = Some 1) by reflexivity.
  assert (H2 : Forall2 (λ xk nk : list R, length xk = length nk)
                 [[1; 2]] [[5; 7]]) by (repeat constructor).
  split; [exact H1|]. split; [exact H2|].
  exact (X2_perturb_input_at_0 g [[1; 2]] [[5; 7]] H1 H2).
Defined.

(** X3: the two weights [perturb_input] applies are variance preserving.
    For [0 < beta1 <= beta2 < 1] and every index [t] of the schedule the
    squares of [sqrt(ab_t[t])] and [sqrt(1 - ab_t[t])] sum to 1, and both
    weights lie in [[0, 1]]. *)
Theorem X3_perturb_weights_unit (beta1 beta2 : R) (timesteps t : nat)
    (b a ab : list R) (abt : R) :
  0 < beta1 → beta1 <= beta2 → beta2 < 1 →
  construct_schedule beta1 beta2 timesteps = Some (b, a, ab) →
  ab !! t = Some abt →
  sqrt abt ^ 2 + sqrt (1 - abt) ^ 2 = 1
  ∧ 0 <= sqrt abt <= 1 ∧ 0 <= sqrt (1 - abt) <= 1.
Proof.
  intros H0 Hle Hlt Hc Ht.
  destruct (schedule_core beta1 beta2 timesteps H0 Hle Hlt)
    as (b' & a' & ab' & Hc' & _ & _ & _ & _ & _ & Hrange & _).
  rewrite Hc in Hc'. injection Hc' as <- <- <-.
  pose proof (Hrange t abt Ht) as Habt.
  rewrite !pow2_sqrt by lra. split; [lra|].
  split; (split; [apply sqrt_pos|]).
  - apply Rle_trans with (sqrt 1); [apply sqrt_le_1; lra|rewrite sqrt_1; lra].
  - apply Rle_trans with (sqrt 1); [apply sqrt_le_1; lra|rewrite sqrt_1; lra].
Qed.

Lemma X3_two_step_schedule :
  ∃ b a ab,
    (0 < 0.1 ∧ 0.1 <= 0.2 ∧ 0.2 < 1)
    ∧ construct_schedule 0.1 0.2 1 = Some (b, a, ab)
    ∧ ab !! 0%nat = Some 1
    ∧ sqrt 1 ^ 2 + sqrt (1 - 1) ^ 2 = 1
    ∧ 0 <= sqrt 1 <= 1 ∧ 0 <= sqrt (1 - 1) <= 1.
Proof.
  eexists _, _, _.
  assert (H1 : 0 < 0.1) by lra.
  assert (H2 : 0.1 <= 0.2) by lra.
  assert (H3 : 0.2 < 1) by lra.
  split; [lra|]. split; [reflexivity|]. split; [reflexivity|].
  exact (X3_perturb_weights_unit 0.1 0.2 1 0 _ _ _ 1 H1 H2 H3
           eq_refl eq_refl).
Defined.

(** X4: an index of [t] beyond the schedule makes [perturb_input] raise,
    whatever the images and the noise are. *)
Theorem X4_perturb_input_index_error (g : globals) (x noise : list (list R))
    (t : list nat) (k ti : nat) :
  t !! k = Some ti → (length (ab_t g) ≤ ti)%nat →
  perturb_input g x t noise = None.
Proof.
  intros Hk Hti. unfold perturb_input.
  assert (Hnone : gather (sqrt <$> ab_t g) t = None).
  { unfold gather. apply mapM_None, Exists_exists. exists ti. split.
    - by eapply list_elem_of_lookup_2.
    - apply lookup_ge_None. by rewrite length_fmap. }
  by rewrite Hnone.
Qed.

Lemma X4_index_past_the_end_example :
  let g := Globals 1 0 0.75 1 [0; 0.75] [1; 0.25] [1; 0.25] in
  [0%nat; 2%nat] !! 1%nat = Some 2%nat ∧ (length (ab_t g) ≤ 2)%nat
  ∧ perturb_input g [[1]; [2]] [0%nat; 2%nat] [[0]; [0]] = None.
Proof.
  intros g.
  assert (H1 : [0%nat; 2%nat] !! 1%nat = Some 2%nat) by reflexivity.
  assert (H2 : (length (ab_t g) ≤ 2)%nat) by (simpl; lia).
  split; [exact H1|]. split; [exact H2|].
  exact (X4_perturb_input_index_error g [[1]; [2]] [[0]; [0]]
           [0%nat; 2%nat] 1 2 H1 H2).
Defined.

(** *** The sampler's frames *)

Section Frames.

Variable gauss : nat → nat → list R.
Variable nn_model : list R → R → list R.
Variable g : globals.

Hypothesis gauss_shape : ∀ k n, length (gauss k n) = n.
Hypothesis nn_model_shape : ∀ x t, length (nn_model x t) = length x.

Lemma ddpm_step_update (save_rate i : nat) (samples : list R)
    (intermediate : list (list R)) (k : nat) (a ab b : R) :
  (0 < save_rate)%nat →
  a_t g !! S i = Some a → ab_t g !! S i = Some ab → b_t g !! S i = Some b →
  let new := reverse_step_all a ab b samples
               (nn_model samples (INR (S i) / INR (timesteps g)))
               (if decide (1 < S i)%nat then gauss k (length samples)
                else (λ _, 0) <$> samples) in
  ddpm_step gauss nn_model g save_rate (S i) (samples, intermediate) k
  = Some ((new,
           if decide (S i mod save_rate = 0 ∨ S i = timesteps g ∨ S i < 8)%nat
           then intermediate ++ [new] else intermediate),
          if decide (1 < S i)%nat then S k else k)
  ∧ length new = length samples.
Proof.
  intros Hsr Hai Habi Hbi new.
  assert (Hbool : ∀ n : nat,
            bool_decide (n mod save_rate = 0)%nat
            || bool_decide (n = timesteps g) || bool_decide (n < 8)%nat
            = bool_decide (n mod save_rate = 0 ∨ n = timesteps g ∨ n < 8)%nat).
  { intros n. repeat case_bool_decide; cbn; try done; tauto. }
  subst new. destruct (decide (1 < S i)%nat) as [Hlt|Hnlt].
  - split.
    + rewrite (ddpm_step_noisy gauss nn_model g gauss_shape nn_model_shape
                 _ _ _ _ _ a ab b) by done.
      rewrite Hbool. case_bool_decide; case_decide; done.
    + apply length_reverse_step_all; by rewrite ?gauss_shape.
  - assert (i = 0%nat) as -> by lia. split.
    + rewrite (ddpm_step_last gauss nn_model g nn_model_shape
                 _ _ _ _ a ab b) by done.
      rewrite Hbool. case_bool_decide; case_decide; done.
    + apply length_reverse_step_all; by rewrite ?length_fmap.
Qed.

(** The loop from index [i]: [s j] is the sample held when the steps
    [i, i - 1, ..., j + 1] have been done. *)
Lemma ddpm_loop_trajectory (save_rate : nat) :
  (0 < save_rate)%nat →
  ∀ (i : nat) (samples : list R) (intermediate : list (list R)) (k : nat),
    (i < length (a_t g))%nat → (i < length (ab_t g))%nat →
    (i < length (b_t g))%nat →
    ∃ s : nat → list R,
      s i = samples
      ∧ (∀ j : nat, (1 ≤ j ≤ i)%nat →
           ∃ a ab b,
             a_t g !! j = Some a ∧ ab_t g !! j = Some ab
             ∧ b_t g !! j = Some b
             ∧ s (j - 1)%nat
               = reverse_step_all a ab b (s j)
                   (nn_model (s j) (INR j / INR (timesteps g)))
                   (if decide (1 < j)%nat
                    then gauss (k + (i - j))%nat (length (s j))
                    else (λ _, 0) <$> s j))
      ∧ (∀ j : nat, (j ≤ i)%nat → length (s j) = length samples)
      ∧ ddpm_loop gauss nn_model g save_rate i (samples, intermediate) k
        = Some ((s 0%nat,
                 intermediate
                 ++ ((λ j : nat, s (j - 1)%nat)
                     <$> filter (λ n, n mod save_rate = 0 ∨ n = timesteps g
                                      ∨ n < 8)%nat
                           (reverse (seq 1 i)))),
                (k + (i - 1))%nat).
Proof.
  intros Hsr. induction i as [|i IH]; intros samples intermediate k Ha Hab Hb.
  { exists (λ _, samples). split; [done|]. split; [intros j Hj; lia|].
    split; [done|]. cbn [ddpm_loop seq].
    rewrite reverse_nil, filter_nil, fmap_nil, app_nil_r.
    replace (k + (0 - 1))%nat with k by lia. done. }
  destruct (lookup_lt_is_Some_2 _ _ Ha) as [a Hai].
  destruct (lookup_lt_is_Some_2 _ _ Hab) as [ab Habi].
  destruct (lookup_lt_is_Some_2 _ _ Hb) as [b Hbi].
  destruct (ddpm_step_update save_rate i samples intermediate k a ab b
              Hsr Hai Habi Hbi) as [Hstep Hnew].
  set (new := reverse_step_all a ab b samples
                (nn_model samples (INR (S i) / INR (timesteps g)))
                (if decide (1 < S i)%nat then gauss k (length samples)
                 else (λ _, 0) <$> samples)) in *.
  set (int' := if decide (S i mod save_rate = 0 ∨ S i = timesteps g
                          ∨ S i < 8)%nat
               then intermediate ++ [new] else intermediate) in *.
  set (k' := if decide (1 < S i)%nat then S k else k) in *.
  destruct (IH new int' k') as (s' & Hs'i & Hrec & Hlen & Hloop); [lia..|].
  exists (λ j, if decide (j = S i) then samples else s' j).
  split; [by rewrite decide_True|]. split.
  { intros j Hj. destruct (decide (j = S i)) as [->|Hne].
    - exists a, ab, b. split; [done|]. split; [done|]. split; [done|].
      replace (S i - 1)%nat with i by lia.
      rewrite decide_False by lia. rewrite Hs'i.
      replace (k + (S i - S i))%nat with k by lia. done.
    - destruct (Hrec j) as (a' & ab' & b' & Ha' & Hab' & Hb' & Hstep');
        [lia|].
      exists a', ab', b'. split; [done|]. split; [done|]. split; [done|].
      rewrite decide_False by lia. rewrite Hstep'.
      replace (k' + (i - j))%nat with (k + (S i - j))%nat; [done|].
      unfold k'. rewrite decide_True by lia. lia. }
  split.
  { intros j Hj. case_decide; [done|]. rewrite Hlen by lia. exact Hnew. }
  cbn [ddpm_loop]. unfold mbind at 1. unfold sampler_bind at 1.
  rewrite Hstep, Hloop. rewrite decide_False by lia.
  f_equal. f_equal; [|unfold k'; case_decide; lia]. f_equal.
  rewrite seq_S, reverse_snoc. replace (1 + i)%nat with (S i) by lia.
  assert (Hext : (λ j : nat, if decide ((j - 1)%nat = S i) then samples
                             else s' (j - 1)%nat)
                 <$> filter (λ n, n mod save_rate = 0 ∨ n = timesteps g
                                  ∨ n < 8)%nat (reverse (seq 1 i))
                 = (λ j : nat, s' (j - 1)%nat)
                   <$> filter (λ n, n mod save_rate = 0 ∨ n = timesteps g
                                    ∨ n < 8)%nat (reverse (seq 1 i))).
  { apply Forall_fmap_ext_1, Forall_forall. intros j Hj.
    apply list_elem_of_filter in Hj as [_ Hj].
    apply elem_of_reverse, elem_of_seq in Hj.
    by rewrite decide_False by lia. }
  unfold int'. case_decide as Hsave.
  - rewrite filter_cons_True by done. rewrite fmap_cons, Hext.
    replace (S i - 1)%nat with i by lia.
    rewrite decide_False by lia. rewrite Hs'i.
    by rewrite <- app_assoc.
  - rewrite filter_cons_False by done. by rewrite Hext.
Qed.

(** X5: [sample_ddpm] runs to completion whenever the schedule arrays
    cover the indices [1..timesteps] and [save_rate] is positive, and what
    it returns is this.  Let [s timesteps] be the initial noise (draw [k]
    of the generator) and [s (i - 1)] the reverse update of [s i] at step
    [i], with the generator's next draw as noise when [i > 1] and none at
    [i = 1].  Then the returned sample is [s 0], the returned frames are
    exactly the samples [s (i - 1)] left by the steps [i] with
    [i % save_rate == 0], [i == timesteps] or [i < 8], in the order
    [timesteps, ..., 1] of the loop (so the last frame is the returned
    sample), every one of the initial shape, and [timesteps] draws have
    been taken. *)
Theorem X5_sample_ddpm_frames (n_sample save_rate k : nat) :
  (0 < save_rate)%nat → (0 < timesteps g)%nat →
  (timesteps g < length (a_t g))%nat → (timesteps g < length (ab_t g))%nat →
  (timesteps g < length (b_t g))%nat →
  ∃ s : nat → list R,
    s (timesteps g) = gauss k (n_sample * 3 * height g * height g)
    ∧ (∀ i : nat, (1 ≤ i ≤ timesteps g)%nat →
         ∃ a ab b,
           a_t g !! i = Some a ∧ ab_t g !! i = Some ab ∧ b_t g !! i = Some b
           ∧ s (i - 1)%nat
             = reverse_step_all a ab b (s i)
                 (nn_model (s i) (INR i / INR (timesteps g)))
                 (if decide (1 < i)%nat
                  then gauss (S k + (timesteps g - i))%nat (length (s i))
                  else (λ _, 0) <$> s i))
    ∧ (∀ i : nat, (i ≤ timesteps g)%nat →
         length (s i) = (n_sample * 3 * height g * height g)%nat)
    ∧ sample_ddpm gauss nn_model g n_sample save_rate k
      = Some ((s 0%nat,
               (λ i : nat, s (i - 1)%nat)
               <$> filter (λ i, i mod save_rate = 0 ∨ i = timesteps g
                                ∨ i < 8)%nat
                     (reverse (seq 1 (timesteps g)))),
              (k + timesteps g)%nat)
    ∧ last ((λ i : nat, s (i - 1)%nat)
            <$> filter (λ i, i mod save_rate = 0 ∨ i = timesteps g
                             ∨ i < 8)%nat
                  (reverse (seq 1 (timesteps g))))
      = Some (s 0%nat).
Proof.
  intros Hsr HT Ha Hab Hb.
  destruct (ddpm_loop_trajectory save_rate Hsr (timesteps g)
              (gauss k (n_sample * 3 * height g * height g)) [] (S k)
              Ha Hab Hb) as (s & Hs & Hrec & Hlen & Hloop).
  assert (Hlast : last ((λ i : nat, s (i - 1)%nat)
                        <$> filter (λ i, i mod save_rate = 0 ∨ i = timesteps g
                                         ∨ i < 8)%nat
                              (reverse (seq 1 (timesteps g))))
                  = Some (s 0%nat)).
  { destruct (timesteps g) as [|T]; [lia|].
    cbn [seq]. rewrite reverse_cons, filter_app, fmap_app.
    rewrite filter_cons_True by lia. rewrite filter_nil.
    cbn [fmap list_fmap]. by rewrite last_snoc. }
  exists s. split; [done|]. split; [done|]. split.
  { intros i Hi. by rewrite Hlen, gauss_shape. }
  split; [|done].
  unfold sample_ddpm.
  unfold mbind at 1. unfold sampler_bind at 1. unfold randn at 1.
  unfold mbind at 1. unfold sampler_bind at 1.
  rewrite Hloop. cbn [app snd].
  destruct ((λ i : nat, s (i - 1)%nat)
            <$> filter (λ i, i mod save_rate = 0 ∨ i = timesteps g ∨ i < 8)%nat
                  (reverse (seq 1 (timesteps g)))) as [|f fr] eqn:Hfr;
    [done|].
  unfold mret, sampler_ret. do 2 f_equal. lia.
Qed.

(** X6: with [save_rate = 0] the first iteration's [i % save_rate] raises,
    so [sample_ddpm] fails for every positive [timesteps]. *)
Theorem X6_sample_ddpm_zero_save_rate (n_sample k : nat) :
  (0 < timesteps g)%nat →
  sample_ddpm gauss nn_model g n_sample 0 k = None.
Proof.
  intros HT. unfold sample_ddpm.
  unfold mbind at 1. unfold sampler_bind at 1. unfold randn at 1.
  unfold mbind at 1. unfold sampler_bind at 1.
  destruct (timesteps g) as [|T] eqn:HTg; [lia|].
  cbn [ddpm_loop]. unfold mbind at 1. unfold sampler_bind at 1.
  assert (Hstep : ∀ st k', ddpm_step gauss nn_model g 0 (S T) st k' = None).
  { intros [samples intermediate] k'. unfold ddpm_step.
    unfold mbind, sampler_bind, raise.
    repeat (case_match; try done). }
  by rewrite Hstep.
Qed.

End Frames.

(** X5 on a two-step schedule with one one-pixel sample. *)
Lemma X5_two_step_example :
  let gauss : nat → nat → list R := λ _ n, replicate n 1 in
  let nn_model : list R → R → list R := λ x _, (λ _, 0) <$> x in
  let g := Globals 2 0.1 0.3 1 [0.1; 0.2; 0.3] [0.9; 0.8; 0.7] [1; 0.8; 0.56] in
  (0 < 20)%nat ∧ (0 < timesteps g)%nat
  ∧ (timesteps g < length (a_t g))%nat ∧ (timesteps g < length (ab_t g))%nat
  ∧ (timesteps g < length (b_t g))%nat
  ∧ ∃ s : nat → list R,
      s (timesteps g) = gauss 0%nat (1 * 3 * height g * height g)%nat
      ∧ (∀ i : nat, (1 ≤ i ≤ timesteps g)%nat →
           ∃ a ab b,
             a_t g !! i = Some a ∧ ab_t g !! i = Some ab
             ∧ b_t g !! i = Some b
             ∧ s (i - 1)%nat
               = reverse_step_all a ab b (s i)
                   (nn_model (s i) (INR i / INR (timesteps g)))
                   (if decide (1 < i)%nat
                    then gauss (1 + (timesteps g - i))%nat (length (s i))
                    else (λ _, 0) <$> s i))
      ∧ (∀ i : nat, (i ≤ timesteps g)%nat →
           length (s i) = (1 * 3 * height g * height g)%nat)
      ∧ sample_ddpm gauss nn_model g 1 20 0%nat
        = Some ((s 0%nat,
                 (λ i : nat, s (i - 1)%nat)
                 <$> filter (λ i, i mod 20 = 0 ∨ i = timesteps g ∨ i < 8)%nat
                       (reverse (seq 1 (timesteps g)))),
                (0 + timesteps g)%nat)
      ∧ last ((λ i : nat, s (i - 1)%nat)
              <$> filter (λ i, i mod 20 = 0 ∨ i = timesteps g ∨ i < 8)%nat
                    (reverse (seq 1 (timesteps g))))
        = Some (s 0%nat).
Proof.
  intros gauss nn_model g.
  assert (H1 : (0 < 20)%nat) by lia.
  assert (H2 : (0 < timesteps g)%nat) by (simpl; lia).
  assert (H3 : (timesteps g < length (a_t g))%nat) by (simpl; lia).
  assert (H4 : (timesteps g < length (ab_t g))%nat) by (simpl; lia).
  assert (H5 : (timesteps g < length (b_t g))%nat) by (simpl; lia).
  repeat (split; [assumption|]).
  exact (X5_sample_ddpm_frames gauss nn_model g
           (λ _ n, length_replicate n 1) (λ x _, length_fmap _ x)
           1 20 0%nat H1 H2 H3 H4 H5).
Defined.

(** X6 on the same schedule. *)
Lemma X6_two_step_example :
  let gauss : nat → nat → list R := λ _ n, replicate n 1 in
  let nn_model : list R → R → list R := λ x _, (λ _, 0) <$> x in
  let g := Globals 2 0.1 0.3 1 [0.1; 0.2; 0.3] [0.9; 0.8; 0.7] [1; 0.8; 0.56] in
  (0 < timesteps g)%nat
  ∧ sample_ddpm gauss nn_model g 1 0 0%nat = None.
Proof.
  intros gauss nn_model g.
  assert (H1 : (0 < timesteps g)%nat) by (simpl; lia).
  split; [exact H1|].
  exact (X6_sample_ddpm_zero_save_rate gauss nn_model g 1 0%nat H1).
Defined.

End DDPMMore.

(** ** The NeRF renderer: batching *)

Module NeRFMore.
Import Tensor TensorFacts NeRF NeRFFacts.

(** *** [batch_generator] *)

Lemma batch_take {A} (inputs : list A) (bs i : nat) :
  take (i + bs `min` length inputs - i) (drop i inputs)
  = take bs (drop i inputs).
Proof.
  destruct (decide (i + bs ≤ length inputs)%nat) as [Hle|Hgt].
  - f_equal. lia.
  - rewrite !take_ge; [done|rewrite length_drop; lia..].
Qed.

Lemma take_plus {A} (a b : nat) (l : list A) :
  take (a + b) l = take a l ++ take b (drop a l).
Proof.
  revert l. induction a as [|a IH]; intros [|x l]; cbn; try done.
  - by rewrite take_nil.
  - by rewrite IH.
Qed.

Lemma concat_batches {A} (inputs : list A) (bs n : nat) :
  concat ((λ k, take bs (drop (k * bs) inputs)) <$> seq 0 n)
  = take (n * bs) inputs.
Proof.
  induction n as [|n IH]; [done|].
  rewrite seq_S, fmap_app, concat_app, IH. cbn [fmap list_fmap concat].
  rewrite app_nil_r.
  replace (S n * bs)%nat with (n * bs + bs)%nat by lia.
  by rewrite take_plus.
Qed.

Lemma batch_count (l bs : nat) :
  (0 < bs)%nat →
  let n := ((l + bs - 1) / bs)%nat in
  (l ≤ n * bs)%nat ∧ ((n - 1) * bs < l ∨ n = 0)%nat.
Proof.
  intros Hbs n. subst n.
  pose proof (Nat.div_mod_eq (l + bs - 1) bs) as Hdm.
  pose proof (Nat.mod_upper_bound (l + bs - 1) bs) as Hub.
  split; [nia|].
  destruct (decide (l = 0)%nat) as [->|Hl].
  - right. apply Nat.div_small. lia.
  - left. nia.
Qed.

Lemma batch_generator_Some {A} (inputs : list A) (bs : nat) :
  (0 < bs)%nat →
  ∃ batches,
    batch_generator inputs bs = Some batches
    ∧ batches = (λ k, take bs (drop (k * bs) inputs))
                <$> seq 0 ((length inputs + bs - 1) / bs)
    ∧ concat batches = inputs.
Proof.
  intros Hbs. destruct (batch_count (length inputs) bs Hbs) as [Hcover _].
  eexists. split; [|split; [reflexivity|]].
  - destruct bs as [|bs']; [lia|]. unfold batch_generator. f_equal.
    unfold range_step. rewrite <- list_fmap_compose.
    apply list_fmap_ext. intros _ k _. cbn [compose]. apply batch_take.
  - rewrite concat_batches. apply take_ge. lia.
Qed.

(** X7: [batch_generator] cuts its input into consecutive batches without
    losing, repeating or reordering a row.  For a positive [batch_size] the
    batches concatenate back to the input, there are
    ceil(len / batch_size) of them, none is empty, every one but the last
    has exactly [batch_size] rows and the last has at most that many; a
    zero [batch_size] raises. *)
Theorem X7_batch_generator_partition {A} (inputs : list A) (batch_size : nat) :
  match batch_size with
  | O => batch_generator inputs batch_size = None
  | S _ =>
      ∃ batches,
        batch_generator inputs batch_size = Some batches
        ∧ concat batches = inputs
        ∧ length batches
          = ((length inputs + batch_size - 1) / batch_size)%nat
        ∧ (∀ (i : nat) (b : list A), batches !! i = Some b →
             (0 < length b ≤ batch_size)%nat
             ∧ ((S i < length batches)%nat → length b = batch_size))
  end.
Proof.
  destruct batch_size as [|bs']; [done|].
  set (bs := S bs'). assert (Hbs : (0 < bs)%nat) by (unfold bs; lia).
  destruct (batch_count (length inputs) bs Hbs) as [Hcover Hlast].
  destruct (batch_generator_Some inputs bs Hbs) as (batches & Hb & -> & Hcat).
  set (n := ((length inputs + bs - 1) / bs)%nat) in *.
  eexists. split; [exact Hb|]. split; [exact Hcat|].
  split; [by rewrite length_fmap, length_seq|].
  intros i b Hi. rewrite list_lookup_fmap in Hi.
  destruct (seq 0 n !! i) as [k|] eqn:Hk; [|done].
  apply lookup_seq in Hk as [-> Hin]. cbn in Hi. injection Hi as <-.
  rewrite length_fmap, length_seq, length_take, length_drop.
  destruct Hlast as [Hlast|Hn0]; [|lia].
  assert (i * bs ≤ (n - 1) * bs)%nat by (apply Nat.mul_le_mono_r; lia).
  split; [lia|]. intros Hnext.
  assert (S i * bs ≤ (n - 1) * bs)%nat by (apply Nat.mul_le_mono_r; lia).
  lia.
Qed.

(** *** Batching and the network *)

Lemma concat_fmap_rows (f : list R → list R) (batches : list (list (list R))) :
  concat ((λ batch : list (list R), f <$> batch) <$> batches)
  = f <$> concat batches.
Proof.
  induction batches as [|b batches IH]; [done|].
  cbn [fmap list_fmap concat]. rewrite fmap_app. by f_equal.
Qed.

Lemma query_radiance_rowwise (f : list R → list R)
    (encoding_fn : list (list R) → list (list R)) (bs n_rays N_samples : nat)
    (pts : list (list (list R))) :
  (0 < bs)%nat →
  query_radiance (fmap f) encoding_fn bs n_rays N_samples pts
  = reshape_radiance n_rays N_samples (f <$> encoding_fn (concat pts)).
Proof.
  intros Hbs. unfold query_radiance.
  destruct (batch_generator_Some (encoding_fn (concat pts)) bs Hbs)
    as (batches & -> & _ & Hcat).
  cbn [mbind option_bind]. by rewrite concat_fmap_rows, Hcat.
Qed.

(** X8: for a network that maps each encoded point on its own (as every
    layer of [TinyNeRF] does), the result of [render_rays] does not depend
    on the batch size the points are fed in, as long as it is positive. *)
Theorem X8_render_rays_batch_size_irrelevant (f : list R → list R)
    (rays_o rays_d : list (list R)) (near far : R) (N_samples : nat)
    (encoding_fn : list (list R) → list (list R)) (rand : bool)
    (u : list (list R)) (bs1 bs2 : nat) :
  (0 < bs1)%nat → (0 < bs2)%nat →
  render_rays (fmap f) rays_o rays_d near far N_samples encoding_fn rand bs1 u
  = render_rays (fmap f) rays_o rays_d near far N_samples encoding_fn rand bs2 u.
Proof.
  intros H1 H2. unfold render_rays.
  case_decide; [|done].
  destruct (sample_z_vals _ near far N_samples rand u) as [z_vals|]; [|done].
  cbn [mbind option_bind].
  by rewrite !query_radiance_rowwise.
Qed.

Lemma X8_batch_sizes_1_and_64 :
  (0 < 1)%nat ∧ (0 < 64)%nat
  ∧ render_rays (fmap (λ _, [0; 0; 0; 1])) [[0; 0; 0]] [[0; 0; 1]] 2 6 2
      (λ x, x) false 1 []
    = render_rays (fmap (λ _, [0; 0; 0; 1])) [[0; 0; 0]] [[0; 0; 1]] 2 6 2
        (λ x, x) false 64 [].
Proof.
  assert (H1 : (0 < 1)%nat) by lia.
  assert (H2 : (0 < 64)%nat) by lia.
  split; [exact H1|]. split; [exact H2|].
  exact (X8_render_rays_batch_size_irrelevant (λ _, [0; 0; 0; 1])
           [[0; 0; 0]] [[0; 0; 1]] 2 6 2 (λ x, x) false [] 1 64 H1 H2).
Defined.

End NeRFMore.

(** ** The NeRF renderer: depth range and opacity bounds *)

Module NeRFBounds.
Import Tensor TensorFacts NeRF NeRFFacts.

(** *** Where the depth samples lie *)

Lemma sample_z_vals_lookup (n_rays : nat) (near far : R) (N_samples : nat)
    (rand : bool) (u z_vals : list (list R)) (r : nat) (z : list R)
    (i : nat) (x : R) :
  sample_z_vals n_rays near far N_samples rand u = Some z_vals →
  z_vals !! r = Some z → z !! i = Some x →
  (i < N_samples)%nat
  ∧ ∃ j : R,
      x = j * (far - near) / INR N_samples
          + (near + INR i * ((far - near) / INR (N_samples - 1)))
      ∧ if rand then ∃ u_r, u !! r = Some u_r ∧ u_r !! i = Some j
        else j = 0.
Proof.
  unfold sample_z_vals. destruct rand.
  - case_decide; [|done]. intros Hm Hz Hx. apply mapM_Some in Hm.
    destruct (Forall2_lookup_r _ _ _ _ _ Hm Hz) as (u_r & Hur & Hzr).
    apply zip2_Some_inv in Hzr as [Hl ->].
    apply lookup_zip_with_Some in Hx as (a & b & -> & Ha & Hb).
    rewrite list_lookup_fmap in Ha.
    destruct (u_r !! i) as [j|] eqn:Hj; [|done].
    cbn in Ha. injection Ha as <-.
    assert (Hi : (i < N_samples)%nat).
    { apply lookup_lt_Some in Hb. by rewrite length_linspace in Hb. }
    rewrite linspace_lookup in Hb by done. injection Hb as <-.
    split; [done|]. exists j. split; [done|]. by exists u_r.
  - intros [= <-] [-> _]%lookup_replicate Hx.
    assert (Hi : (i < N_samples)%nat).
    { apply lookup_lt_Some in Hx. by rewrite length_linspace in Hx. }
    rewrite linspace_lookup in Hx by done. injection Hx as <-.
    split; [done|]. exists 0. split; [lra|done].
Qed.

Lemma linspace_point_range (near far : R) (N_samples i : nat) :
  near < far → (i < N_samples)%nat →
  near <= near + INR i * ((far - near) / INR (N_samples - 1)) <= far.
Proof.
  intros Hnf Hi.
  destruct (decide (N_samples = 1%nat)) as [->|HN].
  { replace i with 0%nat by lia. cbn [INR]. lra. }
  assert (HN1 : 0 < INR (N_samples - 1)) by (apply lt_0_INR; lia).
  assert (Hle : INR i <= INR (N_samples - 1)) by (apply le_INR; lia).
  pose proof (pos_INR i) as Hi0.
  assert (Hq : 0 <= INR i / INR (N_samples - 1) <= 1).
  { split.
    - apply Rmult_le_pos; [done|]. left. by apply Rinv_0_lt_compat.
    - apply (Rmult_le_reg_r (INR (N_samples - 1))); [done|].
      unfold Rdiv. rewrite Rmult_assoc, Rinv_l by lra. lra. }
  replace (INR i * ((far - near) / INR (N_samples - 1)))
    with (INR i / INR (N_samples - 1) * (far - near))
    by (field; lra).
  split; nra.
Qed.

Lemma jitter_range (near far j : R) (N_samples : nat) :
  near < far → (1 ≤ N_samples)%nat → 0 <= j < 1 →
  0 <= j * (far - near) / INR N_samples < (far - near) / INR N_samples.
Proof.
  intros Hnf HN [Hj0 Hj1].
  assert (HN0 : 0 < INR N_samples) by (apply lt_0_INR; lia).
  assert (Hd : 0 < (far - near) / INR N_samples).
  { apply Rmult_lt_0_compat; [lra|]. by apply Rinv_0_lt_compat. }
  replace (j * (far - near) / INR N_samples)
    with (j * ((far - near) / INR N_samples)) by (field; lra).
  split; nra.
Qed.

(** X9: with [rand=True] every depth sample lies in its own bin of width
    [(far - near) / N_samples] starting at the evenly spaced point
    [near + i * (far - near) / (N_samples - 1)]; so all samples are at least
    [near] and below [far + (far - near) / N_samples], and the last sample
    of a ray is never before [far]. *)
Theorem X9_jittered_depths_range (n_rays : nat) (near far : R)
    (N_samples : nat) (u z_vals : list (list R)) :
  near < far → (1 ≤ N_samples)%nat →
  Forall (Forall (λ x, 0 <= x < 1)) u →
  sample_z_vals n_rays near far N_samples true u = Some z_vals →
  ∀ (r : nat) (z : list R) (i : nat) (x : R),
    z_vals !! r = Some z → z !! i = Some x →
    let start := near + INR i * ((far - near) / INR (N_samples - 1)) in
    start <= x < start + (far - near) / INR N_samples
    ∧ near <= x < far + (far - near) / INR N_samples
    ∧ (i = (N_samples - 1)%nat → (2 ≤ N_samples)%nat → far <= x).
Proof.
  intros Hnf HN Hu Hz r z i x Hr Hx start.
  destruct (sample_z_vals_lookup _ _ _ _ _ _ _ _ _ _ _ Hz Hr Hx)
    as (Hi & j & -> & u_r & Hur & Hj).
  pose proof (Forall_lookup_1 _ _ _ _ Hu Hur) as Hrow.
  pose proof (Forall_lookup_1 _ _ _ _ Hrow Hj) as Hj01. cbn beta in Hj01.
  pose proof (jitter_range near far j N_samples Hnf HN Hj01) as Hjit.
  pose proof (linspace_point_range near far N_samples i Hnf Hi) as Hlin.
  fold start. fold start in Hlin.
  split; [lra|]. split; [lra|].
  intros -> HN2.
  assert (Hstart : start = far).
  { unfold start.
    assert (0 < INR (N_samples - 1)) by (apply lt_0_INR; lia).
    field. lra. }
  lra.
Qed.

Lemma X9_two_jittered_samples :
  2 < 6 ∧ (1 ≤ 2)%nat
  ∧ Forall (Forall (λ x, 0 <= x < 1)) [[0.5; 0.25]]
  ∧ sample_z_vals 1 2 6 2 true [[0.5; 0.25]]
    = Some [[0.5 * (6 - 2) / INR 2 + (2 + INR 0 * ((6 - 2) / INR (2 - 1)));
             0.25 * (6 - 2) / INR 2 + (2 + INR 1 * ((6 - 2) / INR (2 - 1)))]]
  ∧ ∀ (r : nat) (z : list R) (i : nat) (x : R),
      [[0.5 * (6 - 2) / INR 2 + (2 + INR 0 * ((6 - 2) / INR (2 - 1)));
        0.25 * (6 - 2) / INR 2 + (2 + INR 1 * ((6 - 2) / INR (2 - 1)))]]
        !! r = Some z →
      z !! i = Some x →
      let start := 2 + INR i * ((6 - 2) / INR (2 - 1)) in
      start <= x < start + (6 - 2) / INR 2
      ∧ 2 <= x < 6 + (6 - 2) / INR 2
      ∧ (i = (2 - 1)%nat → (2 ≤ 2)%nat → 6 <= x).
Proof.
  assert (H1 : 2 < 6) by lra.
  assert (H2 : (1 ≤ 2)%nat) by lia.
  assert (H3 : Forall (Forall (λ x, 0 <= x < 1)) [[0.5; 0.25]]).
  { repeat constructor; lra. }
  assert (H4 : sample_z_vals 1 2 6 2 true [[0.5; 0.25]]
    = Some [[0.5 * (6 - 2) / INR 2 + (2 + INR 0 * ((6 - 2) / INR (2 - 1)));
             0.25 * (6 - 2) / INR 2 + (2 + INR 1 * ((6 - 2) / INR (2 - 1)))]])
    by reflexivity.
  repeat (split; [assumption|]).
  exact (X9_jittered_depths_range 1 2 6 2 [[0.5; 0.25]] _ H1 H2 H3 H4).
Defined.

(** *** Depths never decrease along a ray *)

Lemma sample_z_vals_nondecreasing (n_rays : nat) (near far : R)
    (N_samples : nat) (rand : bool) (u z_vals : list (list R)) :
  near < far →
  (rand = true → Forall (Forall (λ x, 0 <= x < 1)) u) →
  sample_z_vals n_rays near far N_samples rand u = Some z_vals →
  ∀ (r : nat) (z : list R) (i : nat) (x y : R),
    z_vals !! r = Some z → z !! i = Some x → z !! S i = Some y → x < y.
Proof.
  intros Hnf Hu Hz r z i x y Hr Hx Hy.
  destruct (sample_z_vals_lookup _ _ _ _ _ _ _ _ _ _ _ Hz Hr Hx)
    as (Hi & j0 & -> & Hj0).
  destruct (sample_z_vals_lookup _ _ _ _ _ _ _ _ _ _ _ Hz Hr Hy)
    as (HSi & j1 & -> & Hj1).
  assert (Hj : j0 < 1 ∧ 0 <= j1).
  { destruct rand.
    - destruct Hj0 as (u_r & Hur & Hj0). destruct Hj1 as (u_r' & Hur' & Hj1).
      rewrite Hur in Hur'. injection Hur' as <-.
      pose proof (Forall_lookup_1 _ _ _ _ (Hu eq_refl) Hur) as Hrow.
      pose proof (Forall_lookup_1 _ _ _ _ Hrow Hj0) as H0.
      pose proof (Forall_lookup_1 _ _ _ _ Hrow Hj1) as H1.
      cbn beta in H0, H1. lra.
    - subst. lra. }
  apply jitter_step; [done|lia|tauto|tauto].
Qed.

(** *** Bounds on the rendered maps *)

Lemma relu_nonneg (x : R) : 0 <= relu x.
Proof. unfold relu. apply Rmax_l. Qed.

Lemma sigmoid_unit_interval (x : R) : 0 < sigmoid x < 1.
Proof.
  unfold sigmoid. pose proof (exp_pos (- x)) as He.
  assert (Hd : 0 < 1 + exp (- x)) by lra.
  split.
  - apply Rdiv_lt_0_compat; lra.
  - apply (Rmult_lt_reg_r (1 + exp (- x))); [done|].
    unfold Rdiv. rewrite Rmult_assoc, Rinv_l by lra. lra.
Qed.

Lemma exp_nonpos_le_1 (x : R) : x <= 0 → 0 < exp x <= 1.
Proof.
  intros Hx. split; [apply exp_pos|].
  destruct Hx as [Hx| ->]; [|rewrite exp_0; lra].
  left. rewrite <- exp_0. by apply exp_increasing.
Qed.

Lemma delta_nonneg (z : list R) (i : nat) :
  (∀ (k : nat) (x y : R), z !! k = Some x → z !! S k = Some y → x <= y) →
  0 <= delta z i.
Proof.
  intros Hinc. unfold delta. case_decide as Hi; [|lra].
  destruct (lookup_lt_is_Some_2 z i) as [x Hx]; [lia|].
  destruct (lookup_lt_is_Some_2 z (S i)) as [y Hy]; [lia|].
  rewrite (nth_lookup_Some _ _ _ _ Hx), (nth_lookup_Some _ _ _ _ Hy).
  specialize (Hinc i x y Hx Hy). lra.
Qed.

Lemma alpha_at_unit_interval (z : list R) (rf : list (list R)) (i : nat) :
  (∀ (k : nat) (x y : R), z !! k = Some x → z !! S k = Some y → x <= y) →
  0 <= alpha_at (density rf) z i < 1.
Proof.
  intros Hinc. unfold alpha_at.
  pose proof (relu_nonneg (nth 3 (nth i rf []) 0)) as Hs.
  fold (density rf i) in Hs.
  pose proof (delta_nonneg z i Hinc) as Hd.
  assert (Hx : - density rf i * delta z i <= 0) by nra.
  pose proof (exp_nonpos_le_1 _ Hx). lra.
Qed.

Lemma transmittance_range (al : nat → R) (n : nat) :
  (∀ i : nat, 0 <= al i < 1) →
  0 < transmittance al n <= (1 + 1e-10) ^ n.
Proof.
  intros Hal. induction n as [|n IH]; cbn [transmittance pow]; [lra|].
  specialize (Hal n). split; [apply Rmult_lt_0_compat; lra|].
  rewrite (Rmult_comm (1 + 1e-10)).
  apply Rmult_le_compat; lra.
Qed.

Lemma big_sum_le (n : nat) (f h : nat → R) :
  (∀ i : nat, (i < n)%nat → f i <= h i) → big_sum n f <= big_sum n h.
Proof.
  intros Hfh. induction n as [|n IH]; cbn [big_sum]; [lra|].
  assert (big_sum n f <= big_sum n h) by (apply IH; intros; apply Hfh; lia).
  assert (f n <= h n) by (apply Hfh; lia). lra.
Qed.

Lemma big_sum_nonneg (n : nat) (f : nat → R) :
  (∀ i : nat, (i < n)%nat → 0 <= f i) → 0 <= big_sum n f.
Proof.
  intros Hf. induction n as [|n IH]; cbn [big_sum]; [lra|].
  assert (0 <= big_sum n f) by (apply IH; intros; apply Hf; lia).
  assert (0 <= f n) by (apply Hf; lia). lra.
Qed.

(** The weights and what is left of the light add up to at most
    [(1 + 1e-10) ^ n]: without the [1e-10] in the code they would add up to
    exactly one. *)
Lemma opacity_budget (al : nat → R) (n : nat) :
  (∀ i : nat, 0 <= al i < 1) →
  big_sum n (λ i, transmittance al i * al i) + transmittance al n
  <= (1 + 1e-10) ^ n.
Proof.
  intros Hal. induction n as [|n IH]; cbn [big_sum transmittance pow]; [lra|].
  pose proof (transmittance_range al n Hal) as [HT _].
  assert (HS : 0 <= big_sum n (λ i, transmittance al i * al i)).
  { apply big_sum_nonneg. intros i _.
    pose proof (transmittance_range al i Hal). specialize (Hal i). nra. }
  specialize (Hal n). nra.
Qed.

Lemma volume_render_bounds (z : list R) (rf : list (list R)) :
  (1 ≤ length z)%nat → length rf = length z →
  (∀ (i : nat) (row : list R), rf !! i = Some row → length row = 4%nat) →
  (∀ (k : nat) (x y : R), z !! k = Some x → z !! S k = Some y → x <= y) →
  ∃ rgb_map depth_map acc_map,
    volume_render z rf = Some (rgb_map, depth_map, acc_map)
    ∧ length rgb_map = 3%nat
    ∧ 0 <= acc_map <= (1 + 1e-10) ^ length z
    ∧ Forall (λ c, 0 <= c <= acc_map) rgb_map.
Proof.
  intros Hz Hrf Hrows Hinc.
  destruct (volume_render_composite z rf Hz Hrf Hrows)
    as (rgb_map & depth_map & acc_map & Hv & Hlen & Hrgb).
  exists rgb_map, depth_map, acc_map. split; [done|]. split; [done|].
  set (al := alpha_at (density rf) z).
  assert (Hal : ∀ i : nat, 0 <= al i < 1).
  { intros i. by apply alpha_at_unit_interval. }
  assert (Hacc : acc_map = big_sum (length z) (λ i, transmittance al i * al i)).
  { destruct (weights_recurrence z rf Hz Hrf)
      as (al' & w & Hal' & Hw & Hwlen & Hwi).
    unfold volume_render in Hv. rewrite Hal' in Hv.
    cbn [mbind option_bind] in Hv. rewrite Hw in Hv.
    cbn [mbind option_bind] in Hv.
    destruct (zip2 Rmult w z) as [wz|]; [|done].
    cbn [mbind option_bind] in Hv. injection Hv as _ _ <-.
    rewrite <- Hwlen. apply sum_big_sum. intros i x Hx.
    assert (Hi : (i < length z)%nat).
    { apply lookup_lt_Some in Hx. lia. }
    rewrite (Hwi i Hi) in Hx. injection Hx as <-. done. }
  assert (Hterm : ∀ i : nat, 0 <= transmittance al i * al i).
  { intros i. pose proof (transmittance_range al i Hal).
    specialize (Hal i). nra. }
  split.
  { rewrite Hacc. split; [by apply big_sum_nonneg|].
    pose proof (opacity_budget al (length z) Hal).
    pose proof (transmittance_range al (length z) Hal). lra. }
  apply Forall_lookup. intros ch c Hc.
  assert (Hch : (ch < 3)%nat) by (apply lookup_lt_Some in Hc; lia).
  rewrite (Hrgb ch Hch) in Hc. injection Hc as <-.
  rewrite Hacc. unfold composite. fold al.
  assert (Hcol : ∀ i : nat,
            0 <= transmittance al i * (1 - exp (- density rf i * delta z i))
                 * colour rf i ch
            <= transmittance al i * al i).
  { intros i. specialize (Hterm i).
    pose proof (sigmoid_unit_interval (nth ch (nth i rf []) 0)) as Hs.
    fold (colour rf i ch) in Hs.
    change (1 - exp (- density rf i * delta z i)) with (al i).
    nra. }
  split.
  - apply big_sum_nonneg. intros i _. apply Hcol.
  - apply big_sum_le. intros i _. apply Hcol.
Qed.

Lemma render_rays_rows
    (model encoding_fn : list (list R) → list (list R))
    (rays_o rays_d : list (list R)) (near far : R) (N_samples : nat)
    (rand : bool) (BATCH_SIZE : nat) (u z_vals : list (list R))
    (radiance_fields : list (list (list R))) :
  (1 ≤ N_samples)%nat →
  length rays_o = length rays_d →
  sample_z_vals (length rays_o) near far N_samples rand u = Some z_vals →
  query_radiance model encoding_fn BATCH_SIZE (length rays_o) N_samples
    (zip_with (λ od z, ray_points od.1 od.2 z) (zip rays_o rays_d) z_vals)
  = Some radiance_fields →
  ∃ out,
    render_rays model rays_o rays_d near far N_samples encoding_fn rand
      BATCH_SIZE u = Some out
    ∧ length out = length rays_o
    ∧ ∀ (r : nat) (res : list R * R * R), out !! r = Some res →
        ∃ z rf, z_vals !! r = Some z ∧ radiance_fields !! r = Some rf
          ∧ length z = N_samples ∧ length rf = N_samples
          ∧ (∀ (i : nat) (row : list R),
               rf !! i = Some row → length row = 4%nat)
          ∧ volume_render z rf = Some res.
Proof.
  intros HN Hrays Hz Hq.
  destruct (sample_z_vals_shape _ _ _ _ _ _ _ Hz) as [Hzlen Hzshape].
  pose proof Hq as Hq'. unfold query_radiance in Hq'.
  destruct (batch_generator _ BATCH_SIZE) as [batches|] eqn:Hb; [|done].
  cbn [mbind option_bind] in Hq'.
  destruct (reshape_radiance_shape _ _ _ _ Hq') as [Hrflen Hrfshape].
  unfold render_rays. rewrite decide_True by done.
  rewrite Hz. cbn [mbind option_bind]. rewrite Hq. cbn [mbind option_bind].
  destruct (mapM (λ zr, volume_render zr.1 zr.2) (zip z_vals radiance_fields))
    as [out|] eqn:Hout.
  2:{ exfalso. apply mapM_None in Hout.
      apply Exists_exists in Hout as ([z rf] & Hin & Hnone).
      apply list_elem_of_lookup in Hin as [r Hr].
      apply lookup_zip_with_Some in Hr as (z' & rf' & [= <- <-] & Hzr & Hrf).
      destruct (Hrfshape r rf Hrf) as [Hrfl Hrows].
      destruct (volume_render_composite z rf) as (? & ? & ? & Hv & _);
        [rewrite (Hzshape r z Hzr); lia|by rewrite (Hzshape r z Hzr)|done|].
      cbn [fst snd] in Hnone. by rewrite Hv in Hnone. }
  exists out. split; [done|].
  apply mapM_Some in Hout. split.
  { rewrite <- (Forall2_length _ _ _ Hout), length_zip. lia. }
  intros r res Hres.
  destruct (Forall2_lookup_r _ _ _ _ _ Hout Hres) as ([z rf] & Hzip & Hv).
  apply lookup_zip_with_Some in Hzip as (z' & rf' & [= <- <-] & Hzr & Hrf).
  destruct (Hrfshape r rf Hrf) as [Hrfl Hrows].
  exists z, rf. repeat split; try done. by apply (Hzshape r z).
Qed.

(** X10: whatever the network answers, the opacity [acc_map] that
    [render_rays] returns for a ray lies between 0 and
    [(1 + 1e-10) ^ N_samples], and each of the three colour channels lies
    between 0 and that opacity.  This holds without jitter and with uniform
    draws in [0, 1). *)
Theorem X10_render_rays_bounds
    (model encoding_fn : list (list R) → list (list R))
    (rays_o rays_d : list (list R)) (near far : R) (N_samples : nat)
    (rand : bool) (BATCH_SIZE : nat) (u z_vals : list (list R))
    (radiance_fields : list (list (list R))) :
  near < far → (1 ≤ N_samples)%nat →
  length rays_o = length rays_d →
  (rand = true → Forall (Forall (λ x, 0 <= x < 1)) u) →
  sample_z_vals (length rays_o) near far N_samples rand u = Some z_vals →
  query_radiance model encoding_fn BATCH_SIZE (length rays_o) N_samples
    (zip_with (λ od z, ray_points od.1 od.2 z) (zip rays_o rays_d) z_vals)
  = Some radiance_fields →
  ∃ out,
    render_rays model rays_o rays_d near far N_samples encoding_fn rand
      BATCH_SIZE u = Some out
    ∧ length out = length rays_o
    ∧ Forall (λ '(rgb_map, depth_map, acc_map),
                length rgb_map = 3%nat
                ∧ 0 <= acc_map <= (1 + 1e-10) ^ N_samples
                ∧ Forall (λ c, 0 <= c <= acc_map) rgb_map) out.
Proof.
  intros Hnf HN Hrays Hu Hz Hq.
  destruct (render_rays_rows model encoding_fn rays_o rays_d near far
              N_samples rand BATCH_SIZE u z_vals radiance_fields
              HN Hrays Hz Hq) as (out & Hout & Hlen & Hrows).
  exists out. split; [done|]. split; [done|].
  apply Forall_lookup. intros r [[rgb_map depth_map] acc_map] Hres.
  destruct (Hrows r _ Hres) as (z & rf & Hzr & Hrf & Hzl & Hrfl & Hshape & Hv).
  destruct (volume_render_bounds z rf) as (rgb' & depth' & acc' & Hv' & Hb);
    [lia|lia|done| |].
  { intros k x y Hx Hy. left.
    exact (sample_z_vals_nondecreasing _ _ _ _ _ _ _ Hnf Hu Hz r z k x y
             Hzr Hx Hy). }
  rewrite Hv in Hv'. injection Hv' as <- <- <-. by rewrite Hzl in Hb.
Qed.

Lemma X10_one_ray_two_jittered_samples :
  let model : list (list R) → list (list R) :=
    λ batch, (λ _, [0; 0; 0; 1]) <$> batch in
  let encoding_fn : list (list R) → list (list R) := λ x, x in
  let rays_o := [[0; 0; 0]] in
  let rays_d := [[0; 0; 1]] in
  let u := [[0.5; 0.25]] in
  let z_vals :=
    [zip_with Rplus ((λ x, x * (6 - 2) / INR 2) <$> [0.5; 0.25])
       (linspace 2 6 2)] in
  let radiance_fields := [[[0; 0; 0; 1]; [0; 0; 0; 1]]] in
  2 < 6 ∧ (1 ≤ 2)%nat
  ∧ length rays_o = length rays_d
  ∧ (true = true → Forall (Forall (λ x, 0 <= x < 1)) u)
  ∧ sample_z_vals (length rays_o) 2 6 2 true u = Some z_vals
  ∧ query_radiance model encoding_fn 1 (length rays_o) 2
      (zip_with (λ od z, ray_points od.1 od.2 z) (zip rays_o rays_d) z_vals)
    = Some radiance_fields
  ∧ ∃ out,
      render_rays model rays_o rays_d 2 6 2 encoding_fn true 1 u = Some out
      ∧ length out = length rays_o
      ∧ Forall (λ '(rgb_map, depth_map, acc_map),
                  length rgb_map = 3%nat
                  ∧ 0 <= acc_map <= (1 + 1e-10) ^ 2
                  ∧ Forall (λ c, 0 <= c <= acc_map) rgb_map) out.
Proof.
  intros model encoding_fn rays_o rays_d u z_vals radiance_fields.
  assert (H0 : 2 < 6) by lra.
  assert (H1 : (1 ≤ 2)%nat) by lia.
  assert (H2 : length rays_o = length rays_d) by reflexivity.
  assert (Hu : true = true → Forall (Forall (λ x, 0 <= x < 1)) u).
  { intros _. repeat constructor; lra. }
  assert (H3 : sample_z_vals (length rays_o) 2 6 2 true u = Some z_vals)
    by reflexivity.
  assert (H4 : query_radiance model encoding_fn 1 (length rays_o) 2
                 (zip_with (λ od z, ray_points od.1 od.2 z)
                    (zip rays_o rays_d) z_vals)
               = Some radiance_fields) by reflexivity.
  repeat (split; [assumption|]).
  exact (X10_render_rays_bounds model encoding_fn rays_o rays_d 2 6 2
           true 1 u z_vals radiance_fields H0 H1 H2 Hu H3 H4).
Defined.

End NeRFBounds.

(** ** The NeRF scene: encoding, rays and camera poses *)

Module NeRFSceneFacts.
Import Tensor TensorFacts NeRFScene.

(** *** The positional encoding *)

Lemma encoding_bands (row : list R) (levels : list nat) :
  length (concat ((λ i : nat,
                     ((λ v, sin (2 ^ i * v)) <$> row)
                     ++ ((λ v, cos (2 ^ i * v)) <$> row)) <$> levels))
  = (length row * (2 * length levels))%nat
  ∧ Forall (λ v, -1 <= v <= 1)
      (concat ((λ i : nat,
                  ((λ v, sin (2 ^ i * v)) <$> row)
                  ++ ((λ v, cos (2 ^ i * v)) <$> row)) <$> levels)).
Proof.
  induction levels as [|i levels [IHlen IHall]].
  { split; [cbn; lia|constructor]. }
  rewrite fmap_cons. cbn [concat]. split.
  - rewrite !length_app, !length_fmap, IHlen. cbn [length]. lia.
  - repeat apply Forall_app_2; [| |exact IHall].
    + apply Forall_fmap, Forall_true. intros v. apply SIN_bound.
    + apply Forall_fmap, Forall_true. intros v. apply COS_bound.
Qed.

(** X11: [positional_encoding] keeps the number of points; a point with
    [d] coordinates becomes a row of [d * (1 + 2 * L_embed)] entries, which
    for [d = 3] is the input width [TinyNeRF] is built with; the row starts
    with the point itself and all further entries lie in [-1, 1]. *)
Theorem X11_positional_encoding_layout (L_embed : nat) (x : list (list R)) :
  length (positional_encoding L_embed x) = length x
  ∧ ∀ (k : nat) (row : list R), x !! k = Some row →
      ∃ enc, positional_encoding L_embed x !! k = Some enc
        ∧ length enc = (length row * (1 + 2 * L_embed))%nat
        ∧ (length row = 3%nat → length enc = TinyNeRF_in_dim L_embed)
        ∧ take (length row) enc = row
        ∧ Forall (λ v, -1 <= v <= 1) (drop (length row) enc).
Proof.
  unfold positional_encoding. split; [by rewrite length_fmap|].
  intros k row Hk. rewrite list_lookup_fmap, Hk. cbn [fmap option_fmap option_map].
  eexists. split; [reflexivity|].
  destruct (encoding_bands row (seq 0 L_embed)) as [Hlen Hall].
  rewrite length_seq in Hlen.
  assert (Hl : length (row ++ concat ((λ i : nat,
                     ((λ v, sin (2 ^ i * v)) <$> row)
                     ++ ((λ v, cos (2 ^ i * v)) <$> row)) <$> seq 0 L_embed))
               = (length row * (1 + 2 * L_embed))%nat).
  { rewrite length_app, Hlen. lia. }
  split; [exact Hl|]. split.
  { intros H3. rewrite Hl, H3. unfold TinyNeRF_in_dim. lia. }
  split.
  - by rewrite take_app_length.
  - by rewrite drop_app_length.
Qed.

(** *** Rays through the pixels *)

Lemma sum_3 (a b c : R) : sum [a; b; c] = a + b + c.
Proof. unfold sum. cbn. lra. Qed.

Lemma last_nth (row : list R) (C : nat) :
  length row = C → (1 ≤ C)%nat → last row = Some (nth (C - 1) row 0).
Proof.
  intros Hlen HC. rewrite last_lookup.
  replace (Init.Nat.pred (length row)) with (C - 1)%nat by lia.
  destruct (lookup_lt_is_Some_2 row (C - 1)) as [x Hx]; [lia|].
  by rewrite (nth_lookup_Some _ _ _ _ Hx).
Qed.

Lemma get_rays_Some (height width : nat) (focal_length : R)
    (cam2world : list (list R)) (C : nat) :
  (3 ≤ length cam2world)%nat → (3 ≤ C)%nat →
  Forall (λ row, length row = C) cam2world →
  let axis := λ (k m : nat), nth m (nth k cam2world []) 0 in
  let dir := λ (r c : nat),
    (λ k : nat,
       (INR c - INR width / 2) / focal_length * axis k 0%nat
       - (INR r - INR height / 2) / focal_length * axis k 1%nat
       - axis k 2%nat)
    <$> [0; 1; 2]%nat in
  let origin := (λ k : nat, axis k (C - 1)%nat) <$> [0; 1; 2]%nat in
  get_rays height width focal_length cam2world
  = Some ((λ r : nat, (λ _ : nat, origin) <$> seq 0 width) <$> seq 0 height,
          (λ r : nat, (λ c : nat, dir r c) <$> seq 0 width) <$> seq 0 height).
Proof.
  intros Hrows HC Hall axis dir origin.
  destruct cam2world as [|r0 [|r1 [|r2 rest]]]; cbn [length] in Hrows; try lia.
  apply Forall_cons in Hall as [H0 Hall].
  apply Forall_cons in Hall as [H1 Hall].
  apply Forall_cons in Hall as [H2 _].
  unfold get_rays. cbn [take mapM].
  rewrite (last_nth r0 C H0), (last_nth r1 C H1), (last_nth r2 C H2) by lia.
  destruct r0 as [|a0 [|b0 [|c0 t0]]]; cbn [length] in H0; try lia.
  destruct r1 as [|a1 [|b1 [|c1 t1]]]; cbn [length] in H1; try lia.
  destruct r2 as [|a2 [|b2 [|c2 t2]]]; cbn [length] in H2; try lia.
  rewrite !fmap_cons. cbn [take]. rewrite !take_0, fmap_nil.
  rewrite (mapM_pointwise _
             (λ r : nat, (λ c : nat, dir r c) <$> seq 0 width)).
  2:{ apply Forall_true. intros r.
      apply mapM_pointwise, Forall_true. intros c.
      unfold pixel_dir, dir, axis.
      cbn [mapM broadcast_dot zip_with fmap list_fmap nth firstn
           mbind option_bind mret option_ret].
      rewrite !sum_3. f_equal.
      f_equal; [lra|]. f_equal; [lra|]. f_equal. lra. }
  cbn [mapM mbind option_bind mret option_ret].
  f_equal. f_equal. rewrite <- !list_fmap_compose.
  apply list_fmap_ext. intros _ r _. cbn [compose].
  rewrite <- list_fmap_compose. done.
Qed.

(** X12: for a camera matrix with at least three rows and three columns,
    [get_rays] returns one origin and one direction per pixel.  Every
    origin is the last column of the first three rows (the camera
    position).  The direction of pixel (row r, column c) is
    [(c - width/2)/focal * X - (r - height/2)/focal * Y - Z], with X, Y, Z
    the first three columns: one pixel to the right adds [X / focal], one
    pixel down subtracts [Y / focal]. *)
Theorem X12_get_rays_pinhole (height width : nat) (focal_length : R)
    (cam2world : list (list R)) (C : nat) :
  (3 ≤ length cam2world)%nat → (3 ≤ C)%nat →
  Forall (λ row, length row = C) cam2world →
  ∃ rays_o rays_d,
    get_rays height width focal_length cam2world = Some (rays_o, rays_d)
    ∧ length rays_o = height ∧ length rays_d = height
    ∧ Forall (λ row, length row = width) rays_o
    ∧ Forall (λ row, length row = width) rays_d
    ∧ ∀ r c : nat, (r < height)%nat → (c < width)%nat →
        ∃ o d,
          rays_o !! r ≫= (.!! c) = Some o
          ∧ rays_d !! r ≫= (.!! c) = Some d
          ∧ length o = 3%nat ∧ length d = 3%nat
          ∧ ∀ k : nat, (k < 3)%nat →
              let axis := λ m : nat, nth m (nth k cam2world []) 0 in
              o !! k = Some (axis (C - 1)%nat)
              ∧ d !! k
                = Some ((INR c - INR width / 2) / focal_length * axis 0%nat
                        - (INR r - INR height / 2) / focal_length * axis 1%nat
                        - axis 2%nat).
Proof.
  intros Hrows HC Hall.
  pose proof (get_rays_Some height width focal_length cam2world C
                Hrows HC Hall) as Hg. cbn zeta in Hg.
  eexists _, _. split; [exact Hg|].
  split; [by rewrite length_fmap, length_seq|].
  split; [by rewrite length_fmap, length_seq|].
  split.
  { apply Forall_fmap, Forall_true. intros r. cbn [compose].
    by rewrite length_fmap, length_seq. }
  split.
  { apply Forall_fmap, Forall_true. intros r. cbn [compose].
    by rewrite length_fmap, length_seq. }
  intros r c Hr Hc. eexists _, _.
  rewrite !list_lookup_fmap, !lookup_seq_lt by done.
  cbn [fmap option_fmap option_map mbind option_bind].
  rewrite !list_lookup_fmap, !lookup_seq_lt by done.
  cbn [fmap option_fmap option_map].
  split; [reflexivity|]. split; [reflexivity|].
  split; [reflexivity|]. split; [reflexivity|].
  intros k Hk.
  destruct k as [|[|[|k]]]; [| | |lia]; split; reflexivity.
Qed.

Lemma X12_two_by_two_image :
  let cam2world := [[1; 0; 0; 0]; [0; 1; 0; 0]; [0; 0; 1; 4]] in
  (3 ≤ length cam2world)%nat ∧ (3 ≤ 4)%nat
  ∧ Forall (λ row, length row = 4%nat) cam2world
  ∧ ∃ rays_o rays_d,
      get_rays 2 2 1 cam2world = Some (rays_o, rays_d)
      ∧ length rays_o = 2%nat ∧ length rays_d = 2%nat
      ∧ Forall (λ row, length row = 2%nat) rays_o
      ∧ Forall (λ row, length row = 2%nat) rays_d
      ∧ ∀ r c : nat, (r < 2)%nat → (c < 2)%nat →
          ∃ o d,
            rays_o !! r ≫= (.!! c) = Some o
            ∧ rays_d !! r ≫= (.!! c) = Some d
            ∧ length o = 3%nat ∧ length d = 3%nat
            ∧ ∀ k : nat, (k < 3)%nat →
                let axis := λ m : nat, nth m (nth k cam2world []) 0 in
                o !! k = Some (axis (4 - 1)%nat)
                ∧ d !! k
                  = Some ((INR c - INR 2 / 2) / 1 * axis 0%nat
                          - (INR r - INR 2 / 2) / 1 * axis 1%nat
                          - axis 2%nat).
Proof.
  intros cam2world.
  assert (H1 : (3 ≤ length cam2world)%nat) by (cbn; lia).
  assert (H2 : (3 ≤ 4)%nat) by lia.
  assert (H3 : Forall (λ row, length row = 4%nat) cam2world)
    by (repeat constructor).
  repeat (split; [assumption|]).
  exact (X12_get_rays_pinhole 2 2 1 cam2world 4 H1 H2 H3).
Defined.

(** *** Camera poses on a sphere *)

Lemma pose_spherical_Some (theta phi radius : R) :
  let t := theta / 180 * PI in
  let p := phi / 180 * PI in
  pose_spherical theta phi radius
  = Some [[- cos t; sin t * sin p; sin t * cos p; radius * (sin t * cos p)];
          [sin t; cos t * sin p; cos t * cos p; radius * (cos t * cos p)];
          [0; cos p; - sin p; radius * - sin p];
          [0; 0; 0; 1]].
Proof.
  intros t p. unfold pose_spherical, rot_theta, rot_phi, trans_t.
  fold t p. clearbody t p.
  generalize (sin t) (cos t) (sin p) (cos p). intros st ct sp cp.
  unfold matmul at 3. rewrite decide_True by (repeat constructor).
  cbn [mbind option_bind]. unfold matmul at 2.
  rewrite decide_True by (repeat constructor).
  cbn [mbind option_bind]. unfold matmul.
  rewrite decide_True by (repeat constructor).
  unfold column, sum.
  cbn [head from_option length seq fmap list_fmap zip_with nth foldr].
  f_equal.
  repeat (apply (f_equal2 (@cons (list R)));
          [repeat (apply (f_equal2 (@cons R)); [ring|]); reflexivity|]).
  reflexivity.
Qed.

(** X13: [pose_spherical] always returns a 4 x 4 rigid transform: the
    bottom row is [0 0 0 1], the three axis columns are orthonormal, and
    the camera position (the last column) is [radius] times the third
    axis, so it lies at distance [|radius|] from the origin of the scene
    and the viewing direction (minus the third axis) points at that
    origin. *)
Theorem X13_pose_spherical_looks_at_origin (theta phi radius : R) :
  ∃ c2w,
    pose_spherical theta phi radius = Some c2w
    ∧ length c2w = 4%nat
    ∧ Forall (λ row, length row = 4%nat) c2w
    ∧ c2w !! 3%nat = Some [0; 0; 0; 1]
    ∧ (∀ i j : nat, (i < 3)%nat → (j < 3)%nat →
         sum ((λ k : nat, nth i (nth k c2w []) 0 * nth j (nth k c2w []) 0)
              <$> [0; 1; 2]%nat)
         = if decide (i = j) then 1 else 0)
    ∧ (∀ k : nat, (k < 3)%nat →
         nth 3 (nth k c2w []) 0 = radius * nth 2 (nth k c2w []) 0)
    ∧ sum ((λ k : nat, nth 3 (nth k c2w []) 0 * nth 3 (nth k c2w []) 0)
           <$> [0; 1; 2]%nat)
      = radius * radius.
Proof.
  pose proof (pose_spherical_Some theta phi radius) as Hp. cbn zeta in Hp.
  pose proof (sin2_cos2 (theta / 180 * PI)) as Ht.
  pose proof (sin2_cos2 (phi / 180 * PI)) as Hph.
  unfold Rsqr in Ht, Hph.
  revert Hp Ht Hph.
  generalize (sin (theta / 180 * PI)) (cos (theta / 180 * PI))
             (sin (phi / 180 * PI)) (cos (phi / 180 * PI)).
  intros st ct sp cp Hp Ht Hph.
  eexists. split; [exact Hp|].
  split; [reflexivity|]. split; [repeat constructor|].
  split; [reflexivity|].
  assert (HT : st * st + ct * ct - 1 = 0) by lra.
  assert (HP : sp * sp + cp * cp - 1 = 0) by lra.
  split; [|split].
  - intros i j Hi Hj. unfold sum.
    destruct i as [|[|[|i]]]; [| | |lia];
      destruct j as [|[|[|j]]]; try lia;
      cbn [fmap list_fmap nth foldr]; case_decide; try done;
      apply Rminus_diag_uniq.
    + replace (_ - 1) with (st * st + ct * ct - 1) by ring. exact HT.
    + ring.
    + ring.
    + ring.
    + replace (_ - 1)
        with (sp * sp * (st * st + ct * ct - 1) + (sp * sp + cp * cp - 1))
        by ring.
      rewrite HT, HP. ring.
    + replace (_ - 0) with (sp * cp * (st * st + ct * ct - 1)) by ring.
      rewrite HT. ring.
    + ring.
    + replace (_ - 0) with (sp * cp * (st * st + ct * ct - 1)) by ring.
      rewrite HT. ring.
    + replace (_ - 1)
        with (cp * cp * (st * st + ct * ct - 1) + (sp * sp + cp * cp - 1))
        by ring.
      rewrite HT, HP. ring.
  - intros k Hk. destruct k as [|[|[|k]]]; [| | |lia]; reflexivity.
  - unfold sum. cbn [fmap list_fmap nth foldr]. apply Rminus_diag_uniq.
    replace (_ - radius * radius)
      with (radius * radius
            * (cp * cp * (st * st + ct * ct - 1) + (sp * sp + cp * cp - 1)))
      by ring.
    rewrite HT, HP. ring.
Qed.

(** X14: the rays of the video cell, [get_rays] on the first three rows
    of a [pose_spherical] camera: every ray starts at distance [|radius|]
    from the origin of the scene, the direction of pixel (r, c) has squared
    length [((c - width/2)/focal)^2 + ((r - height/2)/focal)^2 + 1], and
    the ray of the centre pixel passes through the origin of the scene at
    depth [radius]. *)
Theorem X14_orbit_camera_rays (theta phi radius : R) (height width : nat)
    (focal_length : R) :
  focal_length ≠ 0 →
  ∃ c2w rays_o rays_d,
    pose_spherical theta phi radius = Some c2w
    ∧ get_rays height width focal_length (take 4 <$> take 3 c2w)
      = Some (rays_o, rays_d)
    ∧ ∀ r c : nat, (r < height)%nat → (c < width)%nat →
        ∃ o d,
          rays_o !! r ≫= (.!! c) = Some o
          ∧ rays_d !! r ≫= (.!! c) = Some d
          ∧ sum (zip_with Rmult o o) = radius * radius
          ∧ sum (zip_with Rmult d d)
            = ((INR c - INR width / 2) / focal_length) ^ 2
              + ((INR r - INR height / 2) / focal_length) ^ 2 + 1
          ∧ ((2 * r = height)%nat → (2 * c = width)%nat →
             zip_with (λ oi di, oi + radius * di) o d = [0; 0; 0]).
Proof.
  intros Hf.
  pose proof (pose_spherical_Some theta phi radius) as Hp. cbn zeta in Hp.
  pose proof (sin2_cos2 (theta / 180 * PI)) as Ht.
  pose proof (sin2_cos2 (phi / 180 * PI)) as Hph.
  unfold Rsqr in Ht, Hph.
  revert Hp Ht Hph.
  generalize (sin (theta / 180 * PI)) (cos (theta / 180 * PI))
             (sin (phi / 180 * PI)) (cos (phi / 180 * PI)).
  intros st ct sp cp Hp Ht Hph.
  assert (HT : st * st + ct * ct - 1 = 0) by lra.
  assert (HP : sp * sp + cp * cp - 1 = 0) by lra.
  eexists _, _, _. split; [exact Hp|].
  cbn [take]. rewrite !fmap_cons, fmap_nil. cbn [take].
  split.
  { apply (get_rays_Some height width focal_length _ 4);
      [cbn; lia|lia|repeat constructor]. }
  intros r c Hr Hc. eexists _, _.
  rewrite !list_lookup_fmap, !lookup_seq_lt by done.
  cbn [fmap option_fmap option_map mbind option_bind].
  rewrite !list_lookup_fmap, !lookup_seq_lt by done.
  cbn [fmap option_fmap option_map list_fmap nth Nat.sub Nat.add].
  split; [reflexivity|]. split; [reflexivity|].
  unfold sum. cbn [zip_with foldr].
  set (x := (INR c - INR width / 2) / focal_length).
  set (y := (INR r - INR height / 2) / focal_length).
  split; [|split].
  - apply Rminus_diag_uniq.
    replace (_ - radius * radius)
      with (radius * radius
            * (cp * cp * (st * st + ct * ct - 1) + (sp * sp + cp * cp - 1)))
      by ring.
    rewrite HT, HP. ring.
  - apply Rminus_diag_uniq.
    replace (_ - (x ^ 2 + y ^ 2 + 1))
      with (x * x * (st * st + ct * ct - 1)
            + y * y * (sp * sp * (st * st + ct * ct - 1)
                       + (sp * sp + cp * cp - 1))
            + (cp * cp * (st * st + ct * ct - 1) + (sp * sp + cp * cp - 1))
            + 2 * y * sp * cp * (st * st + ct * ct - 1))
      by ring.
    rewrite HT, HP. ring.
  - intros Hh Hw.
    assert (Hx : x = 0).
    { unfold x. rewrite <- Hw, mult_INR. cbn [INR]. field. exact Hf. }
    assert (Hy : y = 0).
    { unfold y. rewrite <- Hh, mult_INR. cbn [INR]. field. exact Hf. }
    rewrite Hx, Hy. f_equal; [ring|]. f_equal; [ring|]. f_equal. ring.
Qed.

Lemma X14_two_by_two_orbit_frame :
  (1 : R) ≠ 0
  ∧ ∃ c2w rays_o rays_d,
      pose_spherical 0 (-30) 4 = Some c2w
      ∧ get_rays 2 2 1 (take 4 <$> take 3 c2w) = Some (rays_o, rays_d)
      ∧ ∀ r c : nat, (r < 2)%nat → (c < 2)%nat →
          ∃ o d,
            rays_o !! r ≫= (.!! c) = Some o
            ∧ rays_d !! r ≫= (.!! c) = Some d
            ∧ sum (zip_with Rmult o o) = 4 * 4
            ∧ sum (zip_with Rmult d d)
              = ((INR c - INR 2 / 2) / 1) ^ 2
                + ((INR r - INR 2 / 2) / 1) ^ 2 + 1
            ∧ ((2 * r = 2)%nat → (2 * c = 2)%nat →
               zip_with (λ oi di, oi + 4 * di) o d = [0; 0; 0]).
Proof.
  assert (H1 : (1 : R) ≠ 0) by lra.
  split; [exact H1|].
  exact (X14_orbit_camera_rays 0 (-30) 4 2 2 1 H1).
Defined.

End NeRFSceneFacts.

(** ** The WGAN-GP penalty, interpolation and critic loss *)

Module WGANMore.
Import Tensor TensorFacts WGAN WGANFacts WGANLoss.

(** *** The range of the penalty *)

Lemma sum_nonneg (l : list R) : Forall (λ x, 0 <= x) l → 0 <= sum l.
Proof.
  induction 1 as [|x l Hx _ IH]; [unfold sum; cbn; lra|].
  rewrite sum_cons. lra.
Qed.

Lemma sum_zero_iff (l : list R) :
  Forall (λ x, 0 <= x) l → sum l = 0 ↔ Forall (λ x, x = 0) l.
Proof.
  induction 1 as [|x l Hx Hl IH]; [by split|].
  rewrite sum_cons, Forall_cons. pose proof (sum_nonneg l Hl) as Hs. split.
  - intros Hsum. split; [lra|]. apply IH. lra.
  - intros [-> Hz]. apply IH in Hz. lra.
Qed.

Lemma sum_const (c : R) (l : list R) :
  Forall (λ x, x = c) l → sum l = INR (length l) * c.
Proof.
  induction 1 as [|x l -> _ IH]; [unfold sum; cbn; lra|].
  rewrite sum_cons, IH. cbn [length]. rewrite S_INR. lra.
Qed.

Lemma mean_nonneg (l : list R) :
  l ≠ [] → Forall (λ x, 0 <= x) l →
  0 <= mean l ∧ (mean l = 0 ↔ Forall (λ x, x = 0) l).
Proof.
  intros Hne Hall. unfold mean.
  assert (Hn : 0 < INR (length l)).
  { apply lt_0_INR. destruct l; [done|cbn; lia]. }
  pose proof (sum_nonneg l Hall) as Hs.
  assert (Hinv : 0 < / INR (length l)) by by apply Rinv_0_lt_compat.
  split; [unfold Rdiv; nra|].
  rewrite <- (sum_zero_iff l Hall). unfold Rdiv. split; [|intros ->; lra].
  intros Hm. apply Rmult_integral in Hm as [Hm|Hm]; [done|lra].
Qed.

Lemma mean_const (c : R) (l : list R) :
  l ≠ [] → Forall (λ x, x = c) l → mean l = c.
Proof.
  intros Hne Hall. unfold mean. rewrite (sum_const c l Hall).
  assert (Hn : 0 < INR (length l)).
  { apply lt_0_INR. destruct l; [done|cbn; lia]. }
  field. lra.
Qed.

Lemma gradient_penalty_range (gradient : list image) :
  gradient ≠ [] →
  ∃ penalty,
    gradient_penalty gradient = Some penalty
    ∧ 0 <= penalty
    ∧ (penalty = 0
       ↔ Forall (λ img : image, norm2 (concat (concat img)) = 1) gradient)
    ∧ ∀ n : R,
        Forall (λ img : image, norm2 (concat (concat img)) = n) gradient →
        penalty = (n - 1) ^ 2.
Proof.
  intros Hne.
  set (sq := (λ img : image, (norm2 (concat (concat img)) - 1) ^ 2)
             <$> gradient).
  assert (Hgp : gradient_penalty gradient = Some (mean sq)).
  { unfold gradient_penalty, view_rows, sq. destruct gradient; [done|].
    cbn [mbind option_bind]. by rewrite <- !list_fmap_compose. }
  assert (Hsq : sq ≠ []) by (unfold sq; by destruct gradient).
  assert (Hall : Forall (λ x, 0 <= x) sq).
  { unfold sq. apply Forall_fmap, Forall_true. intros img. cbn [compose].
    apply pow2_ge_0. }
  destruct (mean_nonneg sq Hsq Hall) as [H0 Hz].
  exists (mean sq). split; [done|]. split; [done|]. split.
  - rewrite Hz. unfold sq. rewrite Forall_fmap. apply Forall_iff.
    intros img. cbn [compose]. split.
    + intros Hp. apply Rmult_integral in Hp as [Hp|Hp]; [lra|].
      rewrite Rmult_1_r in Hp. lra.
    + intros ->. ring.
  - intros n Hn. apply mean_const; [done|].
    unfold sq. rewrite Forall_fmap. eapply Forall_impl; [exact Hn|].
    intros img Himg. cbn [compose]. by rewrite Himg.
Qed.

(** X15: [gradient_penalty] of a non-empty batch of gradients is never
    negative; it is zero exactly when every image gradient has L2 norm 1,
    and when all gradients have the same norm [n] it is [(n - 1)^2] (so 1
    for all-zero gradients, as the notebook's test checks). *)
Theorem X15_gradient_penalty_range (gradient : list image) :
  gradient ≠ [] →
  ∃ penalty,
    gradient_penalty gradient = Some penalty
    ∧ 0 <= penalty
    ∧ (penalty = 0
       ↔ Forall (λ img : image, norm2 (concat (concat img)) = 1) gradient)
    ∧ (∀ n : R,
         Forall (λ img : image, norm2 (concat (concat img)) = n) gradient →
         penalty = (n - 1) ^ 2)
    ∧ (Forall (λ img : image, Forall (λ v, v = 0) (concat (concat img)))
         gradient →
       penalty = 1).
Proof.
  intros Hne.
  destruct (gradient_penalty_range gradient Hne)
    as (penalty & Hgp & H0 & Hz & Hconst).
  exists penalty. repeat (split; [done|]).
  intros Hzero. rewrite (Hconst 0); [ring|].
  eapply Forall_impl; [exact Hzero|]. intros img Himg. cbn beta in *.
  unfold norm2. rewrite <- sqrt_0. f_equal.
  apply sum_zero_iff.
  - apply Forall_fmap, Forall_true. intros v. cbn [compose]. nra.
  - rewrite Forall_fmap. eapply Forall_impl; [exact Himg|].
    intros v ->. cbn [compose]. ring.
Qed.

Lemma X15_zero_gradients_example :
  [[[[0; 0]; [0; 0]]]; [[[0; 0]; [0; 0]]]] ≠ ([] : list image)
  ∧ ∃ penalty,
      gradient_penalty [[[[0; 0]; [0; 0]]]; [[[0; 0]; [0; 0]]]] = Some penalty
      ∧ 0 <= penalty
      ∧ (penalty = 0
         ↔ Forall (λ img : image, norm2 (concat (concat img)) = 1)
             [[[[0; 0]; [0; 0]]]; [[[0; 0]; [0; 0]]]])
      ∧ (∀ n : R,
           Forall (λ img : image, norm2 (concat (concat img)) = n)
             [[[[0; 0]; [0; 0]]]; [[[0; 0]; [0; 0]]]] →
           penalty = (n - 1) ^ 2)
      ∧ (Forall (λ img : image, Forall (λ v, v = 0) (concat (concat img)))
           [[[[0; 0]; [0; 0]]]; [[[0; 0]; [0; 0]]]] →
         penalty = 1).
Proof.
  assert (H1 : [[[[0; 0]; [0; 0]]]; [[[0; 0]; [0; 0]]]] ≠ ([] : list image))
    by discriminate.
  split; [exact H1|].
  exact (X15_gradient_penalty_range _ H1).
Defined.

(** X16: the critic loss with the penalty of a non-empty batch of gradients
    and a non-negative weight [c_lambda] is never below the plain
    Wasserstein term [mean(fake) - mean(real)], and equals it exactly when
    the weight is zero or every gradient has unit norm; that Wasserstein
    term is the negated generator loss minus the mean real score. *)
Theorem X16_crit_loss_penalised (crit_fake_pred crit_real_pred : list R)
    (gradient : list image) (c_lambda : R) :
  gradient ≠ [] → 0 <= c_lambda →
  ∃ gp,
    gradient_penalty gradient = Some gp
    ∧ let loss := get_crit_loss crit_fake_pred crit_real_pred gp c_lambda in
      let wasserstein :=
        - get_gen_loss crit_fake_pred - mean crit_real_pred in
      wasserstein <= loss
      ∧ (loss = wasserstein
         ↔ c_lambda = 0
           ∨ Forall (λ img : image, norm2 (concat (concat img)) = 1)
               gradient).
Proof.
  intros Hne Hc.
  destruct (gradient_penalty_range gradient Hne)
    as (gp & Hgp & H0 & Hz & _).
  exists gp. split; [done|]. cbn zeta.
  unfold get_crit_loss, get_gen_loss. split; [nra|].
  rewrite <- Hz. split.
  - intros Hl. assert (Hprod : gp * c_lambda = 0) by lra.
    apply Rmult_integral in Hprod. tauto.
  - intros [->| ->]; lra.
Qed.

Lemma X16_zero_gradients_weight_10 :
  [[[[0; 0]; [0; 0]]]] ≠ ([] : list image) ∧ 0 <= 10
  ∧ ∃ gp,
      gradient_penalty [[[[0; 0]; [0; 0]]]] = Some gp
      ∧ let loss := get_crit_loss [1; 2] [3; 5] gp 10 in
        let wasserstein := - get_gen_loss [1; 2] - mean [3; 5] in
        wasserstein <= loss
        ∧ (loss = wasserstein
           ↔ 10 = 0
             ∨ Forall (λ img : image, norm2 (concat (concat img)) = 1)
                 [[[[0; 0]; [0; 0]]]]).
Proof.
  assert (H1 : [[[[0; 0]; [0; 0]]]] ≠ ([] : list image)) by discriminate.
  assert (H2 : 0 <= 10) by lra.
  split; [exact H1|]. split; [exact H2|].
  exact (X16_crit_loss_penalised [1; 2] [3; 5] _ 10 H1 H2).
Defined.

(** *** The two ends of the interpolation *)

Lemma zip_with_left {A B} (g : A → B → A) (l : list A) (k : list B) :
  Forall2 (λ x y, g x y = x) l k → zip_with g l k = l.
Proof. induction 1 as [|x y l k Hxy _ IH]; [done|]. cbn. by rewrite Hxy, IH. Qed.

Lemma zip_with_right {A B} (g : A → B → B) (l : list A) (k : list B) :
  Forall2 (λ x y, g x y = y) l k → zip_with g l k = k.
Proof. induction 1 as [|x y l k Hxy _ IH]; [done|]. cbn. by rewrite Hxy, IH. Qed.

Lemma image_map2_left (g : R → R → R) (r f : image) :
  shape r = shape f → (∀ x y, g x y = x) → image_map2 g r f = r.
Proof.
  intros Hs Hg. unfold image_map2. apply zip_with_left.
  eapply Forall2_impl; [exact (same_shape_rows r f Hs)|].
  intros p p' Hp. apply zip_with_left.
  eapply Forall2_impl; [exact Hp|].
  intros row row' Hrow. apply zip_with_left.
  apply Forall2_same_length_lookup_2; [done|]. intros. apply Hg.
Qed.

Lemma image_map2_right (g : R → R → R) (r f : image) :
  shape r = shape f → (∀ x y, g x y = y) → image_map2 g r f = f.
Proof.
  intros Hs Hg. unfold image_map2. apply zip_with_right.
  eapply Forall2_impl; [exact (same_shape_rows r f Hs)|].
  intros p p' Hp. apply zip_with_right.
  eapply Forall2_impl; [exact Hp|].
  intros row row' Hrow. apply zip_with_right.
  apply Forall2_same_length_lookup_2; [done|]. intros. apply Hg.
Qed.

(** X17: the interpolation of [get_gradient] has the two batches as its
    ends: for batches of one shape, with every [epsilon] equal to 1 the
    mixed batch is [real], and with every [epsilon] equal to 0 it is
    [fake]. *)
Theorem X17_mix_endpoints (real fake : list image) :
  same_shape real fake →
  mix real fake (replicate (length real) 1) = Some real
  ∧ mix real fake (replicate (length real) 0) = Some fake.
Proof.
  intros Hs.
  assert (Hlen : length real = length fake).
  { unfold same_shape in Hs. apply (f_equal length) in Hs.
    by rewrite !length_fmap in Hs. }
  assert (Hshape : ∀ (b : nat) (r f : image),
            real !! b = Some r → fake !! b = Some f → shape r = shape f).
  { intros b r f Hr Hf. unfold same_shape in Hs.
    apply (f_equal (.!! b)) in Hs.
    rewrite !list_lookup_fmap, Hr, Hf in Hs. cbn in Hs.
    by apply (inj Some) in Hs. }
  split.
  - destruct (mix_Some real fake (replicate (length real) 1) Hs)
      as (mixed & -> & Hml & Hm); [by rewrite length_replicate|].
    f_equal. apply list_eq_same_length with (length real); [done|done|].
    intros b m r Hb Hmb Hr.
    destruct (lookup_lt_is_Some_2 fake b) as [f Hf]; [lia|].
    rewrite (Hm b 1 r f) in Hmb;
      [|by apply lookup_replicate_2|done|done].
    injection Hmb as <-. apply image_map2_left; [by eapply Hshape|].
    intros x y. ring.
  - destruct (mix_Some real fake (replicate (length real) 0) Hs)
      as (mixed & -> & Hml & Hm); [by rewrite length_replicate|].
    f_equal. apply list_eq_same_length with (length real); [done|lia|].
    intros b m f Hb Hmb Hf.
    destruct (lookup_lt_is_Some_2 real b) as [r Hr]; [lia|].
    rewrite (Hm b 0 r f) in Hmb;
      [|by apply lookup_replicate_2|done|done].
    injection Hmb as <-. apply image_map2_right; [by eapply Hshape|].
    intros x y. ring.
Qed.

Lemma X17_two_pixel_images :
  same_shape [[[[1; 2]]]] [[[[3; 4]]]]
  ∧ mix [[[[1; 2]]]] [[[[3; 4]]]] (replicate (length [[[[1; 2]]]]) 1)
    = Some [[[[1; 2]]]]
  ∧ mix [[[[1; 2]]]] [[[[3; 4]]]] (replicate (length [[[[1; 2]]]]) 0)
    = Some [[[[3; 4]]]].
Proof.
  assert (H1 : same_shape [[[[1; 2]]]] [[[[3; 4]]]]) by reflexivity.
  split; [exact H1|].
  exact (X17_mix_endpoints [[[[1; 2]]]] [[[[3; 4]]]] H1).
Defined.

End WGANMore.

(** ** Checkpoints: saving, loading and re-running *)

Module CheckpointMore.
Import Checkpoint CheckpointFacts Pix2Pix.

(** *** Running a cell step by step *)

Lemma cell_bind_inr {A B} (m : cell A) (f : A → cell B) (w w' : world)
    (a : A) :
  m w = (inr a, w') → (m ≫= f) w = f a w'.
Proof. intros Hm. unfold mbind, cell_bind. by rewrite Hm. Qed.

Lemma cell_bind_inl {A B} (m : cell A) (f : A → cell B) (w w' : world)
    (e : exn) :
  m w = (inl e, w') → (m ≫= f) w = (inl e, w').
Proof. intros Hm. unfold mbind, cell_bind. by rewrite Hm. Qed.

Lemma load_state_dict_optimizer (name : string) (os : opt_state_dict)
    (w : world) (o : opt_state_dict) :
  objects w !! name = Some (ObjOptimizer o) →
  group_sizes os = group_sizes o →
  load_state_dict name (SavedOptimizer os) w
  = (inr (), World (files w) (<[name := ObjOptimizer os]> (objects w))
                   (stdout w)).
Proof. intros Ho Hg. unfold load_state_dict. by rewrite Ho, decide_True. Qed.

Lemma bind_load_module {B} (name : string) (sd : state_dict)
    (f : unit → cell B) (w : world) (m : module) :
  objects w !! name = Some (ObjModule m) →
  tshape <$> sd = tshape <$> params m →
  (load_state_dict name (SavedModule sd) ≫= f) w
  = f () (World (files w)
                (<[name := ObjModule (Module_ sd (training m))]> (objects w))
                (stdout w)).
Proof.
  intros Hm Hs. apply cell_bind_inr.
  by apply (load_state_dict_module name sd w m).
Qed.

Lemma bind_load_optimizer {B} (name : string) (os : opt_state_dict)
    (f : unit → cell B) (w : world) (o : opt_state_dict) :
  objects w !! name = Some (ObjOptimizer o) →
  group_sizes os = group_sizes o →
  (load_state_dict name (SavedOptimizer os) ≫= f) w
  = f () (World (files w) (<[name := ObjOptimizer os]> (objects w))
                (stdout w)).
Proof.
  intros Ho Hg. apply cell_bind_inr.
  by apply (load_state_dict_optimizer name os w o).
Qed.

Lemma state_dict_of_module (name : string) (w : world) (m : module) :
  objects w !! name = Some (ObjModule m) →
  state_dict_of name w = (inr (SavedModule (params m)), w).
Proof. intros Hm. unfold state_dict_of. by rewrite Hm. Qed.

Lemma state_dict_of_optimizer (name : string) (w : world)
    (o : opt_state_dict) :
  objects w !! name = Some (ObjOptimizer o) →
  state_dict_of name w = (inr (SavedOptimizer o), w).
Proof. intros Ho. unfold state_dict_of. by rewrite Ho. Qed.

Lemma getitem_ok (d : gmap string saved) (key : string) (s : saved)
    (w : world) :
  d !! key = Some s → getitem (ObjDict d) key w = (inr s, w).
Proof. intros Hk. unfold getitem. by rewrite Hk. Qed.

Lemma checkpoint_name :
  "pix2pix_" +:+ pretty 15000%N +:+ ".pth" = "pix2pix_15000.pth".
Proof. reflexivity. Qed.

Lemma save_checkpoint_ok (cur_step : N) (w : world) (gen disc : module)
    (gen_opt disc_opt : opt_state_dict) :
  objects w !! "gen" = Some (ObjModule gen) →
  objects w !! "gen_opt" = Some (ObjOptimizer gen_opt) →
  objects w !! "disc" = Some (ObjModule disc) →
  objects w !! "disc_opt" = Some (ObjOptimizer disc_opt) →
  save_checkpoint cur_step w
  = (inr (),
     World (<["pix2pix_" +:+ pretty cur_step +:+ ".pth" :=
               ObjDict (<["gen" := SavedModule (params gen)]>
                          (<["gen_opt" := SavedOptimizer gen_opt]>
                             (<["disc" := SavedModule (params disc)]>
                                {["disc_opt" := SavedOptimizer disc_opt]})))]>
              (files w))
           (objects w) (stdout w)).
Proof.
  intros Hg Hgo Hd Hdo. unfold save_checkpoint.
  rewrite (cell_bind_inr _ _ _ _ _ (state_dict_of_module _ _ _ Hg)).
  rewrite (cell_bind_inr _ _ _ _ _ (state_dict_of_optimizer _ _ _ Hgo)).
  rewrite (cell_bind_inr _ _ _ _ _ (state_dict_of_module _ _ _ Hd)).
  rewrite (cell_bind_inr _ _ _ _ _ (state_dict_of_optimizer _ _ _ Hdo)).
  reflexivity.
Qed.

Lemma cell_load_pretrained_ok (w : world) (d : gmap string saved)
    (sg sd : state_dict) (sgo sdo : opt_state_dict) (gen disc : module)
    (gen_opt disc_opt : opt_state_dict) :
  files w !! "pix2pix_15000.pth" = Some (ObjDict d) →
  d !! "gen" = Some (SavedModule sg) →
  d !! "gen_opt" = Some (SavedOptimizer sgo) →
  d !! "disc" = Some (SavedModule sd) →
  d !! "disc_opt" = Some (SavedOptimizer sdo) →
  objects w !! "gen" = Some (ObjModule gen) →
  objects w !! "gen_opt" = Some (ObjOptimizer gen_opt) →
  objects w !! "disc" = Some (ObjModule disc) →
  objects w !! "disc_opt" = Some (ObjOptimizer disc_opt) →
  tshape <$> sg = tshape <$> params gen →
  group_sizes sgo = group_sizes gen_opt →
  tshape <$> sd = tshape <$> params disc →
  group_sizes sdo = group_sizes disc_opt →
  cell_load_pretrained w
  = (inr (),
     World (files w)
       (<["disc_opt" := ObjOptimizer sdo]>
          (<["disc" := ObjModule (Module_ sd (training disc))]>
             (<["gen_opt" := ObjOptimizer sgo]>
                (<["gen" := ObjModule (Module_ sg (training gen))]>
                   (objects w)))))
       (stdout w)).
Proof.
  intros Hfile Hkg Hkgo Hkd Hkdo Hg Hgo Hd Hdo Dg Dgo Dd Ddo.
  unfold cell_load_pretrained.
  rewrite (cell_bind_inr _ _ _ _ _ (torch_load_present _ _ _ Hfile)).
  rewrite (cell_bind_inr _ _ _ _ _ (getitem_ok _ _ _ _ Hkg)).
  rewrite (bind_load_module _ _ _ _ gen Hg Dg).
  rewrite (cell_bind_inr _ _ _ _ _ (getitem_ok _ _ _ _ Hkgo)).
  rewrite (bind_load_optimizer _ _ _ _ gen_opt);
    [|cbn [objects]; by rewrite lookup_insert_ne|done].
  cbn [files objects stdout].
  rewrite (cell_bind_inr _ _ _ _ _ (getitem_ok _ _ _ _ Hkd)).
  rewrite (bind_load_module _ _ _ _ disc);
    [|cbn [objects]; by do 2 (rewrite lookup_insert_ne by done)|done].
  cbn [files objects stdout].
  rewrite (cell_bind_inr _ _ _ _ _ (getitem_ok _ _ _ _ Hkdo)).
  rewrite (load_state_dict_optimizer _ _ _ disc_opt);
    [|cbn [objects]; by do 3 (rewrite lookup_insert_ne by done)|done].
  reflexivity.
Qed.

Section RoundTrip.

Variables UNet_init Discriminator_init : state_dict.
Variables gen_opt_init disc_opt_init : opt_state_dict.

(** X18: a checkpoint written by the save statement of [train] at step
    15000 is what the initialization cell reads back.  Suppose the two
    networks have the names and shapes their constructors give them and
    the two optimizers parameter groups of the sizes [Adam] gives them.
    Then saving changes nothing but the one file; and in any later world
    that still holds that file, the whole cell (which first rebuilds the
    four objects, then loads) succeeds and leaves the generator and the
    discriminator with exactly the saved parameters, in training mode,
    the two optimizers with exactly the saved state, and all other
    objects, the files and the output as they were. *)
Theorem X18_checkpoint_round_trip (w : world) (gen disc : module)
    (gen_opt disc_opt : opt_state_dict) :
  objects w !! "gen" = Some (ObjModule gen) →
  objects w !! "gen_opt" = Some (ObjOptimizer gen_opt) →
  objects w !! "disc" = Some (ObjModule disc) →
  objects w !! "disc_opt" = Some (ObjOptimizer disc_opt) →
  tshape <$> params gen = tshape <$> UNet_init →
  group_sizes gen_opt = group_sizes gen_opt_init →
  tshape <$> params disc = tshape <$> Discriminator_init →
  group_sizes disc_opt = group_sizes disc_opt_init →
  ∃ w1,
    save_checkpoint 15000 w = (inr (), w1)
    ∧ objects w1 = objects w ∧ stdout w1 = stdout w
    ∧ (∀ path, path ≠ "pix2pix_15000.pth" → files w1 !! path = files w !! path)
    ∧ ∀ w2 : world,
        files w2 !! "pix2pix_15000.pth" = files w1 !! "pix2pix_15000.pth" →
        ∃ w3,
          cell_initialize_pretrained UNet_init Discriminator_init
            gen_opt_init disc_opt_init w2 = (inr (), w3)
          ∧ files w3 = files w2 ∧ stdout w3 = stdout w2
          ∧ objects w3 !! "gen" = Some (ObjModule (Module_ (params gen) true))
          ∧ objects w3 !! "gen_opt" = Some (ObjOptimizer gen_opt)
          ∧ objects w3 !! "disc"
            = Some (ObjModule (Module_ (params disc) true))
          ∧ objects w3 !! "disc_opt" = Some (ObjOptimizer disc_opt)
          ∧ ∀ name, name ∉ ["gen"; "gen_opt"; "disc"; "disc_opt"] →
              objects w3 !! name = objects w2 !! name.
Proof.
  intros Hg Hgo Hd Hdo Sg Sgo Sd Sdo.
  pose proof (save_checkpoint_ok 15000 w _ _ _ _ Hg Hgo Hd Hdo) as Hsave.
  rewrite checkpoint_name in Hsave.
  eexists. split; [exact Hsave|]. cbn [objects stdout files].
  split; [done|]. split; [done|].
  split; [intros path Hpath; by rewrite lookup_insert_ne|].
  intros w2 Hfile. rewrite lookup_insert_eq in Hfile.
  unfold cell_initialize_pretrained, assign.
  unfold mbind at 1 2 3 4. unfold cell_bind at 1 2 3 4.
  eexists. split.
  { eapply (cell_load_pretrained_ok _ _ (params gen) (params disc)
              gen_opt disc_opt
              (Module_ UNet_init true) (Module_ Discriminator_init true)
              gen_opt_init disc_opt_init).
    - exact Hfile.
    - done.
    - done.
    - done.
    - done.
    - cbn [objects]. do 3 (rewrite lookup_insert_ne by done).
      by rewrite lookup_insert_eq.
    - cbn [objects]. do 2 (rewrite lookup_insert_ne by done).
      by rewrite lookup_insert_eq.
    - cbn [objects]. rewrite lookup_insert_ne by done.
      by rewrite lookup_insert_eq.
    - cbn [objects]. by rewrite lookup_insert_eq.
    - exact Sg.
    - exact Sgo.
    - exact Sd.
    - exact Sdo. }
  cbn [objects stdout files training].
  split; [done|]. split; [done|].
  split.
  { do 3 (rewrite lookup_insert_ne by done). by rewrite lookup_insert_eq. }
  split.
  { do 2 (rewrite lookup_insert_ne by done). by rewrite lookup_insert_eq. }
  split.
  { rewrite lookup_insert_ne by done. by rewrite lookup_insert_eq. }
  split; [by rewrite lookup_insert_eq|].
  intros name Hname. rewrite !not_elem_of_cons in Hname.
  destruct Hname as (? & ? & ? & ? & _).
  by do 8 (rewrite lookup_insert_ne by done).
Qed.

End RoundTrip.

Lemma X18_training_world_example :
  let t := λ v : R, Tensor_ [1%nat] [v] in
  let UNet_init : state_dict := {["weight" := t 0]} in
  let Discriminator_init : state_dict := {["weight" := t 0]} in
  let gen_opt_init := OptState_ [1%nat] ∅ in
  let disc_opt_init := OptState_ [1%nat] ∅ in
  let gen := Module_ {["weight" := t 1]} true in
  let disc := Module_ {["weight" := t 3]} false in
  let gen_opt := OptState_ [1%nat] {["state.0.exp_avg" := t 2]} in
  let disc_opt := OptState_ [1%nat] {["state.0.exp_avg" := t 4]} in
  let w := World ∅ (<["gen" := ObjModule gen]>
                     (<["gen_opt" := ObjOptimizer gen_opt]>
                        (<["disc" := ObjModule disc]>
                           {["disc_opt" := ObjOptimizer disc_opt]}))) [] in
  objects w !! "gen" = Some (ObjModule gen)
  ∧ objects w !! "gen_opt" = Some (ObjOptimizer gen_opt)
  ∧ objects w !! "disc" = Some (ObjModule disc)
  ∧ objects w !! "disc_opt" = Some (ObjOptimizer disc_opt)
  ∧ tshape <$> params gen = tshape <$> UNet_init
  ∧ group_sizes gen_opt = group_sizes gen_opt_init
  ∧ tshape <$> params disc = tshape <$> Discriminator_init
  ∧ group_sizes disc_opt = group_sizes disc_opt_init
  ∧ ∃ w1,
      save_checkpoint 15000 w = (inr (), w1)
      ∧ objects w1 = objects w ∧ stdout w1 = stdout w
      ∧ (∀ path, path ≠ "pix2pix_15000.pth"
                 → files w1 !! path = files w !! path)
      ∧ ∀ w2 : world,
          files w2 !! "pix2pix_15000.pth" = files w1 !! "pix2pix_15000.pth" →
          ∃ w3,
            cell_initialize_pretrained UNet_init Discriminator_init
              gen_opt_init disc_opt_init w2 = (inr (), w3)
            ∧ files w3 = files w2 ∧ stdout w3 = stdout w2
            ∧ objects w3 !! "gen"
              = Some (ObjModule (Module_ (params gen) true))
            ∧ objects w3 !! "gen_opt" = Some (ObjOptimizer gen_opt)
            ∧ objects w3 !! "disc"
              = Some (ObjModule (Module_ (params disc) true))
            ∧ objects w3 !! "disc_opt" = Some (ObjOptimizer disc_opt)
            ∧ ∀ name, name ∉ ["gen"; "gen_opt"; "disc"; "disc_opt"] →
                objects w3 !! name = objects w2 !! name.
Proof.
  intros t UNet_init Discriminator_init gen_opt_init disc_opt_init
         gen disc gen_opt disc_opt w.
  assert (H1 : objects w !! "gen" = Some (ObjModule gen)) by reflexivity.
  assert (H2 : objects w !! "gen_opt" = Some (ObjOptimizer gen_opt))
    by reflexivity.
  assert (H3 : objects w !! "disc" = Some (ObjModule disc)) by reflexivity.
  assert (H4 : objects w !! "disc_opt" = Some (ObjOptimizer disc_opt))
    by reflexivity.
  assert (H5 : tshape <$> params gen = tshape <$> UNet_init) by reflexivity.
  assert (H6 : group_sizes gen_opt = group_sizes gen_opt_init) by reflexivity.
  assert (H7 : tshape <$> params disc = tshape <$> Discriminator_init)
    by reflexivity.
  assert (H8 : group_sizes disc_opt = group_sizes disc_opt_init)
    by reflexivity.
  repeat (split; [assumption|]).
  exact (X18_checkpoint_round_trip UNet_init Discriminator_init
           gen_opt_init disc_opt_init w gen disc gen_opt disc_opt
           H1 H2 H3 H4 H5 H6 H7 H8).
Defined.

(** X19: the pretrained-loading statements are not all-or-nothing.  With a
    checkpoint that holds weights of the generator's names and shapes but
    no ["gen_opt"] entry they end in [KeyError] for that key after the
    generator has already been overwritten: unlike a missing file, this
    failure leaves the world changed. *)
Theorem X19_pretrained_load_not_atomic (w : world)
    (d : gmap string saved) (sd : state_dict) (gen : module) :
  files w !! "pix2pix_15000.pth" = Some (ObjDict d) →
  d !! "gen" = Some (SavedModule sd) → d !! "gen_opt" = None →
  objects w !! "gen" = Some (ObjModule gen) →
  tshape <$> sd = tshape <$> params gen →
  cell_load_pretrained w
  = (inl (KeyError "gen_opt"),
     World (files w)
           (<["gen" := ObjModule (Module_ sd (training gen))]> (objects w))
           (stdout w))
  ∧ (sd ≠ params gen → (cell_load_pretrained w).2 ≠ w).
Proof.
  intros Hfile Hkg Hkgo Hg Dg.
  assert (Hrun : cell_load_pretrained w
    = (inl (KeyError "gen_opt"),
       World (files w)
             (<["gen" := ObjModule (Module_ sd (training gen))]> (objects w))
             (stdout w))).
  { unfold cell_load_pretrained.
    rewrite (cell_bind_inr _ _ _ _ _ (torch_load_present _ _ _ Hfile)).
    rewrite (cell_bind_inr _ _ _ _ _ (getitem_ok _ _ _ _ Hkg)).
    rewrite (cell_bind_inr _ _ _ _ _ (load_state_dict_module _ _ _ _ Hg Dg)).
    apply cell_bind_inl. unfold getitem. by rewrite Hkgo. }
  split; [exact Hrun|].
  intros Hne Hsame. rewrite Hrun in Hsame. cbn [snd] in Hsame.
  apply (f_equal (λ w', objects w' !! "gen")) in Hsame.
  cbn [objects] in Hsame. rewrite lookup_insert_eq, Hg in Hsame.
  injection Hsame as Hsd. apply Hne. by rewrite <- Hsd.
Qed.

Lemma X19_checkpoint_without_optimizer :
  let sd : state_dict := {["weight" := Tensor_ [1%nat] [5]]} in
  let d : gmap string saved := {["gen" := SavedModule sd]} in
  let gen := Module_ {["weight" := Tensor_ [1%nat] [1]]} true in
  let w := World {["pix2pix_15000.pth" := ObjDict d]}
                 {["gen" := ObjModule gen]} [] in
  files w !! "pix2pix_15000.pth" = Some (ObjDict d)
  ∧ d !! "gen" = Some (SavedModule sd)
  ∧ d !! "gen_opt" = None
  ∧ objects w !! "gen" = Some (ObjModule gen)
  ∧ tshape <$> sd = tshape <$> params gen
  ∧ cell_load_pretrained w
    = (inl (KeyError "gen_opt"),
       World (files w)
             (<["gen" := ObjModule (Module_ sd (training gen))]> (objects w))
             (stdout w))
  ∧ (sd ≠ params gen → (cell_load_pretrained w).2 ≠ w).
Proof.
  intros sd d gen w.
  assert (H1 : files w !! "pix2pix_15000.pth" = Some (ObjDict d))
    by reflexivity.
  assert (H2 : d !! "gen" = Some (SavedModule sd)) by reflexivity.
  assert (H3 : d !! "gen_opt" = None) by reflexivity.
  assert (H4 : objects w !! "gen" = Some (ObjModule gen)) by reflexivity.
  assert (H5 : tshape <$> sd = tshape <$> params gen) by reflexivity.
  repeat (split; [assumption|]).
  exact (X19_pretrained_load_not_atomic w d sd gen H1 H2 H3 H4 H5).
Defined.

(** X20: a "View Epoch" cell whose checkpoint is in place and has the
    model's parameter names and shapes leaves the model with the file's
    parameters and in eval mode, touches no other object and no file, and
    prints one line; running the cell a second time changes nothing but
    the output, which gets that line once more. *)
Theorem X20_view_epoch_rerun (epoch : string) (w : world) (sd : state_dict)
    (m : module) :
  files w !! (save_dir +:+ "/model_" +:+ epoch +:+ ".pth")
  = Some (ObjStateDict sd) →
  objects w !! "nn_model" = Some (ObjModule m) →
  tshape <$> sd = tshape <$> params m →
  ∃ w1 w2,
    cell_view_epoch epoch w = (inr (), w1)
    ∧ cell_view_epoch epoch w1 = (inr (), w2)
    ∧ files w1 = files w
    ∧ objects w1 !! "nn_model" = Some (ObjModule (Module_ sd false))
    ∧ (∀ name, name ≠ "nn_model" → objects w1 !! name = objects w !! name)
    ∧ stdout w1 = stdout w ++ ["Loaded in Model"]
    ∧ files w2 = files w1 ∧ objects w2 = objects w1
    ∧ stdout w2 = stdout w1 ++ ["Loaded in Model"].
Proof.
  intros Hfile Hm Hshape.
  pose proof (cell_view_epoch_loads epoch w sd m Hfile Hm Hshape) as H1.
  rewrite insert_insert_eq in H1.
  eexists _, _. split; [exact H1|]. split.
  { apply (cell_view_epoch_loads epoch _ sd (Module_ sd false)).
    - exact Hfile.
    - cbn [objects]. by rewrite lookup_insert_eq.
    - done. }
  cbn [files objects stdout params training].
  split; [done|]. split; [by rewrite lookup_insert_eq|].
  split; [intros name Hname; by rewrite lookup_insert_ne|].
  split; [done|]. split; [done|]. split; [|done].
  by rewrite !insert_insert_eq.
Qed.

Lemma X20_epoch_0_example :
  let sd : state_dict := {["weight" := Tensor_ [1%nat] [5]]} in
  let m := Module_ {["weight" := Tensor_ [1%nat] [1]]} true in
  let w := World {["./weights//model_0.pth" := ObjStateDict sd]}
                 {["nn_model" := ObjModule m]} [] in
  files w !! (save_dir +:+ "/model_" +:+ "0" +:+ ".pth")
  = Some (ObjStateDict sd)
  ∧ objects w !! "nn_model" = Some (ObjModule m)
  ∧ tshape <$> sd = tshape <$> params m
  ∧ ∃ w1 w2,
      cell_view_epoch "0" w = (inr (), w1)
      ∧ cell_view_epoch "0" w1 = (inr (), w2)
      ∧ files w1 = files w
      ∧ objects w1 !! "nn_model" = Some (ObjModule (Module_ sd false))
      ∧ (∀ name, name ≠ "nn_model" → objects w1 !! name = objects w !! name)
      ∧ stdout w1 = stdout w ++ ["Loaded in Model"]
      ∧ files w2 = files w1 ∧ objects w2 = objects w1
      ∧ stdout w2 = stdout w1 ++ ["Loaded in Model"].
Proof.
  intros sd m w.
  assert (H1 : files w !! (save_dir +:+ "/model_" +:+ "0" +:+ ".pth")
               = Some (ObjStateDict sd)) by reflexivity.
  assert (H2 : objects w !! "nn_model" = Some (ObjModule m)) by reflexivity.
  assert (H3 : tshape <$> sd = tshape <$> params m) by reflexivity.
  repeat (split; [assumption|]).
  exact (X20_view_epoch_rerun "0" w sd m H1 H2 H3).
Defined.

End CheckpointMore.

(** ** Pix2Pix: cropping *)

Module CropFacts.
Import Pix2Pix.

Lemma round_half_cases (n : nat) :
  (n mod 4 = 3 → round_half n = S (n / 2))%nat
  ∧ (n mod 4 ≠ 3 → round_half n = n / 2)%nat.
Proof.
  unfold round_half.
  pose proof (Nat.div_mod_eq n 4) as H4.
  pose proof (Nat.mod_upper_bound n 4) as Hm4.
  pose proof (Nat.div_mod_eq n 2) as H2.
  pose proof (Nat.mod_upper_bound n 2) as Hm2.
  pose proof (Nat.div_mod_eq (n / 2) 2) as H22.
  pose proof (Nat.mod_upper_bound (n / 2) 2) as Hm22.
  destruct (Nat.even n) eqn:He.
  { apply Nat.even_spec in He as [k Hk]. split; lia. }
  assert (Hodd : Nat.odd n = true) by (by rewrite <- Nat.negb_even, He).
  apply Nat.odd_spec in Hodd as [k Hk].
  destruct (Nat.even (n / 2)) eqn:He2.
  { apply Nat.even_spec in He2 as [j Hj]. split; lia. }
  assert (Hodd2 : Nat.odd (n / 2) = true) by (by rewrite <- Nat.negb_even, He2).
  apply Nat.odd_spec in Hodd2 as [j Hj]. split; lia.
Qed.

Lemma py_slice_window {A} (l : list A) (s n : nat) :
  (s + n ≤ length l)%nat →
  py_slice (Z.of_nat s) (Z.of_nat s + Z.of_nat n) l = take n (drop s l).
Proof.
  intros Hlen. unfold py_slice, slice_bound.
  rewrite !decide_False by lia.
  rewrite Nat2Z.id, <- Nat2Z.inj_add, Nat2Z.id.
  replace (s `min` length l)%nat with s by lia.
  replace ((s + n) `min` length l)%nat with (s + n)%nat by lia.
  f_equal. lia.
Qed.

Lemma crop_start (size new : nat) :
  (new ≤ size)%nat → (new = size → size mod 4 ≠ 3)%nat →
  (round_half new ≤ size / 2)%nat
  ∧ (size / 2 - round_half new + new ≤ size)%nat.
Proof.
  intros Hle Hodd.
  destruct (round_half_cases new) as [H3 Hn3].
  pose proof (Nat.div_mod_eq new 4). pose proof (Nat.mod_upper_bound new 4).
  pose proof (Nat.div_mod_eq new 2). pose proof (Nat.mod_upper_bound new 2).
  pose proof (Nat.div_mod_eq size 2). pose proof (Nat.mod_upper_bound size 2).
  pose proof (Nat.div_mod_eq size 4). pose proof (Nat.mod_upper_bound size 4).
  destruct (decide (new mod 4 = 3)%nat) as [Hm|Hm].
  - rewrite (H3 Hm). destruct (decide (new = size)) as [->|Hne]; [tauto|].
    split; lia.
  - rewrite (Hn3 Hm). split; lia.
Qed.

Lemma crop_closed_form (image : list (list (list (list R))))
    (H W new_h new_w : nat) :
  shape2 image = H → shape3 image = W →
  Forall (Forall (λ plane : list (list R),
                    length plane = H
                    ∧ Forall (λ row, length row = W) plane)) image →
  (round_half new_h ≤ H / 2)%nat →
  (H / 2 - round_half new_h + new_h ≤ H)%nat →
  (round_half new_w ≤ W / 2)%nat →
  (W / 2 - round_half new_w + new_w ≤ W)%nat →
  crop image new_h new_w
  = (λ img : list (list (list R)),
       (λ plane : list (list R),
          (λ row : list R, take new_w (drop (W / 2 - round_half new_w) row))
          <$> take new_h (drop (H / 2 - round_half new_h) plane))
       <$> img)
    <$> image.
Proof.
  intros HH HW Hrect Hh1 Hh2 Hw1 Hw2. unfold crop. rewrite HH, HW.
  rewrite <- !Nat2Z.inj_sub by done.
  apply Forall_fmap_ext_1. eapply Forall_impl; [exact Hrect|].
  intros img Himg. apply Forall_fmap_ext_1.
  eapply Forall_impl; [exact Himg|].
  intros plane [Hpl Hrows]. cbn beta.
  rewrite py_slice_window by lia.
  apply Forall_fmap_ext_1.
  apply Forall_take, Forall_drop.
  eapply Forall_impl; [exact Hrows|].
  intros row Hrow. cbn beta in *. apply py_slice_window. lia.
Qed.

(** X21: [crop] cuts the centred window.  For a batch of [H] x [W] planes
    and a new size with [new_h <= H] and [new_w <= W] (excluding only the
    same odd size [H = new_h] with [H mod 4 = 3], and likewise for the
    width), every plane of the result has [new_h] rows of [new_w] entries,
    and entry [(i, j)] of a cropped plane is entry
    [(H/2 - round(new_h/2) + i, W/2 - round(new_w/2) + j)] of the plane it
    comes from; batch and channel structure are kept. *)
Theorem X21_crop_centre_window (image : list (list (list (list R))))
    (H W new_h new_w : nat) :
  shape2 image = H → shape3 image = W →
  Forall (Forall (λ plane : list (list R),
                    length plane = H
                    ∧ Forall (λ row, length row = W) plane)) image →
  (new_h ≤ H)%nat → (new_w ≤ W)%nat →
  (new_h = H → H mod 4 ≠ 3)%nat → (new_w = W → W mod 4 ≠ 3)%nat →
  length (crop image new_h new_w) = length image
  ∧ Forall (Forall (λ plane : list (list R),
                      length plane = new_h
                      ∧ Forall (λ row, length row = new_w) plane))
      (crop image new_h new_w)
  ∧ ∀ b ch i j : nat, (i < new_h)%nat → (j < new_w)%nat →
      (img ← crop image new_h new_w !! b; plane ← img !! ch;
       row ← plane !! i; row !! j)
      = (img ← image !! b; plane ← img !! ch;
         row ← plane !! (H / 2 - round_half new_h + i)%nat;
         row !! (W / 2 - round_half new_w + j)%nat).
Proof.
  intros HH HW Hrect Hh Hw Hhodd Hwodd.
  destruct (crop_start H new_h Hh Hhodd) as [Hh1 Hh2].
  destruct (crop_start W new_w Hw Hwodd) as [Hw1 Hw2].
  rewrite (crop_closed_form image H W new_h new_w) by done.
  split; [by rewrite length_fmap|]. split.
  - apply Forall_fmap. eapply Forall_impl; [exact Hrect|].
    intros img Himg. cbn [compose]. apply Forall_fmap.
    eapply Forall_impl; [exact Himg|].
    intros plane [Hpl Hrows]. cbn [compose]. split.
    + rewrite length_fmap, length_take, length_drop. lia.
    + apply Forall_fmap, Forall_take, Forall_drop.
      eapply Forall_impl; [exact Hrows|].
      intros row Hrow. cbn [compose]. cbn beta in Hrow.
      rewrite length_take, length_drop. lia.
  - intros b ch i j Hi Hj. rewrite list_lookup_fmap.
    destruct (image !! b) as [img|]; [|done].
    cbn [fmap option_fmap option_map mbind option_bind].
    rewrite list_lookup_fmap.
    destruct (img !! ch) as [plane|]; [|done].
    cbn [fmap option_fmap option_map mbind option_bind].
    rewrite list_lookup_fmap, lookup_take_lt, lookup_drop by done.
    destruct (plane !! _) as [row|]; [|done].
    cbn [fmap option_fmap option_map mbind option_bind].
    by rewrite lookup_take_lt, lookup_drop.
Qed.

Lemma X21_crop_4x4_to_2x2 :
  let image := [[[[1; 2; 3; 4]; [5; 6; 7; 8];
                  [9; 10; 11; 12]; [13; 14; 15; 16]]]] in
  shape2 image = 4%nat ∧ shape3 image = 4%nat
  ∧ Forall (Forall (λ plane : list (list R),
                      length plane = 4%nat
                      ∧ Forall (λ row, length row = 4%nat) plane)) image
  ∧ (2 ≤ 4)%nat ∧ (2 ≤ 4)%nat
  ∧ (2 = 4 → 4 mod 4 ≠ 3)%nat ∧ (2 = 4 → 4 mod 4 ≠ 3)%nat
  ∧ length (crop image 2 2) = length image
  ∧ Forall (Forall (λ plane : list (list R),
                      length plane = 2%nat
                      ∧ Forall (λ row, length row = 2%nat) plane))
      (crop image 2 2)
  ∧ ∀ b ch i j : nat, (i < 2)%nat → (j < 2)%nat →
      (img ← crop image 2 2 !! b; plane ← img !! ch;
       row ← plane !! i; row !! j)
      = (img ← image !! b; plane ← img !! ch;
         row ← plane !! (4 / 2 - round_half 2 + i)%nat;
         row !! (4 / 2 - round_half 2 + j)%nat).
Proof.
  intros image.
  assert (H1 : shape2 image = 4%nat) by reflexivity.
  assert (H2 : shape3 image = 4%nat) by reflexivity.
  assert (H3 : Forall (Forall (λ plane : list (list R),
                      length plane = 4%nat
                      ∧ Forall (λ row, length row = 4%nat) plane)) image).
  { repeat constructor. }
  assert (H4 : (2 ≤ 4)%nat) by lia.
  assert (H5 : (2 = 4 → 4 mod 4 ≠ 3)%nat) by lia.
  repeat (split; [assumption|]).
  exact (X21_crop_centre_window image 4 4 2 2 H1 H2 H3 H4 H4 H5 H5).
Defined.

(** X22: cropping to the image's own height loses every row when that
    height is 3 modulo 4: Python's [round] takes [H / 2] up to the even
    neighbour, the start index becomes [-1], which a slice counts from the
    end, and the rows [H-1 : H-1] are none. *)
Theorem X22_crop_same_odd_height_is_empty
    (image : list (list (list (list R)))) (H new_w : nat) :
  shape2 image = H →
  Forall (Forall (λ plane : list (list R), length plane = H)) image →
  (H mod 4 = 3)%nat →
  Forall (Forall (λ plane : list (list R), plane = [])) (crop image H new_w).
Proof.
  intros HH Hrect Hmod. unfold crop. rewrite HH.
  destruct (round_half_cases H) as [Hup _]. rewrite (Hup Hmod).
  apply Forall_fmap. eapply Forall_impl; [exact Hrect|].
  intros img Himg. cbn [compose]. apply Forall_fmap.
  eapply Forall_impl; [exact Himg|].
  intros plane Hpl. cbn [compose].
  assert (Hslice : py_slice (Z.of_nat (H / 2) - Z.of_nat (S (H / 2)))
                     (Z.of_nat (H / 2) - Z.of_nat (S (H / 2)) + Z.of_nat H)
                     plane = []).
  { unfold py_slice, slice_bound. rewrite Hpl.
    pose proof (Nat.div_mod_eq H 4). pose proof (Nat.mod_upper_bound H 4).
    repeat case_decide; try lia.
    replace (_ - _)%nat with 0%nat by lia. done. }
  by rewrite Hslice.
Qed.

Lemma X22_crop_3x3_to_3x3 :
  let image := [[[[1; 2; 3]; [4; 5; 6]; [7; 8; 9]]]] in
  shape2 image = 3%nat
  ∧ Forall (Forall (λ plane : list (list R), length plane = 3%nat)) image
  ∧ (3 mod 4 = 3)%nat
  ∧ Forall (Forall (λ plane : list (list R), plane = [])) (crop image 3 3).
Proof.
  intros image.
  assert (H1 : shape2 image = 3%nat) by reflexivity.
  assert (H2 : Forall (Forall (λ plane : list (list R), length plane = 3%nat))
                 image) by (repeat constructor).
  assert (H3 : (3 mod 4 = 3)%nat) by reflexivity.
  repeat (split; [assumption|]).
  exact (X22_crop_same_odd_height_is_empty image 3 3 H1 H2 H3).
Defined.

End CropFacts.
